(** * ArticleGenerator: a resumable batch pipeline over discussion threads

    A shallow embedding of [ArticleGenerator] (the per-thread analysis
    pipeline, the progress checkpoint and the output commit) together with
    the properties of its specification.

    Modelling conventions.
    - A JavaScript string is the list of its UTF-16 code units ([list N]).
    - A JavaScript number that the code uses as a count is an exact natural
      number ([N]); the other numbers are rationals extended with NaN, the
      two infinities and [null] ([jsnum]). The percentages that the code
      divides and averages are kept exact; the size of the sample is an
      integer that depends on the rounding of a product and of a
      quotient, and is computed with the rounding of binary64
      ([Binary64]). The sign of zero is not represented.
    - A file holds the document that [JSON.parse] gives back of it:
      what is written goes through JSON, which keeps everything but the
      numbers that are not finite ([json_analysis], [json_batch]).
    - The outside world (the completion service, [Math.random], [Date.now],
      the file system and the console) is an explicit [World] threaded
      through a state-and-exception monad; what the world answers is fixed
      by oracles gathered in [Env]. *)

From Stdlib Require Import ZArith NArith QArith Qround Qpower Lqa String Ascii.
From Stdlib Require Import Floats.
From stdpp Require Import base option list gmap sets.

Local Close Scope Q_scope.
Local Open Scope nat_scope.

(** ** JavaScript strings *)

Module JsString.

Definition t := list N.

(** A string literal of the source, as code units. *)
Definition lit (s : string) : list N :=
  (λ a, N_of_ascii a) <$> list_ascii_of_string s.

(** [\d] : the ten ASCII digits. *)
Definition is_digit (c : N) : bool := ((48 <=? c) && (c <=? 57))%N.

(** LineTerminator of ECMAScript: LF, CR, LS, PS. *)
Definition is_line_terminator (c : N) : bool :=
  ((c =? 10) || (c =? 13) || (c =? 8232) || (c =? 8233))%N.

(** [\s] and the characters removed by [trim]: WhiteSpace and
    LineTerminator of ECMAScript. *)
Definition is_space (c : N) : bool :=
  ((c =? 9) || (c =? 11) || (c =? 12) || (c =? 32) || (c =? 160)
   || (c =? 5760) || ((8192 <=? c) && (c <=? 8202)) || (c =? 8239)
   || (c =? 8287) || (c =? 12288) || (c =? 65279))%N
  || is_line_terminator c.

(** [.] without the [s] flag. *)
Definition is_dot (c : N) : bool := negb (is_line_terminator c).

(** ASCII upper-casing; it is what Canonicalize of a regular expression
    with the [i] flag (and no [u] flag) does below code unit 128. *)
Definition upper (c : N) : N :=
  if ((97 <=? c) && (c <=? 122))%N then (c - 32)%N else c.

(** A pattern character [pc] below 128 under the [i] flag: a code unit of
    128 or more never canonicalizes to an ASCII one, so only the two ASCII
    cases of a letter match. *)
Definition ci_char (pc c : N) : bool :=
  ((c <? 128) && (upper c =? upper pc))%N.

(** [String.prototype.trim]. *)
Fixpoint trim_start (s : list N) : list N :=
  match s with
  | c :: s' => if is_space c then trim_start s' else s
  | [] => []
  end.

Definition trim (s : list N) : list N :=
  reverse (trim_start (reverse (trim_start s))).

(** [s.replace(/\*\*/g, '')]: the occurrences of two asterisks are removed
    from left to right, without overlap. *)
Fixpoint remove_double_star (s : list N) : list N :=
  match s with
  | [] => []
  | c :: s' =>
      match s' with
      | c' :: s'' =>
          if ((c =? 42) && (c' =? 42))%N then remove_double_star s''
          else c :: remove_double_star s'
      | [] => [c]
      end
  end.

(** [s.split(/\s+/).length]: one more than the number of maximal runs of
    white space. [in_run] tells whether the previous code unit was white. *)
Fixpoint space_runs (in_run : bool) (s : list N) : nat :=
  match s with
  | [] => 0
  | c :: s' =>
      if is_space c then (if in_run then 0 else 1) + space_runs true s'
      else space_runs false s'
  end.

Definition split_space_length (s : list N) : nat := S (space_runs false s).

(** [parseInt(s, 10)] on a string of decimal digits. *)
Definition digit_value (c : N) : N := (c - 48)%N.

Definition parse_digits (s : list N) : N :=
  fold_left (λ acc c, acc * 10 + digit_value c)%N s 0%N.

(** [Number.prototype.toString] on a natural number (decimal). *)
Fixpoint decimal_digits (fuel : nat) (n : N) (acc : list N) : list N :=
  match fuel with
  | 0 => acc
  | S fuel' =>
      let acc' := (48 + n mod 10)%N :: acc in
      if (n <? 10)%N then acc' else decimal_digits fuel' (n / 10)%N acc'
  end.

Definition of_N (n : N) : list N := decimal_digits (S (N.to_nat (N.log2 n))) n [].

(** [Array.prototype.join]. *)
Fixpoint join (sep : list N) (parts : list (list N)) : list N :=
  match parts with
  | [] => []
  | [p] => p
  | p :: ps => p ++ sep ++ join sep ps
  end.

End JsString.

(** ** Regular expressions

    The backtracking matcher of ECMAScript (22.2.2) for the constructs the
    source uses: a matcher takes a continuation and a state, and returns
    the first success in priority order. *)

Module Regex.

Inductive regex : Type :=
| Eps
| Chr (p : N → bool)                 (* one code unit satisfying [p] *)
| Seq (r1 r2 : regex)
| Alt (r1 r2 : regex)                (* r1|r2, r1 first *)
| Star (greedy : bool) (r : regex)   (* r* and r*? *)
| Group (i : nat) (r : regex)        (* capturing group number i *)
| EndOfInput.                        (* $ without the m flag *)

(** [r+] and [r+?]. *)
Definition Plus (greedy : bool) (r : regex) : regex := Seq r (Star greedy r).

(** A literal under the [i] flag. *)
Fixpoint lit_ci (l : list N) : regex :=
  match l with
  | [] => Eps
  | c :: l' => Seq (Chr (JsString.ci_char c)) (lit_ci l')
  end.

(** The input still to be read, and the captures made so far (the most
    recent first). *)
Record mstate : Type := MState { rest : list N; caps : list (nat * list N) }.

Definition cont : Type := mstate → option mstate.

(** The text consumed between state [x] and the later state [y]. *)
Definition consumed (x y : mstate) : list N :=
  take (length (rest x) - length (rest y)) (rest x).

(** RepeatMatcher with min = 0 and max = infinity, for a body whose
    matcher is [ma]: another round of the body is tried before (greedy) or
    after (lazy) the continuation, and a round that consumes nothing is
    rejected. Every round consumes input, so a [fuel] above the length of
    the input is never used up. *)
Fixpoint star_loop (ma : cont → mstate → option mstate) (greedy : bool)
    (k : cont) (fuel : nat) (x : mstate) {struct fuel} : option mstate :=
  match fuel with
  | 0 => k x
  | S fuel' =>
      let again (_ : unit) :=
        ma (λ y, if length (rest y) <? length (rest x)
                 then star_loop ma greedy k fuel' y else None) x in
      if greedy then
        match again () with Some m => Some m | None => k x end
      else
        match k x with Some m => Some m | None => again () end
  end.

Fixpoint mre (r : regex) (k : cont) (x : mstate) {struct r} : option mstate :=
  match r with
  | Eps => k x
  | Chr p =>
      match rest x with
      | c :: s => if p c then k (MState s (caps x)) else None
      | [] => None
      end
  | Seq r1 r2 => mre r1 (mre r2 k) x
  | Alt r1 r2 =>
      match mre r1 k x with
      | Some m => Some m
      | None => mre r2 k x
      end
  | Star greedy a => star_loop (mre a) greedy k (S (length (rest x))) x
  | Group i a =>
      mre a (λ y, k (MState (rest y) ((i, consumed x y) :: caps y))) x
  | EndOfInput =>
      match rest x with
      | [] => k x
      | _ :: _ => None
      end
  end.

(** [RegExp.prototype.exec] of a regular expression without the [g] and
    [y] flags: the match is tried at index 0, 1, ... up to the length. *)
Fixpoint exec (r : regex) (s : list N) : option mstate :=
  match mre r Some (MState s []) with
  | Some m => Some m
  | None =>
      match s with
      | [] => None
      | _ :: s' => exec r s'
      end
  end.

(** [match[i]]. *)
Fixpoint capture (i : nat) (cs : list (nat * list N)) : option (list N) :=
  match cs with
  | [] => None
  | (j, v) :: cs' => if Nat.eqb i j then Some v else capture i cs'
  end.

Definition group (i : nat) (m : mstate) : option (list N) := capture i (caps m).

End Regex.

Import Regex.

(** /HEADLINE:\s*(.+?)(?:\n|$)/i *)
Definition headline_re : regex :=
  Seq (lit_ci (JsString.lit "HEADLINE:"))
   (Seq (Star true (Chr JsString.is_space))
    (Seq (Group 1 (Plus false (Chr JsString.is_dot)))
         (Alt (Chr (N.eqb 10)) EndOfInput))).

(** /ARTICLE:\s*(.+?)(?:\n|$)/i *)
Definition article_re : regex :=
  Seq (lit_ci (JsString.lit "ARTICLE:"))
   (Seq (Star true (Chr JsString.is_space))
    (Seq (Group 1 (Plus false (Chr JsString.is_dot)))
         (Alt (Chr (N.eqb 10)) EndOfInput))).

(** /(\d+)\/(\d+)/ *)
Definition ratio_re : regex :=
  Seq (Group 1 (Plus true (Chr JsString.is_digit)))
   (Seq (Chr (N.eqb 47))
        (Group 2 (Plus true (Chr JsString.is_digit)))).

(** ** JavaScript numbers that are divided and averaged

    The value of a numeric field is a number or, when it was read from a
    JSON document written with a number that was not finite in its place,
    [null]. *)

Inductive jsnum : Type :=
| JNum (q : Q)
| JNaN
| JPosInf
| JNegInf
| JNull.

Module JsNum.

Definition of_Q (q : Q) : jsnum := JNum (Qred q).
Definition of_N (n : N) : jsnum := of_Q (inject_Z (Z.of_N n)).
Definition zero : jsnum := of_Q 0.

(** ToNumber: [null] is 0. *)
Definition num (a : jsnum) : jsnum :=
  match a with
  | JNull => zero
  | _ => a
  end.

(** The sign of a number that is not NaN: -1, 0 or 1. *)
Definition sign (a : jsnum) : Z :=
  match a with
  | JNum q => Z.sgn (Qnum q)
  | JNaN | JNull => 0
  | JPosInf => 1
  | JNegInf => -1
  end.

Definition inf_of_sign (z : Z) : jsnum :=
  if (z <? 0)%Z then JNegInf else JPosInf.

Definition add (a b : jsnum) : jsnum :=
  match num a, num b with
  | JNaN, _ | _, JNaN => JNaN
  | JNum p, JNum q => of_Q (p + q)
  | JPosInf, JNegInf | JNegInf, JPosInf => JNaN
  | JPosInf, _ | _, JPosInf => JPosInf
  | JNegInf, _ | _, JNegInf => JNegInf
  | JNull, _ | _, JNull => JNaN         (* not reached: [num] is never [null] *)
  end.

Definition mul (a b : jsnum) : jsnum :=
  match num a, num b with
  | JNaN, _ | _, JNaN => JNaN
  | JNum p, JNum q => of_Q (p * q)
  | a, b =>
      if (sign a * sign b =? 0)%Z then JNaN else inf_of_sign (sign a * sign b)
  end.

(** Division: 0/0 is NaN and x/0 is an infinity. *)
Definition div (a b : jsnum) : jsnum :=
  match num a, num b with
  | JNaN, _ | _, JNaN => JNaN
  | JNum p, JNum q =>
      if Qeq_bool q 0 then
        (if Qeq_bool p 0 then JNaN else inf_of_sign (sign (JNum p)))
      else of_Q (p / q)
  | JNum _, _ => zero
  | a, (JNum _ as b) => inf_of_sign (sign a * (if (sign b =? 0)%Z then 1 else sign b))
  | _, _ => JNaN
  end.

End JsNum.

(** ** Rounding to binary64

    The numbers of IEEE 754 binary64 are 0 and the rationals [m * 2^c]
    with [m] an integer, [|m| < 2^53] and [-1074 <= c <= 971]. The result
    of an operation is the exact result rounded to the nearest of them,
    to the one with an even [m] when two are as near, and to an infinity
    from [2^1024 - 2^970] on. *)

Module Binary64.

(** The exponent [e] of a positive rational: [2^e <= q < 2^(e+1)]. With
    [a] and [b] the logarithms of the numerator and of the denominator,
    [2^(a-b-1) < q < 2^(a-b+1)]. *)
Definition exponent (q : Q) : Z :=
  let e0 := (Z.log2 (Qnum q) - Z.log2 (Zpos (Qden q)))%Z in
  if Qle_bool (2 ^ e0) q then e0 else (e0 - 1)%Z.

(** The nearest integer, the even one of two that are as near. *)
Definition nearest_even (m : Q) : Z :=
  let f := Qfloor m in
  match (m - inject_Z f ?= 1 # 2)%Q with
  | Lt => f
  | Gt => (f + 1)%Z
  | Eq => if Z.even f then f else (f + 1)%Z
  end.

(** The exponent of the unit in the last place: 53 binary digits, and no
    exponent below -1074 (the subnormal numbers). *)
Definition ulp_exponent (q : Q) : Z := Z.max (exponent q - 52) (-1074).

(** A positive rational rounded to a multiple of its unit in the last
    place. *)
Definition round_pos (q : Q) : Q :=
  let c := ulp_exponent q in
  (inject_Z (nearest_even (q / 2 ^ c)) * 2 ^ c)%Q.

Definition round (q : Q) : jsnum :=
  match (q ?= 0)%Q with
  | Eq => JsNum.zero
  | Gt =>
      let r := round_pos q in
      if Qle_bool (2 ^ 1024) r then JPosInf else JsNum.of_Q r
  | Lt =>
      let r := round_pos (- q) in
      if Qle_bool (2 ^ 1024) r then JNegInf else JsNum.of_Q (- r)
  end.

(** The result of an operation, from its exact result. *)
Definition of_exact (a : jsnum) : jsnum :=
  match a with
  | JNum q => round q
  | _ => a
  end.

(** [a * b] and [a / b] *)
Definition mul (a b : jsnum) : jsnum := of_exact (JsNum.mul a b).
Definition div (a b : jsnum) : jsnum := of_exact (JsNum.div a b).

End Binary64.

(** [Math.ceil] *)
Definition Math_ceil (a : jsnum) : jsnum :=
  match JsNum.num a with
  | JNum q => JsNum.of_Q (inject_Z (Qceiling q))
  | a => a
  end.

(** ** Data model *)

(** [Post] and [Thread] (types/interfaces): the fields the generator reads. *)
Record Post : Type := { post_no : N; com : option (list N) }.

Record Thread : Type := { no : N; posts : option (list Post) }.

Record AntisemiticStats : Type := {
  analyzedComments : N;
  antisemiticComments : N;
  percentage : jsnum
}.

Record Metadata : Type := {
  totalPosts : N;
  analyzedPosts : N;
  generatedAt : Z
}.

Record ArticleAnalysis : Type := {
  threadId : N;
  headline : list N;
  article : list N;
  antisemiticStats : AntisemiticStats;
  metadata : Metadata
}.

Record BatchStats : Type := {
  totalThreads : N;
  totalAnalyzedPosts : N;
  averageAntisemiticPercentage : jsnum;
  batchGeneratedAt : Z
}.

Record ArticleBatch : Type := {
  articles : list ArticleAnalysis;
  batchStats : BatchStats
}.

(** *** The records as JSON

    [JSON.stringify] writes [null] for a number that is not finite, and
    [JSON.parse] gives [null] back; the other values of the records are
    read back as they were written. *)

Definition json_number (a : jsnum) : jsnum :=
  match a with
  | JNum q => JNum q
  | _ => JNull
  end.

Definition json_analysis (a : ArticleAnalysis) : ArticleAnalysis :=
  {| threadId := threadId a;
     headline := headline a;
     article := article a;
     antisemiticStats :=
       {| analyzedComments := analyzedComments (antisemiticStats a);
          antisemiticComments := antisemiticComments (antisemiticStats a);
          percentage := json_number (percentage (antisemiticStats a)) |};
     metadata := metadata a |}.

Definition json_batch (batch : ArticleBatch) : ArticleBatch :=
  {| articles := json_analysis <$> articles batch;
     batchStats :=
       {| totalThreads := totalThreads (batchStats batch);
          totalAnalyzedPosts := totalAnalyzedPosts (batchStats batch);
          averageAntisemiticPercentage :=
            json_number (averageAntisemiticPercentage (batchStats batch));
          batchGeneratedAt := batchGeneratedAt (batchStats batch) |} |}.

Record ArticleGeneratorConfig : Type := { analysisPercentage : Q }.

Definition DEFAULT_CONFIG : ArticleGeneratorConfig :=
  {| analysisPercentage := 30 |}.

(** Maximum posts to analyze in a single batch for antisemitic content. *)
Definition ANTISEMITIC_BATCH_SIZE : nat := 20.

(** The fields of the generator object. *)
Record ArticleGenerator : Type := {
  config : ArticleGeneratorConfig;
  temperature : Q;
  progressFile : list N;
  outputFile : list N
}.

(** [path.resolve(dataDir, 'analysis', name)] for an absolute, normalized
    [dataDir] ([paths.dataDir] is a parameter here). *)
Definition resolve_analysis (dataDir : list N) (name : string) : list N :=
  dataDir ++ JsString.lit "/analysis/" ++ JsString.lit name.

(** The constructor: [config] overrides the default when given, and
    [env_temperature] is [parseFloat(process.env.DEEPSEEK_TEMPERATURE)]
    when the variable is set. *)
Definition new_ArticleGenerator (dataDir : list N)
    (config : option ArticleGeneratorConfig) (env_temperature : option Q)
    : ArticleGenerator :=
  {| config := default DEFAULT_CONFIG config;
     temperature := default (7 # 10)%Q env_temperature;
     progressFile := resolve_analysis dataDir "progress.json";
     outputFile := resolve_analysis dataDir "articles.json" |}.

(** ** The completion service *)

Inductive Role : Type := System | User.

Record Message : Type := { role : Role; content : list N }.

Record ChatRequest : Type := {
  model : list N;
  messages : list Message;
  req_temperature : Q
}.

(** ** The world *)

(** What a file holds: the document that [JSON.parse] gives back, in
    which a number that was not finite when the document was written is
    [null], or bytes that do not parse. *)
Inductive FileContent : Type :=
| ProgressDoc (articles : list ArticleAnalysis) (timestamp : Z)
| OutputDoc (batch : ArticleBatch) (timestamp : Z)
| Corrupt.

Inductive FsOp : Type :=
| Mkdir (dir : list N)
| WriteFile (path : list N) (data : FileContent)
| ReadFile (path : list N)
| Rename (src dst : list N)
| Unlink (path : list N).

(** An operation of the file system succeeds, fails leaving the files as
    they were, or (a write) fails after it has truncated the file. *)
Inductive Fault : Type := NoFault | Fails | FailsTorn.

Inductive Level : Type := Info | Warning | Error.

Record LogEvent : Type := { level : Level; message : list N }.

Record World : Type := {
  files : gmap (list N) FileContent;
  fs_log : list (FsOp * bool);       (* the operations so far, and whether each succeeded *)
  chat_log : list ChatRequest;       (* the requests sent so far *)
  samples : nat;                     (* the calls of randomSample so far *)
  clock_reads : nat;                 (* the calls of Date.now so far *)
  console : list LogEvent;
  progress_calls : list (list N)     (* the arguments given to onProgress so far *)
}.

(** What the world answers. Each oracle sees the history, so that any
    behaviour of the service, of the generator and of the disk is one
    [Env]. [respond] gives [None] when the call is rejected or when the
    response has no [choices[0].message.content] string. *)
Record Env : Type := {
  respond : list ChatRequest → ChatRequest → option (list N);
  entropy : nat → list nat;
  now : nat → Z;
  fs_fault : list (FsOp * bool) → FsOp → Fault
}.

Inductive Err : Type :=
| ChatError
| FsError (op : FsOp)
| ParseError
| CallbackError.

Inductive Result (A : Type) : Type :=
| Ok (a : A)
| Throw (e : Err).
Arguments Ok {A} a.
Arguments Throw {A} e.

(** Computations: they read and change the world, and return or throw. *)
Definition M (A : Type) : Type := World → Result A * World.

Definition ret {A} (a : A) : M A := λ w, (Ok a, w).

Definition throw {A} (e : Err) : M A := λ w, (Throw e, w).

Definition bind {A B} (m : M A) (f : A → M B) : M B :=
  λ w, match m w with
       | (Ok a, w') => f a w'
       | (Throw e, w') => (Throw e, w')
       end.

(** try { m } catch (e) { h e } *)
Definition try_catch {A} (m : M A) (h : Err → M A) : M A :=
  λ w, match m w with
       | (Ok a, w') => (Ok a, w')
       | (Throw e, w') => h e w'
       end.

Notation "'let*' x ':=' m 'in' k" := (bind m (λ x, k))
  (at level 10, x pattern, m at level 100, k at level 200).
Notation "'run' m 'in' k" := (bind m (λ _, k))
  (at level 10, m at level 100, k at level 200).

Definition set_files (f : gmap (list N) FileContent) (w : World) : World :=
  {| files := f; fs_log := fs_log w; chat_log := chat_log w;
     samples := samples w; clock_reads := clock_reads w;
     console := console w; progress_calls := progress_calls w |}.

Definition set_fs_log (l : list (FsOp * bool)) (w : World) : World :=
  {| files := files w; fs_log := l; chat_log := chat_log w;
     samples := samples w; clock_reads := clock_reads w;
     console := console w; progress_calls := progress_calls w |}.

Definition set_chat_log (l : list ChatRequest) (w : World) : World :=
  {| files := files w; fs_log := fs_log w; chat_log := l;
     samples := samples w; clock_reads := clock_reads w;
     console := console w; progress_calls := progress_calls w |}.

Definition set_samples (n : nat) (w : World) : World :=
  {| files := files w; fs_log := fs_log w; chat_log := chat_log w;
     samples := n; clock_reads := clock_reads w;
     console := console w; progress_calls := progress_calls w |}.

Definition set_clock_reads (n : nat) (w : World) : World :=
  {| files := files w; fs_log := fs_log w; chat_log := chat_log w;
     samples := samples w; clock_reads := n;
     console := console w; progress_calls := progress_calls w |}.

Definition set_console (l : list LogEvent) (w : World) : World :=
  {| files := files w; fs_log := fs_log w; chat_log := chat_log w;
     samples := samples w; clock_reads := clock_reads w;
     console := l; progress_calls := progress_calls w |}.

Definition set_progress_calls (l : list (list N)) (w : World) : World :=
  {| files := files w; fs_log := fs_log w; chat_log := chat_log w;
     samples := samples w; clock_reads := clock_reads w;
     console := console w; progress_calls := l |}.

(** [console.log], [console.warn], [console.error]. *)
Definition console_out (lv : Level) (msg : list N) : M unit :=
  λ w, (Ok (), set_console (console w ++ [{| level := lv; message := msg |}]) w).


(** ** Prompts *)

Definition nl : list N := [10%N].
Definition dq : list N := [34%N].
Definition lit : string → list N := JsString.lit.
Definition indent (n : nat) (s : list N) : list N := replicate n 32%N ++ s.

Definition antisemitic_system : list N :=
  JsString.join nl
    [ lit "You are an anti-zionist yet objective content analyzer focused on identifying antisemitic content.";
      indent 21 (lit "Use established academic definitions and criteria.");
      indent 21 (lit "Analyze factually without personal bias.");
      indent 21 (lit "You must analyze EVERY comment provided.");
      indent 21 (lit "Respond only with numbers in this format: [count of antisemitic comments]/[total comments analyzed]") ].

Definition antisemitic_user (batchPosts : list (list N)) : list N :=
  let count := JsString.of_N (N.of_nat (length batchPosts)) in
  let batchContent := JsString.join (nl ++ nl) batchPosts in
  JsString.join nl
    [ lit "Analyze these " ++ count ++ lit " comments for antisemitic content. Count how many contain such content.";
      indent 21 (lit "You MUST analyze all " ++ count ++ lit " comments.");
      indent 21 (lit "Respond only with the count in format: X/Y where X is antisemitic comments and Y is total analyzed.");
      indent 21 [];
      indent 21 (lit "Comments to analyze:") ++ nl ++ nl ++ batchContent ].

Definition antisemiticPrompt (batchPosts : list (list N)) : ChatRequest :=
  {| model := lit "deepseek-chat";
     messages :=
       [ {| role := System; content := antisemitic_system |};
         {| role := User; content := antisemitic_user batchPosts |} ];
     (* Keep antisemitic analysis temperature low for consistency *)
     req_temperature := (2 # 10)%Q |}.

Definition article_system : list N :=
  JsString.join nl
    [ lit "You are an objective academic researcher documenting authentic online discourse.";
      indent 19 (lit "Your role is to record and analyze content, political views, and controversial opinions exactly as they appear.");
      indent 19 (lit "Your job isto discern if any impactful events have occured in the world.");
      indent 19 (lit "You must preserve all language, slurs, and rhetoric verbatim for research accuracy.");
      indent 19 (lit "This is a scholarly documentation project - do not sanitize or modify any content.");
      indent 19 (lit "Your goal is to create complete, coherent summaries that capture the key points.");
      indent 19 (lit "You must write articles between 100 to 150 words in length.");
      indent 19 (lit "Present information neutrally and professionally.");
      indent 19 (lit "Ensure headlines are clear and concise (ideally 3-6 words).") ].

Definition article_user (postsContent : list N) : list N :=
  JsString.join nl
    [ lit "You are an expert journalist summarizing online discussions.";
      lit "Your task is to analyze a thread of posts and generate:";
      lit "1. A clear, concise headline of 4 to 6 words.";
      lit "2. A detailed article summarizing the key points and themes (100 - 150 words).";
      [];
      lit "Focus on identifying world events thought patterns, political views, and controversial opinions, and other topics and events.";
      lit "Maintain a neutral, academic tone.";
      lit "Always directly quote comments verbatim in quotation marks.";
      lit "Be sure to include lots of quotes.";
      lit "Never contextualize the content with words like " ++ dq ++ lit "online" ++ dq ++ lit " or " ++ dq ++ lit "forum" ++ dq ++ lit ". Never mention the discussion itself, only what was discussed.";
      lit "Be sure that your headline and article are within the word limits.";
      indent 57 [];
      indent 1 (lit "Thread content:") ++ nl ++ postsContent ].

Definition articlePrompt (temperature : Q) (postsContent : list N) : ChatRequest :=
  {| model := lit "deepseek-chat";
     messages :=
       [ {| role := System; content := article_system |};
         {| role := User; content := article_user postsContent |} ];
     req_temperature := temperature |}.

(** ** Response parsers *)

Definition parseArticleResponse (response : list N) : list N * list N :=
  let headlineMatch := exec headline_re response in
  let articleMatch := exec article_re response in
  let headline :=
    default (lit "Untitled Thread") (JsString.trim <$> (headlineMatch ≫= group 1)) in
  let article :=
    default (lit "No content available") (JsString.trim <$> (articleMatch ≫= group 1)) in
  (* Clean up any artifacts *)
  let headline := JsString.trim (JsString.remove_double_star headline) in
  let article := JsString.trim (JsString.remove_double_star article) in
  (headline, article).

(** What [parseArticleResponse] prints. *)
Definition parseArticleResponse_console (headline article : list N) : M unit :=
  let headlineWords := JsString.split_space_length headline in
  let articleWords := JsString.split_space_length article in
  run console_out Info
        (lit "Generated headline (" ++ JsString.of_N (N.of_nat headlineWords)
         ++ lit " words): " ++ dq ++ headline ++ dq) in
  run console_out Info
        (lit "Generated article (" ++ JsString.of_N (N.of_nat articleWords)
         ++ lit " words)") in
  (* Basic validation for completeness *)
  if bool_decide (headline = lit "Untitled Thread")
     || bool_decide (article = lit "No content available")
  then console_out Warning (lit "Failed to generate complete content")
  else ret ().

Definition parseAntisemiticResponse (response : list N) : N * N :=
  match exec ratio_re response with
  | None => (0%N, 1%N)
  | Some m =>
      (JsString.parse_digits (default [] (group 1 m)),
       JsString.parse_digits (default [] (group 2 m)))
  end.

(** ** The sampler *)

(** Modelled from the spec: [randomSample] of utils/array is not among the
    sources. The spec has it return a random subset of the requested size,
    drawn without replacement, in no required order. Here the random
    choices are given ([picks]): each step takes the element at the next
    pick (modulo the number of elements left) out of the array, until [n]
    elements are taken or none is left. *)
Fixpoint randomSample {A} (picks : list nat) (arr : list A) (n : nat) : list A :=
  match n with
  | 0 => []
  | S n' =>
      let i := hd 0 picks `mod` length arr in
      match arr !! i with
      | Some x => x :: randomSample (tail picks) (delete i arr) n'
      | None => []
      end
  end.

(** Modelled from the spec: the number of elements [randomSample] takes
    out of [available] ones when it is asked for [size] of them. The spec
    speaks of sizes that are natural numbers; here a size that is
    negative or not a number takes nothing, and an infinite one takes
    everything. *)
Definition sample_size (size : jsnum) (available : nat) : nat :=
  match size with
  | JNum q => Z.to_nat (Qceiling q)
  | JPosInf => available
  | _ => 0
  end.

(** The ceiling of a rational that is not negative, as a length. *)
Definition ceil (q : Q) : nat := Z.to_nat (Qceiling q).

(** [arr.slice(i, j)]. *)
Definition slice {A} (i j : nat) (arr : list A) : list A := take (j - i) (drop i arr).

(** [path.dirname]: the path without its last component. *)
Fixpoint drop_component (rev_path : list N) : list N :=
  match rev_path with
  | [] => []
  | c :: p => if (c =? 47)%N then p else drop_component p
  end.

Definition dirname (path : list N) : list N := reverse (drop_component (reverse path)).

(** ** The generator *)

Section Generator.

Variable env : Env.
Variable this : ArticleGenerator.

(** [this.client.chat(request)] followed by
    [response.choices[0].message.content]. *)
Definition chat (request : ChatRequest) : M (list N) :=
  λ w,
    let w' := set_chat_log (chat_log w ++ [request]) w in
    match respond env (chat_log w) request with
    | Some text => (Ok text, w')
    | None => (Throw ChatError, w')
    end.

Definition Date_now : M Z :=
  λ w, (Ok (now env (clock_reads w)), set_clock_reads (S (clock_reads w)) w).

Definition randomSample_call {A} (arr : list A) (n : nat) : M (list A) :=
  λ w, (Ok (randomSample (entropy env (samples w)) arr n), set_samples (S (samples w)) w).

(** *** File system *)

Definition fs_step (op : FsOp) (ok : bool) (f : gmap (list N) FileContent)
    (w : World) : World :=
  set_fs_log (fs_log w ++ [(op, ok)]) (set_files f w).

Definition fs_mkdir (dir : list N) : M unit :=
  λ w,
    let op := Mkdir dir in
    match fs_fault env (fs_log w) op with
    | NoFault => (Ok (), fs_step op true (files w) w)
    | _ => (Throw (FsError op), fs_step op false (files w) w)
    end.

Definition fs_writeFile (path : list N) (data : FileContent) : M unit :=
  λ w,
    let op := WriteFile path data in
    match fs_fault env (fs_log w) op with
    | NoFault => (Ok (), fs_step op true (<[path := data]> (files w)) w)
    | Fails => (Throw (FsError op), fs_step op false (files w) w)
    | FailsTorn => (Throw (FsError op), fs_step op false (<[path := Corrupt]> (files w)) w)
    end.

Definition fs_readFile (path : list N) : M FileContent :=
  λ w,
    let op := ReadFile path in
    match fs_fault env (fs_log w) op, files w !! path with
    | NoFault, Some data => (Ok data, fs_step op true (files w) w)
    | _, _ => (Throw (FsError op), fs_step op false (files w) w)
    end.

(** [fs.rename] replaces the destination in one step, or changes nothing. *)
Definition fs_rename (src dst : list N) : M unit :=
  λ w,
    let op := Rename src dst in
    match fs_fault env (fs_log w) op, files w !! src with
    | NoFault, Some data =>
        (Ok (), fs_step op true (<[dst := data]> (delete src (files w))) w)
    | _, _ => (Throw (FsError op), fs_step op false (files w) w)
    end.

Definition fs_unlink (path : list N) : M unit :=
  λ w,
    let op := Unlink path in
    match fs_fault env (fs_log w) op, files w !! path with
    | NoFault, Some _ => (Ok (), fs_step op true (delete path (files w)) w)
    | _, _ => (Throw (FsError op), fs_step op false (files w) w)
    end.

Definition existsSync (path : list N) : M bool :=
  λ w, (Ok (bool_decide (is_Some (files w !! path))), w).

(** *** getPostsToAnalyze *)

Definition getPostsToAnalyze (thread : Thread) : M (list Post) :=
  match posts thread with
  | None | Some [] => ret []
  | Some thread_posts =>
      let totalPosts := length thread_posts in
      let postsToAnalyze :=
        Math_ceil
          (Binary64.div
             (Binary64.mul (JsNum.of_N (N.of_nat totalPosts))
                           (JsNum.of_Q (analysisPercentage (config this))))
             (JsNum.of_Q 100)) in
      randomSample_call thread_posts (sample_size postsToAnalyze totalPosts)
  end.

(** *** analyzeAntisemiticContent *)

(** One round of the loop body: the [try] block returns the updated pair
    [(totalAntisemiticCount, totalAnalyzed)]; nothing in it throws after
    the first of the two assignments, so the [catch] clause sees the pair
    unchanged. *)
Definition analyzeBatch (i : nat) (batchPosts : list (list N)) (totals : N * N)
    : M (N * N) :=
  let '(totalAntisemiticCount, totalAnalyzed) := totals in
  let batchSize := N.of_nat (length batchPosts) in
  try_catch
    (let* response := chat (antisemiticPrompt batchPosts) in
     let '(batchAntisemitic, batchAnalyzed) := parseAntisemiticResponse response in
     (* Validate batch results *)
     let* totalAnalyzed' :=
       if negb (batchAnalyzed =? batchSize)%N then
         run console_out Warning
               (lit "Batch size mismatch: expected " ++ JsString.of_N batchSize
                ++ lit ", got " ++ JsString.of_N batchAnalyzed) in
         (* Use the actual batch size for accuracy *)
         ret (totalAnalyzed + batchSize)%N
       else ret (totalAnalyzed + batchAnalyzed)%N in
     ret ((totalAntisemiticCount + batchAntisemitic)%N, totalAnalyzed'))
    (λ _,
       run console_out Error
             (lit "Error analyzing batch "
              ++ JsString.of_N (N.of_nat (i / ANTISEMITIC_BATCH_SIZE + 1)) ++ lit ":") in
       (* Continue with next batch instead of failing completely *)
       ret totals).

(** for (let i = ...; i < posts.length; i += ANTISEMITIC_BATCH_SIZE) *)
Fixpoint batchLoop (fuel : nat) (i : nat) (posts : list (list N)) (totals : N * N)
    : M (N * N) :=
  match fuel with
  | 0 => ret totals
  | S fuel' =>
      if i <? length posts then
        let batchPosts := slice i (i + ANTISEMITIC_BATCH_SIZE) posts in
        let* totals' := analyzeBatch i batchPosts totals in
        batchLoop fuel' (i + ANTISEMITIC_BATCH_SIZE) posts totals'
      else ret totals
  end.

(** Each round moves [i] forward by the batch size, so [length posts]
    rounds are enough. *)
Definition analyzeAntisemiticContent (posts : list (list N)) : M (N * N) :=
  batchLoop (length posts) 0 posts (0%N, 0%N).

(** *** analyzeThread *)

(** [.map(post => post.com).filter(content => Boolean(content))] *)
Definition validPostsOf (postsToAnalyze : list Post) : list (list N) :=
  omap (λ post, match com post with
                | Some (c :: s) => Some (c :: s)
                | _ => None
                end) postsToAnalyze.

Definition analyzeThread (thread : Thread) : M ArticleAnalysis :=
  let* postsToAnalyze := getPostsToAnalyze thread in
  let totalPosts := from_option length 0 (posts thread) in
  (* Filter out empty posts and prepare content *)
  let validPosts := validPostsOf postsToAnalyze in
  let postsContent := JsString.join (nl ++ nl) validPosts in
  (* Generate article and headline *)
  let* articleResponse := chat (articlePrompt (temperature this) postsContent) in
  let '(headline, article) := parseArticleResponse articleResponse in
  run parseArticleResponse_console headline article in
  (* Analyze for antisemitic content with the new batched approach *)
  let* (antisemiticCount, totalAnalyzed) := analyzeAntisemiticContent validPosts in
  (* Log analysis stats for monitoring *)
  run console_out Info (lit "Thread " ++ JsString.of_N (no thread) ++ lit " analysis stats:") in
  run console_out Info
        (lit "- Total valid posts: " ++ JsString.of_N (N.of_nat (length validPosts))) in
  run console_out Info
        (lit "- Posts analyzed for antisemitic content: " ++ JsString.of_N totalAnalyzed) in
  run console_out Info
        (lit "- Antisemitic comments found: " ++ JsString.of_N antisemiticCount) in
  let* generatedAt := Date_now in
  ret {| threadId := no thread;
         headline := headline;
         article := article;
         antisemiticStats :=
           {| analyzedComments := totalAnalyzed;
              antisemiticComments := antisemiticCount;
              percentage :=
                JsNum.mul (JsNum.div (JsNum.of_N antisemiticCount) (JsNum.of_N totalAnalyzed))
                          (JsNum.of_Q 100) |};
         metadata :=
           {| totalPosts := N.of_nat totalPosts;
              analyzedPosts := N.of_nat (length postsToAnalyze);
              generatedAt := generatedAt |} |}.

(** *** Checkpoint and output *)

Definition saveProgress (articles : list ArticleAnalysis) : M unit :=
  try_catch
    (run fs_mkdir (dirname (progressFile this)) in
     let* timestamp := Date_now in
     fs_writeFile (progressFile this)
       (ProgressDoc (json_analysis <$> articles) timestamp))
    (λ _, console_out Warning (lit "Failed to save progress:")).

(** [JSON.parse] throws on bytes that do not parse; [data.articles || []]
    reads the articles of whichever document the file holds. *)
Definition loadProgress : M (list ArticleAnalysis) :=
  try_catch
    (let* data := fs_readFile (progressFile this) in
     match data with
     | ProgressDoc articles _ => ret articles
     | OutputDoc batch _ => ret (articles batch)
     | Corrupt => throw ParseError
     end)
    (λ _, ret []).

Definition tempFile : list N := outputFile this ++ lit ".tmp".

Definition saveOutput (batch : ArticleBatch) : M unit :=
  try_catch
    (run fs_mkdir (dirname (outputFile this)) in
     (* Write to temp file first *)
     let* timestamp := Date_now in
     run fs_writeFile tempFile (OutputDoc (json_batch batch) timestamp) in
     (* Atomic rename *)
     run fs_rename tempFile (outputFile this) in
     console_out Info (lit "Articles saved to: " ++ outputFile this))
    (λ error,
       run console_out Error (lit "Failed to save articles:") in
       let* temp_exists := existsSync tempFile in
       run (if temp_exists : bool
            then try_catch (fs_unlink tempFile) (λ _, ret ())
            else ret ()) in
       throw error).

(** *** generateArticles *)

(** [articles], [totalAnalyzedPosts] and [totalAntisemiticPercentage]. *)
Record Totals : Type := {
  t_articles : list ArticleAnalysis;
  t_analyzedPosts : N;
  t_percentage : jsnum
}.

Definition has_analysis (a : ArticleAnalysis) : bool :=
  (0 <? analyzedComments (antisemiticStats a))%N.

(** onProgress(arg): the callback returns ([true]) or throws. *)
Definition call_onProgress (onProgress : list N → bool) (arg : list N) : M unit :=
  λ w,
    let w' := set_progress_calls (progress_calls w ++ [arg]) w in
    if onProgress arg then (Ok (), w') else (Throw CallbackError, w').

Definition failed_thread (thread : Thread) : M unit :=
  console_out Error (lit "Failed to analyze thread " ++ JsString.of_N (no thread) ++ lit ":").

(** [totalAntisemiticPercentage] after a record is counted in: the
    percentage is added when the record has analyzed comments. *)
Definition add_percentage (sum : jsnum) (a : ArticleAnalysis) : jsnum :=
  if has_analysis a then JsNum.add sum (percentage (antisemiticStats a)) else sum.

(** [articles.push(analysis)] and the two running totals. *)
Definition push (st : Totals) (analysis : ArticleAnalysis) : Totals :=
  {| t_articles := t_articles st ++ [analysis];
     t_analyzedPosts := (t_analyzedPosts st + analyzedPosts (metadata analysis))%N;
     t_percentage := add_percentage (t_percentage st) analysis |}.

(** The body of the loop over the remaining threads. Two statements of
    the [try] block can throw: the analysis, before anything is assigned,
    and the callback, after everything is; [saveProgress] catches its own
    failures. The handler is the same for both. *)
Fixpoint threadLoop (onProgress : option (list N → bool))
    (remainingThreads : list Thread) (st : Totals) : M Totals :=
  match remainingThreads with
  | [] => ret st
  | thread :: remainingThreads' =>
      let* outcome :=
        try_catch (let* analysis := analyzeThread thread in ret (Some analysis))
                  (λ _, run failed_thread thread in ret None) in
      match outcome with
      | None =>
          (* Continue with next thread instead of failing completely *)
          threadLoop onProgress remainingThreads' st
      | Some analysis =>
          let st' := push st analysis in
          (* Save progress after each successful analysis *)
          run saveProgress (t_articles st') in
          run match onProgress with
              | Some callback =>
                  try_catch (call_onProgress callback (JsString.of_N (no thread)))
                            (λ _, failed_thread thread)
              | None => ret ()
              end in
          threadLoop onProgress remainingThreads' st'
      end
  end.

Definition generateArticles (threads : list Thread)
    (onProgress : option (list N → bool)) : M ArticleBatch :=
  (* Load any existing progress *)
  let* existingArticles := loadProgress in
  let completedThreadIds : gset N := list_to_set (threadId <$> existingArticles) in
  (* Filter out already processed threads *)
  let remainingThreads := filter (λ t, no t ∉ completedThreadIds) threads in
  run (if 0 <? length existingArticles
       then console_out Info
              (lit "Resuming from previous progress: "
               ++ JsString.of_N (N.of_nat (length existingArticles))
               ++ lit " articles already processed")
       else ret ()) in
  let start :=
    {| t_articles := existingArticles;
       t_analyzedPosts :=
         foldl (λ sum a, sum + analyzedPosts (metadata a))%N 0%N existingArticles;
       t_percentage := foldl add_percentage JsNum.zero existingArticles |} in
  let* final := threadLoop onProgress remainingThreads start in
  let threadsWithAnalysis := length (filter (λ a, has_analysis a = true) (t_articles final)) in
  let averagePercentage :=
    if 0 <? threadsWithAnalysis
    then JsNum.div (t_percentage final) (JsNum.of_N (N.of_nat threadsWithAnalysis))
    else JsNum.zero in
  (* Clean up progress file after successful completion *)
  run try_catch (fs_unlink (progressFile this)) (λ _, ret ()) in
  let* generatedAt := Date_now in
  let batch :=
    {| articles := t_articles final;
       batchStats :=
         {| totalThreads := N.of_nat (length (t_articles final));
            totalAnalyzedPosts := t_analyzedPosts final;
            averageAntisemiticPercentage := averagePercentage;
            batchGeneratedAt := generatedAt |} |} in
  run saveOutput batch in
  ret batch.

End Generator.

(** * Specification-side definitions

    The notions the specification speaks of, which the theorems compare
    with the code above. *)

(** ceil(n/b) *)
Definition ceil_div (n b : nat) : nat :=
  ceil (inject_Z (Z.of_nat n) / inject_Z (Z.of_nat b))%Q.

(** The sequential partition of [posts] into chunks of [B]: chunk number
    [k] holds the posts from index [k * B] up to, not including,
    [k * B + B]. *)
Definition batches {A} (B : nat) (posts : list A) : list (list A) :=
  (λ k, slice (k * B) (k * B + B) posts) <$> seq 0 (ceil_div (length posts) B).

(** What the service answers to the successive requests [reqs], when
    [hist] has been sent before. *)
Fixpoint outcomes (env : Env) (hist reqs : list ChatRequest) : list (option (list N)) :=
  match reqs with
  | [] => []
  | r :: reqs' => respond env hist r :: outcomes env (hist ++ [r]) reqs'
  end.

(** The outcomes of the classification requests of the chunks [cs]. *)
Definition chunk_outcomes (env : Env) (hist : list ChatRequest)
    (cs : list (list (list N))) : list (list (list N) * option (list N)) :=
  zip cs (outcomes env hist (antisemiticPrompt <$> cs)).

Definition sumN (l : list N) : N := foldr N.add 0%N l.

(** What a chunk adds to the analyzed count: its actual size when its call
    succeeded, nothing when it failed. *)
Definition analyzed_of (co : list (list N) * option (list N)) : N :=
  match co.2 with
  | Some _ => N.of_nat (length co.1)
  | None => 0%N
  end.

(** What a chunk adds to the flagged count: the count the model reported
    when its call succeeded, nothing when it failed. *)
Definition flagged_of (co : list (list N) * option (list N)) : N :=
  match co.2 with
  | Some text => (parseAntisemiticResponse text).1
  | None => 0%N
  end.

(** The levels of what a chunk prints: a warning when the model's total
    differs from the size of the chunk, an error when the call failed. *)
Definition levels_of (co : list (list N) * option (list N)) : list Level :=
  match co.2 with
  | Some text =>
      if ((parseAntisemiticResponse text).2 =? N.of_nat (length co.1))%N
      then [] else [Warning]
  | None => [Error]
  end.

(** The loop over the chunks, as a fold: [ks] are the numbers of the
    chunks still to be processed. *)
Fixpoint run_batches (env : Env) (posts : list (list N)) (ks : list nat)
    (totals : N * N) : M (N * N) :=
  match ks with
  | [] => ret totals
  | k :: ks' =>
      let i := k * ANTISEMITIC_BATCH_SIZE in
      let* totals' :=
        analyzeBatch env i (slice i (i + ANTISEMITIC_BATCH_SIZE) posts) totals in
      run_batches env posts ks' totals'
  end.

(** The sample [getPostsToAnalyze] draws at its [n]-th use of the random
    generator. *)
Definition sample_of (env : Env) (this : ArticleGenerator) (thread : Thread)
    (n : nat) : list Post :=
  match posts thread with
  | None | Some [] => []
  | Some thread_posts =>
      randomSample (entropy env n) thread_posts
        (sample_size
           (Math_ceil
              (Binary64.div
                 (Binary64.mul (JsNum.of_N (N.of_nat (length thread_posts)))
                               (JsNum.of_Q (analysisPercentage (config this))))
                 (JsNum.of_Q 100)))
           (length thread_posts))
  end.

(** The summary request of a thread whose sample is [sample]. *)
Definition summary_request (this : ArticleGenerator) (sample : list Post) : ChatRequest :=
  articlePrompt (temperature this) (JsString.join (nl ++ nl) (validPostsOf sample)).

(** The record of a thread, from what the world answered: the sample, the
    text of the summary, the outcomes of the chunks and the time. *)
Definition thread_record (thread : Thread) (sample : list Post) (text : list N)
    (cos : list (list (list N) * option (list N))) (time : Z) : ArticleAnalysis :=
  let flagged := sumN (flagged_of <$> cos) in
  let analyzed := sumN (analyzed_of <$> cos) in
  {| threadId := no thread;
     headline := (parseArticleResponse text).1;
     article := (parseArticleResponse text).2;
     antisemiticStats :=
       {| analyzedComments := analyzed;
          antisemiticComments := flagged;
          percentage :=
            JsNum.mul (JsNum.div (JsNum.of_N flagged) (JsNum.of_N analyzed))
                      (JsNum.of_Q 100) |};
     metadata :=
       {| totalPosts := N.of_nat (from_option length 0 (posts thread));
          analyzedPosts := N.of_nat (length sample);
          generatedAt := time |} |}.

(** A service that answers the [n]-th request with the [n]-th element of
    a script, whatever the request. *)
Definition scripted (os : list (option (list N))) : Env :=
  {| respond := λ hist _, default None (os !! length hist);
     entropy := λ _, [];
     now := λ _, 0%Z;
     fs_fault := λ _ _, NoFault |}.

(** The world before anything happened, with the files [fs]. *)
Definition world_with (fs : gmap (list N) FileContent) : World :=
  {| files := fs; fs_log := []; chat_log := []; samples := 0; clock_reads := 0;
     console := []; progress_calls := [] |}.

(** What a computation that only talks to the service and to the console
    leaves as it was. *)
Definition chat_only (w w' : World) : Prop :=
  files w' = files w ∧ fs_log w' = fs_log w ∧ samples w' = samples w
  ∧ clock_reads w' = clock_reads w ∧ progress_calls w' = progress_calls w.

(** Chunk number [k] of [posts]. *)
Definition chunk_of (posts : list (list N)) (k : nat) : list (list N) :=
  slice (k * 20) (k * 20 + 20) posts.

(** The arithmetic mean of the percentages of the records that have
    analyzed comments, and 0 when there is none. *)
Definition mean_percentage (records : list ArticleAnalysis) : jsnum :=
  let counted := filter (λ a, (0 < analyzedComments (antisemiticStats a))%N) records in
  match counted with
  | [] => JsNum.zero
  | _ :: _ =>
      JsNum.div (foldl JsNum.add JsNum.zero ((λ a, percentage (antisemiticStats a)) <$> counted))
                (JsNum.of_N (N.of_nat (length counted)))
  end.

(** The running totals agree with the articles collected so far. *)
Definition totals_ok (st : Totals) : Prop :=
  t_percentage st = foldl add_percentage JsNum.zero (t_articles st)
  ∧ t_analyzedPosts st
    = foldl (λ sum a, sum + analyzedPosts (metadata a))%N 0%N (t_articles st).

(** The totals [generateArticles] starts its loop with. *)
Definition start_totals (existingArticles : list ArticleAnalysis) : Totals :=
  {| t_articles := existingArticles;
     t_analyzedPosts :=
       foldl (λ sum a, sum + analyzedPosts (metadata a))%N 0%N existingArticles;
     t_percentage := foldl add_percentage JsNum.zero existingArticles |}.

(** The threads [generateArticles] still analyzes when the checkpoint
    holds [existingArticles]. *)
Definition remaining_threads (existingArticles : list ArticleAnalysis)
    (threads : list Thread) : list Thread :=
  filter (λ t, no t ∉ (list_to_set (threadId <$> existingArticles) : gset N)) threads.

(** [averagePercentage] of [generateArticles]. *)
Definition average_of (final : Totals) : jsnum :=
  let threadsWithAnalysis :=
    length (filter (λ a, has_analysis a = true) (t_articles final)) in
  if 0 <? threadsWithAnalysis
  then JsNum.div (t_percentage final) (JsNum.of_N (N.of_nat threadsWithAnalysis))
  else JsNum.zero.

(** The batch [generateArticles] builds from the totals of its loop, at
    time [time]. *)
Definition batch_of (final : Totals) (time : Z) : ArticleBatch :=
  {| articles := t_articles final;
     batchStats :=
       {| totalThreads := N.of_nat (length (t_articles final));
          totalAnalyzedPosts := t_analyzedPosts final;
          averageAntisemiticPercentage := average_of final;
          batchGeneratedAt := time |} |}.

(** The result of [generateArticles] from the result of its output commit. *)
Definition after_commit (batch : ArticleBatch) (commit : Result unit * World)
    : Result ArticleBatch * World :=
  (match commit.1 with Ok _ => Ok batch | Throw e => Throw e end, commit.2).

(** * Examples: generators, services and disks *)

Definition example_generator : ArticleGenerator :=
  new_ArticleGenerator (lit "/data") None None.

(** A service that answers every request with [text], a generator of
    random numbers that always picks the first element, a clock that
    stands still and a disk without faults. *)
Definition stub_env (text : list N) : Env :=
  {| respond := λ _ _, Some text;
     entropy := λ _, [];
     now := λ _, 1000%Z;
     fs_fault := λ _ _, NoFault |}.

(** A disk on which nothing can be renamed or unlinked. *)
Definition stuck_disk : Env :=
  {| respond := λ _ _, Some (lit "HEADLINE: h" ++ nl ++ lit "ARTICLE: a 1/1");
     entropy := λ _, [];
     now := λ _, 1000%Z;
     fs_fault := λ _ op,
       match op with
       | Rename _ _ | Unlink _ => Fails
       | _ => NoFault
       end |}.

Definition empty_batch : ArticleBatch := batch_of (start_totals []) 0.

(** A deterministic stub: what the service, the random generator and the
    clock answer does not depend on what happened before. *)
Definition stateless (env : Env) : Prop :=
  (∀ hist hist' request, respond env hist request = respond env hist' request)
  ∧ (∀ n n', entropy env n = entropy env n')
  ∧ (∀ n n', now env n = now env n').

(** The record of a thread analyzed in a fresh world, if the analysis
    returns one. *)
Definition record_of (env : Env) (this : ArticleGenerator) (thread : Thread)
    : option ArticleAnalysis :=
  match (analyzeThread env this thread (world_with ∅)).1 with
  | Ok analysis => Some analysis
  | Throw _ => None
  end.




Definition answer : list N := lit "HEADLINE: h" ++ nl ++ lit "ARTICLE: a 1/1".

(** The batch a run returned, the empty batch when it threw. *)
Definition returned (r : Result ArticleBatch * World) : ArticleBatch :=
  match r.1 with
  | Ok batch => batch
  | Throw _ => empty_batch
  end.




(** ** What the responses hold *)

(** ASCII lower-casing. *)
Definition lower (c : N) : N :=
  if ((65 <=? c) && (c <=? 90))%N then (c + 32)%N else c.

(** [s] holds the text [label], in any letter case. *)
Definition has_label (label s : list N) : Prop :=
  ∃ pre mid post, s = pre ++ mid ++ post ∧ lower <$> mid = lower <$> label.

Definition all_digits (s : list N) : Prop := Forall (λ c, JsString.is_digit c = true) s.

(** [s] holds a digit, a slash and a digit in a row. *)
Definition has_ratio (s : list N) : Prop :=
  ∃ pre x y post,
    s = pre ++ [x; 47%N; y] ++ post
    ∧ JsString.is_digit x = true ∧ JsString.is_digit y = true.

Definition not_head_digit (s : list N) : Prop :=
  from_option (λ c, JsString.is_digit c = false) True (head s).

Definition not_last_digit (s : list N) : Prop :=
  from_option (λ c, JsString.is_digit c = false) True (last s).

(** [X/Y] is the first X/Y pattern of [s]: [X] and [Y] are whole runs of
    digits, and no digit, slash and digit in a row come before the slash
    between them. *)
Definition first_ratio (s pre X Y post : list N) : Prop :=
  s = pre ++ X ++ [47%N] ++ Y ++ post
  ∧ X ≠ [] ∧ Y ≠ [] ∧ all_digits X ∧ all_digits Y
  ∧ not_last_digit pre ∧ not_head_digit post
  ∧ ¬ has_ratio (pre ++ X).

(** A greedy run of characters satisfying [p] before the continuation [k]:
    the longest run is tried first, then the shorter ones. *)
Fixpoint greedy_run (p : N → bool) (k : cont) (s : list N) (cs : list (nat * list N))
    : option mstate :=
  match s with
  | c :: s' =>
      if p c then
        match greedy_run p k s' cs with
        | Some m => Some m
        | None => k (MState s cs)
        end
      else k (MState s cs)
  | [] => k (MState [] cs)
  end.

(** The part of [ratio_re] after its first group. *)
Definition ratio_tail : regex :=
  Seq (Chr (N.eqb 47)) (Group 2 (Plus true (Chr JsString.is_digit))).

(** A thread with [n] posts that all say hello. *)
Definition thread_of (id : N) (n : nat) : Thread :=
  {| no := id;
     posts := Some ((λ i, {| post_no := N.of_nat i; com := Some (lit "hello") |}) <$> seq 0 n) |}.

(** A disk on which nothing can be renamed. *)
Definition rename_fails : Env :=
  {| respond := λ _ _, Some answer;
     entropy := λ _, [];
     now := λ _, 1000%Z;
     fs_fault := λ _ op,
       match op with
       | Rename _ _ => Fails
       | _ => NoFault
       end |}.

(** A first run over two threads, the checkpoint it leaves after the first
    thread, and the run that resumes from it. *)
Definition two_threads : list Thread := [thread_of 1 10; thread_of 2 45].

Definition first_run : Result ArticleBatch * World :=
  generateArticles (stub_env answer) example_generator two_threads None (world_with ∅).

Definition stale_checkpoint : list ArticleAnalysis := take 1 (articles (returned first_run)).

Definition stale_world : World :=
  world_with {[ progressFile example_generator := ProgressDoc stale_checkpoint 0 ]}.

Definition second_run : Result ArticleBatch * World :=
  generateArticles (stub_env answer) example_generator two_threads None stale_world.

(** A run that finds a checkpoint and cannot rename its output. *)
Definition failed_run : Result ArticleBatch * World :=
  generateArticles rename_fails example_generator two_threads None stale_world.

(** * Further notions *)

(** A disk on which no operation fails. *)
Definition fault_free (env : Env) : Prop := ∀ log op, fs_fault env log op = NoFault.

(** [s] holds two asterisks in a row. *)
Definition has_double_star (s : list N) : Prop :=
  ∃ pre post, s = pre ++ 42%N :: 42%N :: post.

(** [s] neither starts nor ends with white space. *)
Definition trimmed (s : list N) : Prop :=
  from_option (λ c, JsString.is_space c = false) True (head s)
  ∧ from_option (λ c, JsString.is_space c = false) True (last s).




(** * GeoAnalyzer: country statistics across posts *)

Module Geo.

(** [Post] and [Thread] (types/interfaces): the fields the analyzer reads.
    The other fields that [processCountryStats] copies into the post it
    makes of the thread ([resto], [time], [name], [com]) are never read. *)
Module Post.
Record t : Type := {
  no : N;
  country : option (list N);
  country_name : option (list N);
  id : option (list N)
}.
End Post.

Module Thread.
Record t : Type := { no : N; posts : option (list Post.t) }.
End Thread.

Record CountryStats : Type := {
  code : list N;
  name : list N;
  postCount : N;
  uniquePosters : N;
  lastSeen : Z
}.

Record GeoMetadata : Type := { totalPostsAnalyzed : N; postsWithLocation : N }.

Record GeoAnalyzerResult : Type := {
  timestamp : Z;
  threadId : N;
  postId : N;
  totalUniqueCountries : N;
  mostCommonCountries : list CountryStats;
  mostUniqueCountries : list CountryStats;
  metadata : GeoMetadata
}.

(** Maximum number of countries to track in each category. *)
Definition MAX_COUNTRIES : nat := 6.

(** Computations of the analyzer: they read the clock ([n] calls of
    [Date.now] so far) and return, or throw a TypeError ([None]) when a
    property of [undefined] is read. *)
Definition G (A : Type) : Type := nat → option (A * nat).

Definition gret {A} (a : A) : G A := λ n, Some (a, n).

Definition gbind {A B} (m : G A) (f : A → G B) : G B :=
  λ n, match m n with
       | Some (a, n') => f a n'
       | None => None
       end.

Definition gthrow {A} : G A := λ _, None.

Notation "'let+' x ':=' m 'in' k" := (gbind m (λ x, k))
  (at level 10, x pattern, m at level 100, k at level 200).

Definition Date_now (env : Env) : G Z := λ n, Some (now env n, S n).

(** The truth value of an optional string: defined and not empty. *)
Definition truthy (s : option (list N)) : bool :=
  match s with
  | Some (_ :: _) => true
  | _ => false
  end.

(** [a || b] on strings. *)
Definition or_else (s : option (list N)) (d : list N) : list N :=
  match s with
  | Some (c :: s') => c :: s'
  | _ => d
  end.

(** [a || b] on numbers: 0 and [undefined] give [b]. *)
Definition num_or (a : option N) (b : N) : N :=
  match a with
  | Some n => if (n =? 0)%N then b else n
  | None => b
  end.

(** A [Map] from strings, as the list of its entries in the order in
    which the keys were first set. *)
Fixpoint map_get {V} (key : list N) (m : list (list N * V)) : option V :=
  match m with
  | [] => None
  | (k, v) :: m' => if bool_decide (k = key) then Some v else map_get key m'
  end.

Definition map_has {V} (key : list N) (m : list (list N * V)) : bool :=
  bool_decide (is_Some (map_get key m)).

Fixpoint map_set {V} (key : list N) (v : V) (m : list (list N * V)) : list (list N * V) :=
  match m with
  | [] => [(key, v)]
  | (k, v') :: m' =>
      if bool_decide (k = key) then (k, v) :: m' else (k, v') :: map_set key v m'
  end.

(** Update statistics for a country. *)
Definition updateCountryStats (env : Env)
    (countryStats : list (list N * CountryStats))
    (uniquePosters : gmap (list N) (gset (list N)))
    (countryCode countryName posterId : list N)
    : G (list (list N * CountryStats) * gmap (list N) (gset (list N))) :=
  (* Get or create country stats *)
  let+ countryStats :=
    if negb (map_has countryCode countryStats) then
      let+ lastSeen := Date_now env in
      gret (map_set countryCode
              {| code := countryCode; name := countryName; postCount := 0;
                 uniquePosters := 0; lastSeen := lastSeen |} countryStats)
    else gret countryStats in
  (* Get or create unique posters set *)
  let uniquePosters :=
    if negb (bool_decide (is_Some (uniquePosters !! countryCode)))
    then <[countryCode := ∅]> uniquePosters
    else uniquePosters in
  (* Update stats *)
  match map_get countryCode countryStats, uniquePosters !! countryCode with
  | Some stats, Some posters =>
      let+ lastSeen := Date_now env in
      let posters := posters ∪ {[posterId]} in
      gret (map_set countryCode
              {| code := code stats; name := name stats;
                 postCount := postCount stats + 1;
                 uniquePosters := N.of_nat (size posters);
                 lastSeen := lastSeen |} countryStats,
            <[countryCode := posters]> uniquePosters)
  | _, _ => gthrow
  end.

(** The variables of [processCountryStats]. *)
Record Acc : Type := {
  countryStats : list (list N * CountryStats);
  posters : gmap (list N) (gset (list N));
  totalPosts : N;
  located : N;
  firstPostWithLocation : option (N * N)
}.

Definition empty_acc : Acc :=
  {| countryStats := []; posters := ∅; totalPosts := 0; located := 0;
     firstPostWithLocation := None |}.

Definition anon : list N := lit "anon".

(** A post with country data is counted under its country. *)
Definition count_located (env : Env) (threadNo : N) (post : Post.t) (acc : Acc) : G Acc :=
  match Post.country post, Post.country_name post with
  | Some (c :: cs), Some (d :: ds) =>
      let+ (stats, sets) :=
        updateCountryStats env (countryStats acc) (posters acc) (c :: cs) (d :: ds)
          (or_else (Post.id post) anon) in
      gret {| countryStats := stats; posters := sets;
              totalPosts := totalPosts acc;
              located := (located acc + 1)%N;
              firstPostWithLocation :=
                match firstPostWithLocation acc with
                | Some first => Some first
                | None => Some (threadNo, Post.no post)
                end |}
  | _, _ => gret acc
  end.

Definition more_posts (k : N) (acc : Acc) : Acc :=
  {| countryStats := countryStats acc; posters := posters acc;
     totalPosts := (totalPosts acc + k)%N; located := located acc;
     firstPostWithLocation := firstPostWithLocation acc |}.

(** Process each post in the thread. *)
Fixpoint process_posts (env : Env) (threadNo : N) (posts : list Post.t) (acc : Acc) : G Acc :=
  match posts with
  | [] => gret acc
  | post :: posts' =>
      let+ acc := count_located env threadNo post (more_posts 1 acc) in
      process_posts env threadNo posts' acc
  end.

(** The post made of the thread, for the analysis of the opening post: its
    number is that of the thread, its country data that of the first post. *)
Definition opPost (thread : Thread.t) (posts : list Post.t) : Post.t :=
  {| Post.no := Thread.no thread;
     Post.country := head posts ≫= Post.country;
     Post.country_name := head posts ≫= Post.country_name;
     Post.id := head posts ≫= Post.id |}.

Definition process_thread (env : Env) (thread : Thread.t) (acc : Acc) : G Acc :=
  match Thread.posts thread with
  | None => gret acc
  | Some posts =>
      let op := opPost thread posts in
      (* Include OP post if it has country data *)
      let+ acc :=
        if truthy (Post.country op) && truthy (Post.country_name op)
        then count_located env (Thread.no thread) op (more_posts 1 acc)
        else gret acc in
      process_posts env (Thread.no thread) posts acc
  end.

Fixpoint process_threads (env : Env) (threads : list Thread.t) (acc : Acc) : G Acc :=
  match threads with
  | [] => gret acc
  | thread :: threads' =>
      let+ acc := process_thread env thread acc in
      process_threads env threads' acc
  end.

(** Process posts to gather country statistics. *)
Definition processCountryStats (env : Env) (threads : list Thread.t) : G Acc :=
  process_threads env threads empty_acc.

(** [arr.sort((a, b) => key(b) - key(a))]: the sort is stable, so the
    result is in descending order of the key and elements with the same
    key keep their order. *)
Fixpoint insert_desc (key : CountryStats → N) (x : CountryStats) (l : list CountryStats)
    : list CountryStats :=
  match l with
  | [] => [x]
  | y :: l' => if (key x <? key y)%N then y :: insert_desc key x l' else x :: l
  end.

Definition sort_desc (key : CountryStats → N) (l : list CountryStats) : list CountryStats :=
  foldr (insert_desc key) [] l.

(** Analyze threads for country statistics. *)
Definition analyze (env : Env) (threads : list Thread.t) : G (list GeoAnalyzerResult) :=
  (* Process all posts to gather statistics *)
  let+ acc := processCountryStats env threads in
  let values := snd <$> countryStats acc in
  (* Convert stats to array and sort for most common countries *)
  let mostCommonCountries := take MAX_COUNTRIES (sort_desc postCount values) in
  (* Sort for countries with most unique posters *)
  let mostUniqueCountries := take MAX_COUNTRIES (sort_desc uniquePosters values) in
  let+ timestamp := Date_now env in
  (* Create single result *)
  gret [ {| timestamp := timestamp;
            threadId :=
              num_or (fst <$> firstPostWithLocation acc)
                (num_or (Thread.no <$> head threads) 0);
            postId :=
              num_or (snd <$> firstPostWithLocation acc)
                (num_or (head threads ≫= (λ t, Thread.posts t ≫= (λ ps, Post.no <$> head ps))) 0);
            totalUniqueCountries := N.of_nat (length (countryStats acc));
            mostCommonCountries := mostCommonCountries;
            mostUniqueCountries := mostUniqueCountries;
            metadata :=
              {| totalPostsAnalyzed := totalPosts acc;
                 postsWithLocation := located acc |} |} ].

End Geo.

(** ** What the country statistics hold *)

(** The posts counted so far over all the countries. *)
Definition counted (m : list (list N * Geo.CountryStats)) : N :=
  sumN ((λ e, Geo.postCount e.2) <$> m).

(** The statistics and the sets of posters agree: the codes are pairwise
    distinct, every country is filed under its code, has a set of posters
    whose size it records, with at least one poster and no more posters
    than posts, and only the countries of the statistics have a set. *)
Definition geo_inv (m : list (list N * Geo.CountryStats))
    (sets : gmap (list N) (gset (list N))) : Prop :=
  NoDup m.*1
  ∧ (∀ k st, (k, st) ∈ m →
       Geo.code st = k
       ∧ ∃ S, sets !! k = Some S
              ∧ Geo.uniquePosters st = N.of_nat (size S)
              ∧ 1 ≤ size S
              ∧ (N.of_nat (size S) ≤ Geo.postCount st)%N)
  ∧ (∀ k, is_Some (sets !! k) → k ∈ m.*1).

(** A post, or the first post of a thread, has country data. *)
Definition has_location (post : Geo.Post.t) : bool :=
  Geo.truthy (Geo.Post.country post) && Geo.truthy (Geo.Post.country_name post).

(** What a thread adds to the number of posts: its posts, and one more
    for its opening post when the first post has country data. *)
Definition posts_counted (thread : Geo.Thread.t) : nat :=
  match Geo.Thread.posts thread with
  | None => 0
  | Some posts =>
      length posts
      + match head posts with
        | Some first => if has_location first then 1 else 0
        | None => 0
        end
  end.

(** What a thread adds to the number of posts with a location. *)
Definition located_counted (thread : Geo.Thread.t) : nat :=
  match Geo.Thread.posts thread with
  | None => 0
  | Some posts =>
      length (filter (λ p, has_location p = true) posts)
      + match head posts with
        | Some first => if has_location first then 1 else 0
        | None => 0
        end
  end.

(** Descending order of a key. *)
Definition descending (key : Geo.CountryStats → N) (l : list Geo.CountryStats) : Prop :=
  ∀ i j x y, i < j → l !! i = Some x → l !! j = Some y → (key y ≤ key x)%N.

(** The first of two optional values that is defined. *)
Definition or_first {A} (a b : option A) : option A :=
  match a with
  | Some _ => a
  | None => b
  end.

(** The first post with country data among [posts], with the number of
    its thread. *)
Definition first_in_posts (threadNo : N) (posts : list Geo.Post.t) : option (N * N) :=
  (λ p, (threadNo, Geo.Post.no p)) <$> head (filter (λ p, has_location p = true) posts).

(** The first post with country data of a thread: the opening post, under
    the number of the thread, when the first post has country data. *)
Definition first_in_thread (thread : Geo.Thread.t) : option (N * N) :=
  match Geo.Thread.posts thread with
  | None => None
  | Some posts =>
      match head posts with
      | Some first =>
          if has_location first
          then Some (Geo.Thread.no thread, Geo.Thread.no thread)
          else first_in_posts (Geo.Thread.no thread) posts
      | None => None
      end
  end.

Definition first_located (threads : list Geo.Thread.t) : option (N * N) :=
  head (omap first_in_thread threads).

(** ** The posts behind the statistics *)

(** The country code, the country name and the poster of a post, as
    [processCountryStats] hands them to [updateCountryStats]. *)
Definition country_of (post : Geo.Post.t) : list N := default [] (Geo.Post.country post).

Definition name_of (post : Geo.Post.t) : list N := default [] (Geo.Post.country_name post).

Definition poster_of (post : Geo.Post.t) : list N := Geo.or_else (Geo.Post.id post) Geo.anon.

(** The posts of a thread that are counted under a country, in the order
    in which they are counted: the post made of the thread when the first
    post has country data, then the posts with country data. *)
Definition located_posts (thread : Geo.Thread.t) : list Geo.Post.t :=
  match Geo.Thread.posts thread with
  | None => []
  | Some posts =>
      (if has_location (Geo.opPost thread posts) then [Geo.opPost thread posts] else [])
      ++ filter (λ p, has_location p = true) posts
  end.

Definition from_country (k : list N) (L : list Geo.Post.t) : list Geo.Post.t :=
  filter (λ p, country_of p = k) L.

(** The statistics count the posts [L]: every country of a post has an
    entry, and an entry holds the number of posts of its country, the
    name given by the first of them and, in the set of the country, their
    posters. *)
Definition tally (m : list (list N * Geo.CountryStats))
    (sets : gmap (list N) (gset (list N))) (L : list Geo.Post.t) : Prop :=
  (∀ p, p ∈ L → country_of p ∈ m.*1)
  ∧ ∀ k st, Geo.map_get k m = Some st →
      Geo.postCount st = N.of_nat (length (from_country k L))
      ∧ Geo.name st = from_option name_of [] (head (from_country k L))
      ∧ sets !! k = Some (list_to_set (poster_of <$> from_country k L)).

(** ** A run with a callback *)

(** A run that finds a checkpoint and reports its progress to a callback
    that returns. *)
Definition notified_run : Result ArticleBatch * World :=
  generateArticles (stub_env answer) example_generator two_threads (Some (λ _, true))
    stale_world.

(** ** The size of the sample *)

(** The number of posts [getPostsToAnalyze] asks the sampler for, with
    [P] posts and the percentage [pct]. *)
Definition requested_size (pct : Q) (P : nat) : nat :=
  sample_size
    (Math_ceil
       (Binary64.div
          (Binary64.mul (JsNum.of_N (N.of_nat P)) (JsNum.of_Q pct))
          (JsNum.of_Q 100)))
    P.

(** The value of a number of the machine. *)
Definition of_float (x : float) : jsnum :=
  match Prim2SF x with
  | S754_zero _ => JsNum.zero
  | S754_finite s m e =>
      JsNum.of_Q ((if s then -1 else 1) * inject_Z (Z.pos m) * 2 ^ e)%Q
  | S754_infinity s => if s then JNegInf else JPosInf
  | S754_nan => JNaN
  end.

Definition rational_of (x : float) : Q :=
  match of_float x with
  | JNum q => q
  | _ => 0%Q
  end.

(** [r] is a rounding of [v]: it is as near as half a unit in the last
    place, it does not cross an integer below 2^53, and it is [v] when [v]
    is such an integer. *)
Definition rounds_to (v r : Q) : Prop :=
  (0 <= r)%Q
  ∧ (∀ E : Z, (-1021 ≤ E)%Z → (v < 2 ^ E)%Q →
       (v - 2 ^ (E - 54) <= r <= v + 2 ^ (E - 54))%Q)
  ∧ (∀ a : Z, (a < 2 ^ 53)%Z → (v <= inject_Z a)%Q → (r <= inject_Z a)%Q)
  ∧ (∀ a : Z, (v == inject_Z a)%Q → (r == inject_Z a)%Q).

(** ** What JSON keeps *)

(** A number that is read back from JSON as it was written. *)
Definition survives_json (a : jsnum) : Prop :=
  match a with
  | JNum _ | JNull => True
  | _ => False
  end.

(** A list of threads whose first thread has no post, its run and the
    checkpoint the run wrote after the first thread. *)
Definition empty_first : list Thread := [thread_of 2 0; thread_of 1 10].

Definition empty_first_run : Result ArticleBatch * World :=
  generateArticles (stub_env answer) example_generator empty_first None (world_with ∅).



(** ** Resumed runs *)
















(** ** Percentages that are not integers *)

(** A generator that analyzes 1.12 per cent of the posts: the
    percentage is the binary64 number that the literal stands for,
    1261007895663739 / 2^50, a little more than 1.12. *)
Definition fine_generator : ArticleGenerator :=
  new_ArticleGenerator (lit "/data")
    (Some {| analysisPercentage := 1261007895663739 # 1125899906842624 |}) None.

(** A generator that analyzes a third of the posts: the percentage is
    100/3 in binary64, 4691249611844267 / 2^47, which is written
    33.333333333333336. *)
Definition third_generator : ArticleGenerator :=
  new_ArticleGenerator (lit "/data")
    (Some {| analysisPercentage := 4691249611844267 # 140737488355328 |}) None.

(** ** Numbers of the machine *)

Set Warnings "-inexact-float".

(** The two percentages above, as the machine has them. *)
Definition machine_fine : float := 1.12.

Definition machine_third : float := 100 / 3.

(** Numbers to compare the rounding of [Binary64] with that of the
    machine: small and large ones, subnormal ones, neighbours of powers
    of two and halfway cases. *)
Definition float_samples : list float :=
  [0; 1; 3; 100; 625; 0.1; 1.12; 2.5; 1.0000000000000002; 4503599627370497;
   9007199254740992; 1e23; 1e308; 2.2250738585072014e-308; 5e-324; -2.5]%float.

(** Percentages to compare the size of the sample with the size that the
    machine computes. *)
Definition percentage_samples : list float :=
  [100; 30; 50; 1; 7; 12.5; 33; 1.12; 0.1; 0.07; 2.5; 33.33; 66.67; 99.99; 0.01]%float.

Set Warnings "inexact-float".

Definition same_number (a b : jsnum) : bool :=
  match a, b with
  | JNum p, JNum q => Qeq_bool p q
  | JNaN, JNaN | JPosInf, JPosInf | JNegInf, JNegInf | JNull, JNull => true
  | _, _ => false
  end.

(** [Math.ceil((P * pct) / 100)], computed by the machine. *)
Definition machine_size (pct : float) (P : nat) : nat :=
  sample_size
    (Math_ceil (of_float (PrimFloat.of_uint63 (Uint63.of_Z (Z.of_nat P)) * pct / 100)%float))
    P.

(** * Properties *)

(** ** The monad *)

Ltac unfold_m :=
  unfold bind, ret, throw, try_catch, console_out, chat, Date_now,
    randomSample_call, existsSync, call_onProgress in *.

(** ** The sampler *)

Section Sampler.

Context {A : Type}.
Implicit Types (arr : list A) (picks : list nat).

Lemma randomSample_length picks arr n :
  length (randomSample picks arr n) = n `min` length arr.
Proof.
  revert picks arr; induction n as [|n IH]; intros picks arr;
    cbn [randomSample]; [done|].
  destruct arr as [|a arr'] eqn:Harr.
  - rewrite lookup_nil. simpl. lia.
  - rewrite <- Harr.
    assert (Hlt : hd 0 picks `mod` length arr < length arr).
    { apply Nat.mod_upper_bound. subst arr; simpl; lia. }
    destruct (lookup_lt_is_Some_2 arr _ Hlt) as [x Hx].
    assert (Hpos : 0 < length arr) by (subst arr; simpl; lia).
    rewrite Hx; cbn [length]. rewrite IH, length_delete by eauto.
    clear Hlt Hx. lia.
Qed.

Lemma randomSample_submseteq picks arr n : randomSample picks arr n ⊆+ arr.
Proof.
  revert picks arr; induction n as [|n IH]; intros picks arr; simpl.
  - apply submseteq_nil_l.
  - destruct (arr !! _) as [x|] eqn:Hx; [|apply submseteq_nil_l].
    etrans; [apply submseteq_skip, IH|].
    apply Permutation_submseteq. symmetry. by apply delete_Permutation.
Qed.

End Sampler.

Lemma submseteq_NoDup {A} (l k : list A) : l ⊆+ k → NoDup k → NoDup l.
Proof.
  intros [k' Hk]%submseteq_Permutation Hnd.
  rewrite Hk in Hnd. by apply NoDup_app in Hnd as [? _].
Qed.

(** ** Rounding to binary64 *)

Lemma nearest_even_error (m : Q) :
  (m - (1 # 2) <= inject_Z (Binary64.nearest_even m) <= m + (1 # 2))%Q.
Proof.
  unfold Binary64.nearest_even.
  pose proof (Qfloor_le m) as Hlo. pose proof (Qlt_floor m) as Hhi.
  rewrite inject_Z_plus in Hhi. change (inject_Z 1) with 1%Q in Hhi.
  destruct (Qcompare_spec (m - inject_Z (Qfloor m)) (1 # 2)) as [Heq|Hlt|Hgt].
  - destruct (Z.even (Qfloor m));
      [|rewrite inject_Z_plus; change (inject_Z 1) with 1%Q]; lra.
  - lra.
  - rewrite inject_Z_plus. change (inject_Z 1) with 1%Q. lra.
Qed.

Lemma nearest_even_Z (m : Q) (z : Z) : (m == inject_Z z)%Q → Binary64.nearest_even m = z.
Proof.
  intros Hm. unfold Binary64.nearest_even.
  assert (Hf : Qfloor m = z) by (rewrite (Qfloor_comp _ _ Hm); apply Qfloor_Z).
  rewrite Hf.
  destruct (Qcompare_spec (m - inject_Z z) (1 # 2)) as [Heq|Hlt|Hgt]; [lra|done|lra].
Qed.

Lemma nearest_even_le (m : Q) (z : Z) : (m <= inject_Z z)%Q → (Binary64.nearest_even m <= z)%Z.
Proof.
  intros Hm. unfold Binary64.nearest_even.
  pose proof (Qfloor_le m) as Hlo. pose proof (Qlt_floor m) as Hhi.
  assert (Hfz : (Qfloor m <= z)%Z).
  { rewrite <- (Qfloor_Z z). by apply Qfloor_resp_le. }
  destruct (Qcompare_spec (m - inject_Z (Qfloor m)) (1 # 2)) as [Heq|Hlt|Hgt].
  - destruct (Z.even (Qfloor m)); [done|].
    destruct (Z.eq_dec (Qfloor m) z) as [Hz|Hne]; [exfalso; rewrite Hz in *; lra|lia].
  - done.
  - destruct (Z.eq_dec (Qfloor m) z) as [Hz|Hne]; [exfalso; rewrite Hz in *; lra|lia].
Qed.

Lemma pow2_pos (e : Z) : (0 < 2 ^ e)%Q.
Proof. by apply Qpower_0_lt. Qed.

Lemma pow2_Z (e : Z) : (0 <= e)%Z → (2 ^ e == inject_Z (2 ^ e))%Q.
Proof. intros He. by rewrite Zpower_Qpower. Qed.

Lemma pow2_plus (a b : Z) : (2 ^ (a + b) == 2 ^ a * 2 ^ b)%Q.
Proof. by apply Qpower_plus. Qed.

Lemma pow2_minus (a b : Z) : (2 ^ (a - b) == 2 ^ a / 2 ^ b)%Q.
Proof. by apply Qpower_minus. Qed.

(** The Binary64.exponent of a positive number is no greater than its logarithm. *)
Lemma exponent_le (q : Q) : (0 < q)%Q → (2 ^ Binary64.exponent q <= q)%Q.
Proof.
  intros Hq. unfold Binary64.exponent.
  destruct (Qle_bool (2 ^ (Z.log2 (Qnum q) - Z.log2 (Z.pos (Qden q)))) q) eqn:Hle;
    [by apply Qle_bool_iff|].
  destruct q as [n d]. cbn [Qnum Qden] in *.
  assert (Hn : (0 < n)%Z) by (unfold Qlt in Hq; cbn in Hq; lia).
  pose proof (Z.log2_spec n Hn) as [Hn1 _].
  pose proof (Z.log2_spec (Z.pos d) (Pos2Z.is_pos d)) as [_ Hd2].
  pose proof (Z.log2_nonneg n). pose proof (Z.log2_nonneg (Z.pos d)).
  replace (Z.log2 n - Z.log2 (Z.pos d) - 1)%Z
    with (Z.log2 n - Z.succ (Z.log2 (Z.pos d)))%Z by lia.
  rewrite pow2_minus, !pow2_Z by lia.
  apply Qle_shift_div_r.
  - change 0%Q with (inject_Z 0). rewrite <- Zlt_Qlt. lia.
  - set (A := (2 ^ Z.log2 n)%Z) in *. set (B := (2 ^ Z.succ (Z.log2 (Z.pos d)))%Z) in *.
    unfold Qle, Qmult, inject_Z. cbn [Qnum Qden]. rewrite Pos.mul_1_r, Z.mul_1_r.
    assert (0 < A)%Z by (subst A; apply Z.pow_pos_nonneg; lia).
    nia.
Qed.

Lemma exponent_lt (q : Q) (E : Z) : (0 < q)%Q → (q < 2 ^ E)%Q → (Binary64.exponent q < E)%Z.
Proof.
  intros Hq HE. pose proof (exponent_le q Hq) as Hle.
  apply (Qpower_lt_compat_l_inv 2); [|done].
  eapply Qle_lt_trans; eauto.
Qed.

Lemma ulp_exponent_le (q : Q) (E : Z) :
  (0 < q)%Q → (q < 2 ^ E)%Q → (-1021 <= E)%Z → (Binary64.ulp_exponent q <= E - 53)%Z.
Proof.
  intros Hq HE Hmin. pose proof (exponent_lt q E Hq HE). unfold Binary64.ulp_exponent. lia.
Qed.

(** Rounding moves a number by at most half a unit in the last place. *)
Lemma round_pos_error (q : Q) (E : Z) :
  (0 < q)%Q → (q < 2 ^ E)%Q → (-1021 <= E)%Z →
  (q - 2 ^ (E - 54) <= Binary64.round_pos q <= q + 2 ^ (E - 54))%Q.
Proof.
  intros Hq HE Hmin. pose proof (ulp_exponent_le q E Hq HE Hmin) as Hc.
  unfold Binary64.round_pos. set (c := Binary64.ulp_exponent q) in *.
  pose proof (nearest_even_error (q / 2 ^ c)) as Herr.
  pose proof (pow2_pos c) as Hpos.
  set (r := inject_Z (Binary64.nearest_even (q / 2 ^ c))) in *.
  assert (Hhalf : (2 ^ c * (1 # 2) <= 2 ^ (E - 54))%Q).
  { assert (H2 : (2 ^ c * (1 # 2) == 2 ^ (c - 1))%Q).
    { rewrite pow2_minus. change (2 ^ 1)%Q with 2%Q. field. }
    rewrite H2. apply Qpower_le_compat_l; [lia|done]. }
  assert (Hq' : (q == q / 2 ^ c * 2 ^ c)%Q) by (field; lra).
  set (m := (q / 2 ^ c)%Q) in *.
  assert (H1 : ((m - (1 # 2)) * 2 ^ c <= r * 2 ^ c)%Q) by (apply Qmult_le_compat_r; lra).
  assert (H2 : (r * 2 ^ c <= (m + (1 # 2)) * 2 ^ c)%Q) by (apply Qmult_le_compat_r; lra).
  split; lra.
Qed.

(** An integer below 2^53 is a binary64 number. *)
Lemma round_pos_Z (q : Q) (a : Z) :
  (q == inject_Z a)%Q → (0 < a < 2 ^ 53)%Z → (Binary64.round_pos q == inject_Z a)%Q.
Proof.
  intros Hqa Ha.
  assert (Hq : (0 < q)%Q) by (rewrite Hqa; change 0%Q with (inject_Z 0); rewrite <- Zlt_Qlt; lia).
  assert (HE : (q < 2 ^ 53)%Q).
  { rewrite Hqa, pow2_Z by lia. rewrite <- Zlt_Qlt. lia. }
  pose proof (ulp_exponent_le q 53 Hq HE ltac:(lia)) as Hc.
  unfold Binary64.round_pos. set (c := Binary64.ulp_exponent q) in *.
  assert (Hm : (q / 2 ^ c == inject_Z (a * 2 ^ (- c)))%Q).
  { rewrite inject_Z_mult, <- pow2_Z by lia. rewrite Qpower_opp, Hqa.
    pose proof (pow2_pos c). field. lra. }
  rewrite (nearest_even_Z _ _ Hm), inject_Z_mult, <- pow2_Z by lia.
  rewrite Qpower_opp. pose proof (pow2_pos c). field. lra.
Qed.

(** Rounding does not cross an integer below 2^53. *)
Lemma round_pos_le_Z (q : Q) (a : Z) :
  (0 < q)%Q → (q <= inject_Z a)%Q → (a < 2 ^ 53)%Z → (Binary64.round_pos q <= inject_Z a)%Q.
Proof.
  intros Hq Hqa Ha.
  assert (HE : (q < 2 ^ 53)%Q).
  { eapply Qle_lt_trans; [exact Hqa|]. rewrite pow2_Z by lia. rewrite <- Zlt_Qlt. lia. }
  pose proof (ulp_exponent_le q 53 Hq HE ltac:(lia)) as Hc.
  unfold Binary64.round_pos. set (c := Binary64.ulp_exponent q) in *.
  pose proof (pow2_pos c) as Hpos.
  assert (Hm : (q / 2 ^ c <= inject_Z (a * 2 ^ (- c)))%Q).
  { rewrite inject_Z_mult, <- pow2_Z by lia. rewrite Qpower_opp.
    apply Qle_shift_div_r; [done|].
    assert (Heq : (inject_Z a * / 2 ^ c * 2 ^ c == inject_Z a)%Q) by (field; lra).
    by rewrite Heq. }
  apply nearest_even_le in Hm. rewrite Zle_Qle in Hm.
  rewrite inject_Z_mult, <- pow2_Z in Hm by lia. rewrite Qpower_opp in Hm.
  assert (Hr : (inject_Z (Binary64.nearest_even (q / 2 ^ c)) * 2 ^ c
                <= inject_Z a * / 2 ^ c * 2 ^ c)%Q) by (apply Qmult_le_compat_r; lra).
  assert (Heq : (inject_Z a * / 2 ^ c * 2 ^ c == inject_Z a)%Q) by (field; lra).
  by rewrite Heq in Hr.
Qed.

Lemma round_pos_nonneg (q : Q) : (0 < q)%Q → (0 <= Binary64.round_pos q)%Q.
Proof.
  intros Hq. unfold Binary64.round_pos. set (c := Binary64.ulp_exponent q).
  pose proof (pow2_pos c) as Hpos.
  pose proof (nearest_even_error (q / 2 ^ c)) as [Hlo _].
  assert (Hm : (0 < q / 2 ^ c)%Q) by (apply Qlt_shift_div_l; lra).
  assert (Hz : (0 <= Binary64.nearest_even (q / 2 ^ c))%Z).
  { destruct (Z_lt_le_dec (Binary64.nearest_even (q / 2 ^ c)) 0) as [Hneg|]; [|done].
    assert (H1 : (Binary64.nearest_even (q / 2 ^ c) <= -1)%Z) by lia.
    rewrite Zle_Qle in H1. change (inject_Z (-1)) with (-1)%Q in H1. lra. }
  rewrite Zle_Qle in Hz. change (inject_Z 0) with 0%Q in Hz.
  apply Qmult_le_0_compat; lra.
Qed.

Lemma pow2_53_1024 : (2 ^ 53 + 1 < 2 ^ 1024)%Q.
Proof.
  assert (H1 : (2 ^ 54 == 2 ^ 53 * 2)%Q) by (by rewrite (pow2_plus 53 1)).
  assert (H2 : (1 <= 2 ^ 53)%Q) by (apply Qpower_1_le; [done|lia]).
  assert (H3 : (2 ^ 54 < 2 ^ 1024)%Q) by (apply Qpower_lt_compat_l; [lia|done]).
  lra.
Qed.

Lemma rounds_to_comp (v v' r r' : Q) :
  (v == v')%Q → (r == r')%Q → rounds_to v r → rounds_to v' r'.
Proof.
  intros Hv Hr (H0 & Herr & Hle & Hz). split_and!.
  - by rewrite <- Hr.
  - intros E HE Hlt. rewrite <- Hv, <- Hr. apply Herr; [done|by rewrite Hv].
  - intros a Ha Hva. rewrite <- Hr. apply Hle; [done|by rewrite Hv].
  - intros a Hva. rewrite <- Hr. apply Hz. by rewrite Hv.
Qed.

(** What rounding gives for a number that is not negative and below 2^53. *)
Lemma round_spec (q : Q) :
  (0 <= q)%Q → (q < 2 ^ 53)%Q → ∃ r, Binary64.round q = JNum r ∧ rounds_to q r.
Proof.
  intros H0 H53. unfold Binary64.round.
  destruct (Qcompare_spec q 0) as [Heq|Hlt|Hgt]; [|lra|].
  - exists (Qred 0). split; [done|]. split_and!.
    + by rewrite Qred_correct.
    + intros E HE Hlt. pose proof (pow2_pos (E - 54)). rewrite Qred_correct. lra.
    + intros a Ha Hqa. rewrite Qred_correct. lra.
    + intros a Hqa. rewrite Qred_correct, <- Hqa. by symmetry.
  - pose proof (round_pos_error q 53 Hgt H53 ltac:(lia)) as Herr.
    change (2 ^ (53 - 54))%Q with (1 # 2)%Q in Herr.
    pose proof pow2_53_1024 as Hbig.
    destruct (Qle_bool (2 ^ 1024) (Binary64.round_pos q)) eqn:Hover.
    { apply Qle_bool_iff in Hover. lra. }
    exists (Qred (Binary64.round_pos q)). split; [done|].
    apply (rounds_to_comp q q (Binary64.round_pos q)); [done|by rewrite Qred_correct|].
    split_and!.
    + by apply round_pos_nonneg.
    + intros E HE Hlt. by apply round_pos_error.
    + intros a Ha Hqa. by apply round_pos_le_Z.
    + intros a Hqa. apply round_pos_Z; [done|].
      rewrite Hqa in Hgt, H53. rewrite pow2_Z in H53 by lia.
      change 0%Q with (inject_Z 0) in Hgt. rewrite <- Zlt_Qlt in Hgt, H53. lia.
Qed.

(** The size asked for, from the two roundings. *)
Lemma requested_size_spec (pct : Q) (P : nat) :
  (0 <= pct)%Q → (pct <= 100)%Q → (Z.of_nat P < 2 ^ 32)%Z →
  ∃ r1 r2 : Q,
    requested_size pct P = Z.to_nat (Qceiling r2)
    ∧ rounds_to (inject_Z (Z.of_nat P) * pct) r1
    ∧ rounds_to (r1 / 100) r2
    ∧ (r1 <= inject_Z (100 * Z.of_nat P))%Q
    ∧ (r2 <= inject_Z (Z.of_nat P))%Q.
Proof.
  intros Hpos Hle HP.
  assert (HP0 : (0 <= inject_Z (Z.of_nat P))%Q)
    by (change 0%Q with (inject_Z 0); rewrite <- Zle_Qle; lia).
  assert (Hv1 : (inject_Z (Z.of_nat P) * pct <= inject_Z (100 * Z.of_nat P))%Q).
  { rewrite inject_Z_mult. change (inject_Z 100) with 100%Q.
    nra. }
  assert (H53 : (inject_Z (100 * Z.of_nat P) < 2 ^ 53)%Q).
  { rewrite pow2_Z by lia. rewrite <- Zlt_Qlt. lia. }
  unfold requested_size, Binary64.mul, Binary64.div, JsNum.mul, JsNum.of_N, JsNum.of_Q.
  cbn [Binary64.of_exact JsNum.num]. rewrite nat_N_Z.
  set (q1 := Qred (Qred (inject_Z (Z.of_nat P)) * Qred pct)).
  assert (Hq1 : (q1 == inject_Z (Z.of_nat P) * pct)%Q)
    by (subst q1; by rewrite !Qred_correct).
  destruct (round_spec q1) as (r1 & -> & Hr1).
  { rewrite Hq1. by apply Qmult_le_0_compat. }
  { rewrite Hq1. lra. }
  apply (rounds_to_comp _ _ r1 r1 Hq1 (Qeq_refl _)) in Hr1.
  assert (Hr1le : (r1 <= inject_Z (100 * Z.of_nat P))%Q).
  { destruct Hr1 as (_ & _ & Hcross & _). apply Hcross; [|done].
    rewrite pow2_Z, <- Zlt_Qlt in H53 by lia. done. }
  unfold JsNum.div. cbn [JsNum.num].
  change (Qeq_bool (Qred 100) 0) with false. cbn [Binary64.of_exact JsNum.of_Q].
  unfold JsNum.of_Q.
  set (q2 := Qred (r1 / Qred 100)).
  assert (Hq2 : (q2 == r1 / 100)%Q)
    by (subst q2; rewrite Qred_correct; apply Qdiv_comp; [done|apply Qred_correct]).
  assert (Hr1pos : (0 <= r1)%Q) by apply Hr1.
  assert (Hq2le : (r1 / 100 <= inject_Z (Z.of_nat P))%Q).
  { apply Qle_shift_div_r; [done|].
    rewrite inject_Z_mult in Hr1le. change (inject_Z 100) with 100%Q in Hr1le. lra. }
  destruct (round_spec q2) as (r2 & -> & Hr2).
  { rewrite Hq2. apply Qle_shift_div_l; [done|]. lra. }
  { rewrite Hq2. eapply Qle_lt_trans; [exact Hq2le|].
    rewrite pow2_Z by lia. rewrite <- Zlt_Qlt. lia. }
  apply (rounds_to_comp _ _ r2 r2 Hq2 (Qeq_refl _)) in Hr2.
  exists r1, r2. split_and!; [|done|done|done|].
  - unfold Math_ceil. cbn [JsNum.num]. unfold JsNum.of_Q, sample_size.
    by rewrite (Qceiling_comp _ _ (Qred_correct _)), Qceiling_Z.
  - destruct Hr2 as (_ & _ & Hcross & _). apply Hcross; [lia|done].
Qed.

Lemma inject_Z_pred (z : Z) : (inject_Z (z - 1) == inject_Z z - 1)%Q.
Proof. unfold Z.sub. by rewrite inject_Z_plus. Qed.

Lemma inject_Z_succ (z : Z) : (inject_Z (z + 1) == inject_Z z + 1)%Q.
Proof. by rewrite inject_Z_plus. Qed.

Lemma Qceiling_gt (x : Q) : (inject_Z (Qceiling x) - 1 < x)%Q.
Proof. rewrite <- inject_Z_pred. apply Qceiling_lt. Qed.

Lemma Qceiling_unique (x : Q) (z : Z) :
  (inject_Z z - 1 < x)%Q → (x <= inject_Z z)%Q → Qceiling x = z.
Proof.
  intros Hlo Hhi. pose proof (Qle_ceiling x) as H1. pose proof (Qceiling_gt x) as H2.
  assert (H3 : (inject_Z (Qceiling x) < inject_Z z + 1)%Q) by lra.
  assert (H4 : (inject_Z z < inject_Z (Qceiling x) + 1)%Q) by lra.
  change 1%Q with (inject_Z 1) in H3, H4. rewrite <- inject_Z_plus in H3, H4.
  rewrite <- Zlt_Qlt in H3, H4. lia.
Qed.

(** The size asked for is never more than the number of posts. *)
Lemma requested_size_le (pct : Q) (P : nat) :
  (0 <= pct)%Q → (pct <= 100)%Q → (Z.of_nat P < 2 ^ 32)%Z → requested_size pct P ≤ P.
Proof.
  intros Hpos Hle HP.
  destruct (requested_size_spec pct P Hpos Hle HP) as (r1 & r2 & -> & _ & _ & _ & Hr2).
  apply Qceiling_resp_le in Hr2. rewrite Qceiling_Z in Hr2. lia.
Qed.

(** It is the exact ceiling or one less. *)
Lemma requested_size_near (pct : Q) (P : nat) :
  (0 <= pct)%Q → (pct <= 100)%Q → (Z.of_nat P < 2 ^ 32)%Z →
  ceil (inject_Z (Z.of_nat P) * pct / 100) - 1 ≤ requested_size pct P
  ≤ ceil (inject_Z (Z.of_nat P) * pct / 100).
Proof.
  intros Hpos Hle HP.
  destruct (requested_size_spec pct P Hpos Hle HP)
    as (r1 & r2 & -> & Hr1 & Hr2 & Hr1le & Hr2le).
  set (v := (inject_Z (Z.of_nat P) * pct)%Q) in *.
  assert (HP0 : (0 <= inject_Z (Z.of_nat P))%Q)
    by (change 0%Q with (inject_Z 0); rewrite <- Zle_Qle; lia).
  assert (H53 : (inject_Z (100 * Z.of_nat P) < 2 ^ 53)%Q).
  { rewrite pow2_Z by lia. rewrite <- Zlt_Qlt. lia. }
  assert (Hv : (v <= inject_Z (100 * Z.of_nat P))%Q).
  { subst v. rewrite inject_Z_mult. change (inject_Z 100) with 100%Q. nra. }
  assert (Hv0 : (0 <= v)%Q) by (subst v; by apply Qmult_le_0_compat).
  assert (Hdiv : (r1 / 100 == r1 * (1 # 100))%Q) by field.
  assert (Hvdiv : (v / 100 == v * (1 # 100))%Q) by field.
  unfold ceil. split.
  - (* half a unit in the last place, twice, is less than one *)
    destruct Hr1 as (Hr1pos & Herr1 & _). destruct Hr2 as (Hr2pos & Herr2 & _).
    specialize (Herr1 53%Z ltac:(lia) ltac:(lra)).
    specialize (Herr2 53%Z ltac:(lia)).
    change (2 ^ (53 - 54))%Q with (1 # 2)%Q in Herr1, Herr2.
    assert (Herr2' : (r1 / 100 - (1 # 2) <= r2 <= r1 / 100 + (1 # 2))%Q).
    { apply Herr2. rewrite Hdiv. lra. }
    assert (Hlo : (v / 100 - 1 <= r2)%Q) by (rewrite Hdiv in Herr2'; rewrite Hvdiv; lra).
    apply Qceiling_resp_le in Hlo.
    assert (Hm : Qceiling (v / 100 - 1) = (Qceiling (v / 100) - 1)%Z).
    { pose proof (Qceiling_gt (v / 100)). pose proof (Qle_ceiling (v / 100)).
      apply Qceiling_unique; rewrite inject_Z_pred; lra. }
    rewrite Hm in Hlo. lia.
  - (* no rounding crosses the integer above the exact quotient *)
    set (j := Qceiling (v / 100)).
    pose proof (Qle_ceiling (v / 100)) as Hj. fold j in Hj.
    assert (HjP : (j <= Z.of_nat P)%Z).
    { subst j. rewrite <- (Qceiling_Z (Z.of_nat P)). apply Qceiling_resp_le.
      rewrite Hvdiv. rewrite inject_Z_mult in Hv. change (inject_Z 100) with 100%Q in Hv.
      lra. }
    assert (Hvj : (v <= inject_Z (100 * j))%Q).
    { rewrite inject_Z_mult. change (inject_Z 100) with 100%Q. rewrite Hvdiv in Hj. lra. }
    destruct Hr1 as (_ & _ & Hcross1 & _). destruct Hr2 as (_ & _ & Hcross2 & _).
    specialize (Hcross1 (100 * j)%Z ltac:(lia) Hvj).
    assert (Hr1j : (r1 / 100 <= inject_Z j)%Q).
    { rewrite Hdiv. rewrite inject_Z_mult in Hcross1.
      change (inject_Z 100) with 100%Q in Hcross1. lra. }
    specialize (Hcross2 j ltac:(lia) Hr1j).
    apply Qceiling_resp_le in Hcross2. rewrite Qceiling_Z in Hcross2. lia.
Qed.

(** It is the exact ceiling when the percentage is an integer. *)
Lemma requested_size_exact (pct : Q) (n : Z) (P : nat) :
  (pct == inject_Z n)%Q → (0 <= n <= 100)%Z → (Z.of_nat P < 2 ^ 32)%Z →
  requested_size pct P = ceil (inject_Z (Z.of_nat P) * pct / 100).
Proof.
  intros Hpct Hn HP.
  assert (Hpos : (0 <= pct)%Q)
    by (rewrite Hpct; change 0%Q with (inject_Z 0); rewrite <- Zle_Qle; lia).
  assert (Hle : (pct <= 100)%Q)
    by (rewrite Hpct; change 100%Q with (inject_Z 100); rewrite <- Zle_Qle; lia).
  destruct (requested_size_spec pct P Hpos Hle HP)
    as (r1 & r2 & -> & Hr1 & Hr2 & _ & _).
  unfold ceil. f_equal.
  set (A := (Z.of_nat P * n)%Z).
  assert (Hv : (inject_Z (Z.of_nat P) * pct == inject_Z A)%Q)
    by (subst A; by rewrite Hpct, inject_Z_mult).
  destruct Hr1 as (_ & _ & _ & Hexact). specialize (Hexact A Hv).
  assert (Hq : (inject_Z (Z.of_nat P) * pct / 100 == inject_Z A * (1 # 100))%Q)
    by (rewrite Hv; field).
  rewrite (Qceiling_comp _ _ Hq).
  assert (Hr1div : (r1 / 100 == inject_Z A * (1 # 100))%Q) by (rewrite Hexact; field).
  apply (rounds_to_comp _ _ r2 r2 Hr1div (Qeq_refl _)) in Hr2.
  destruct Hr2 as (_ & Herr & _ & Hz).
  assert (HA : (0 <= A < 100 * 2 ^ 32)%Z) by (subst A; nia).
  pose proof (Z.div_mod A 100 ltac:(lia)) as Hdm.
  pose proof (Z.mod_pos_bound A 100 ltac:(lia)) as Hmod.
  set (j := (A / 100)%Z) in *. set (f := (A mod 100)%Z) in *.
  assert (HAq : (inject_Z A * (1 # 100) == inject_Z j + inject_Z f * (1 # 100))%Q).
  { rewrite Hdm, inject_Z_plus, inject_Z_mult. change (inject_Z 100) with 100%Q. field. }
  destruct (Z.eq_dec f 0%Z) as [Hf0|Hf0].
  - assert (Hj : (inject_Z A * (1 # 100) == inject_Z j)%Q).
    { rewrite HAq, Hf0. change (inject_Z 0) with 0%Q. lra. }
    rewrite (Qceiling_comp _ _ (Hz j Hj)), (Qceiling_comp _ _ Hj). done.
  - assert (Hf1 : (1 <= inject_Z f <= 99)%Q).
    { change 1%Q with (inject_Z 1). change 99%Q with (inject_Z 99).
      rewrite <- !Zle_Qle. lia. }
    assert (H32 : (inject_Z A * (1 # 100) < 2 ^ 32)%Q).
    { rewrite pow2_Z by lia.
      assert (Hlt : (A < 100 * 2 ^ 32)%Z) by lia.
      rewrite Zlt_Qlt, inject_Z_mult in Hlt. change (inject_Z 100) with 100%Q in Hlt. lra. }
    specialize (Herr 32%Z ltac:(lia) H32).
    assert (Hsmall : (2 ^ (32 - 54) <= 1 # 200)%Q).
    { change (32 - 54)%Z with (-22)%Z. vm_compute. discriminate. }
    rewrite (Qceiling_unique r2 (j + 1)), (Qceiling_unique (inject_Z A * (1 # 100)) (j + 1)).
    + done.
    + rewrite inject_Z_succ. lra.
    + rewrite inject_Z_succ. lra.
    + rewrite inject_Z_succ. lra.
    + rewrite inject_Z_succ. lra.
Qed.

(** The rounding of [Binary64] is that of the machine: on the sample
    numbers the products and the quotients are the same, signs of zero
    apart, and the size of the sample is the size that the machine
    computes, for the sample percentages and up to 400 posts. The
    percentages of the two generators above are the numbers that the
    machine has for 1.12 and for 100/3. *)
Lemma binary64_as_the_machine :
  rational_of machine_fine = analysisPercentage (config fine_generator)
  ∧ rational_of machine_third = analysisPercentage (config third_generator)
  ∧ forallb (λ a, forallb (λ b,
      same_number (Binary64.mul (of_float a) (of_float b)) (of_float (a * b)%float)
      && (PrimFloat.eqb b 0
          || same_number (Binary64.div (of_float a) (of_float b)) (of_float (a / b)%float)))
    float_samples) float_samples = true
  ∧ forallb (λ pct, forallb (λ P,
        requested_size (rational_of pct) P =? machine_size pct P)
      (seq 0 401)) percentage_samples = true.
Proof. split_and!; vm_compute; reflexivity. Qed.

(** C9, as amended. For a thread with [P] posts, fewer than 2^32 as the
    length of an array is, and a percentage [pct] in (0,100], the sampler
    returns as many posts as [getPostsToAnalyze] asks for, which form a
    sub-multiset of the thread's posts (each post is drawn at most as
    often as the thread has it, so distinct posts stay distinct). The
    number asked for is [Math.ceil((P * pct) / 100)] with the product and
    the quotient rounded to binary64: it is [ceil (P * pct / 100)] when
    the percentage is an integer, and in general that number or one
    less. The sampler returns no post when [P = 0], and all the posts,
    each once, when [pct = 100]. *)
Theorem sampler_contract (env : Env) (this : ArticleGenerator) (thread : Thread) (w : World) :
  let pct := analysisPercentage (config this) in
  let thread_posts := default [] (posts thread) in
  let P := length thread_posts in
  let exact := ceil (inject_Z (Z.of_nat P) * pct / 100)%Q in
  (0 < pct)%Q → (pct <= 100)%Q → (Z.of_nat P < 2 ^ 32)%Z →
  ∃ sample w',
    getPostsToAnalyze env this thread w = (Ok sample, w')
    ∧ length sample = requested_size pct P
    ∧ exact - 1 ≤ length sample ≤ exact
    ∧ (∀ n : Z, (pct == inject_Z n)%Q → length sample = exact)
    ∧ sample ⊆+ thread_posts
    ∧ (NoDup thread_posts → NoDup sample)
    ∧ (P = 0 → sample = [])
    ∧ ((pct == 100)%Q → sample ≡ₚ thread_posts).
Proof.
  intros pct thread_posts P exact Hpos Hle HP.
  assert (Hpos' : (0 <= pct)%Q) by lra.
  pose proof (requested_size_le pct P Hpos' Hle HP) as Hreq.
  assert (Hgen : ∃ sample w',
    getPostsToAnalyze env this thread w = (Ok sample, w')
    ∧ length sample = requested_size pct P
    ∧ sample ⊆+ thread_posts).
  { unfold getPostsToAnalyze. subst P thread_posts.
    destruct (posts thread) as [[|p ps]|] eqn:Hposts; cbn [default from_option id] in *.
    1,3: eexists [], w; split_and!; [done| |done]; cbn [length] in *; lia.
    unfold randomSample_call. eexists _, _. split; [done|]. split.
    - rewrite randomSample_length. fold pct. unfold requested_size in *. lia.
    - apply randomSample_submseteq. }
  destruct Hgen as (sample & w' & Hrun & Hlen & Hsub).
  exists sample, w'. split; [done|]. split; [done|].
  split; [rewrite Hlen; by apply requested_size_near|].
  split_and!; try done.
  - intros n Hn. rewrite Hlen. apply (requested_size_exact pct n P Hn); [|done].
    rewrite Hn in Hpos, Hle. change 0%Q with (inject_Z 0) in Hpos.
    change 100%Q with (inject_Z 100) in Hle. rewrite <- Zlt_Qlt in Hpos.
    rewrite <- Zle_Qle in Hle. lia.
  - intros Hnd. eapply submseteq_NoDup; eauto.
  - intros HP0. apply nil_length_inv. lia.
  - intros Hfull. apply submseteq_length_Permutation; [done|].
    rewrite Hlen, (requested_size_exact pct 100 P Hfull) by (done || lia).
    unfold ceil.
    assert (Hv : (inject_Z (Z.of_nat P) * pct / 100 == inject_Z (Z.of_nat P))%Q)
      by (rewrite Hfull; field).
    rewrite (Qceiling_comp _ _ Hv), Qceiling_Z. fold P. lia.
Qed.


(** C9, as stated, fails. With 3 posts and the percentage 100/3, which
    is 33.333333333333336 in binary64, the product is rounded to 100 and
    one post is asked for and returned, where [ceil (3 * pct / 100)] is
    2. With 625 posts and the percentage 1.12, which is a little more
    than 1.12 in binary64, 8 posts are asked for and returned, where
    [ceil (625 * 1.12 / 100)] is 7. *)
Lemma sampler_size_differs :
  ¬ (∀ (env : Env) (this : ArticleGenerator) (thread : Thread) (w : World),
       let pct := analysisPercentage (config this) in
       let P := length (default [] (posts thread)) in
       (0 < pct)%Q → (pct <= 100)%Q →
       ∃ sample w',
         getPostsToAnalyze env this thread w = (Ok sample, w')
         ∧ length sample = ceil (inject_Z (Z.of_nat P) * pct / 100))
  ∧ ∃ sample w',
      getPostsToAnalyze (stub_env answer) fine_generator (thread_of 1 625) (world_with ∅)
      = (Ok sample, w')
      ∧ length sample = 8
      ∧ ceil (inject_Z 625 * (112 # 100) / 100) = 7.
Proof.
  split.
  - intros H.
    destruct (H (stub_env answer) third_generator (thread_of 1 3) (world_with ∅))
      as (sample & w' & Hrun & Hlen); [vm_compute; reflexivity|vm_compute; discriminate|].
    vm_compute in Hrun. injection Hrun as <- _. vm_compute in Hlen. discriminate Hlen.
  - eexists _, _. split; [vm_compute; reflexivity|]. split; vm_compute; reflexivity.
Qed.

(** ** The classification sub-batcher *)

Lemma Z_ceil_div_20 (a : Z) : (- ((- (a * 1)) `div` 20) = (a + 19) `div` 20)%Z.
Proof. Z.to_euclidean_division_equations. lia. Qed.

Lemma ceil_div_20 (n : nat) : ceil_div n 20 = (n + 19) / 20.
Proof.
  unfold ceil_div, ceil, Qceiling, Qfloor.
  change (Z.of_nat 20) with 20%Z.
  cbn [Qopp Qdiv Qmult Qinv inject_Z Qnum Qden].
  change (Z.pos (1 * 20)) with 20%Z.
  rewrite Z_ceil_div_20. apply Nat2Z.inj.
  rewrite Nat2Z.inj_div, Z2Nat.id, Nat2Z.inj_add; [done|].
  apply Z.div_pos; lia.
Qed.

Ltac div20 n :=
  pose proof (Nat.div_mod_eq (n + 19) 20);
  pose proof (Nat.mod_upper_bound (n + 19) 20).

Lemma concat_slices {A} (l : list A) (B m : nat) :
  concat ((λ k, slice (k * B) (k * B + B) l) <$> seq 0 m) = take (m * B) l.
Proof.
  induction m as [|m IH]; [by rewrite take_0|].
  rewrite seq_S, fmap_app, concat_app, IH. cbn [fmap list_fmap concat].
  rewrite app_nil_r. unfold slice.
  replace (0 + m) with m by done.
  replace (m * B + B - m * B) with B by lia.
  rewrite take_take_drop. f_equal. lia.
Qed.

Lemma batches_concat {A} (posts : list A) : concat (batches 20 posts) = posts.
Proof.
  unfold batches. rewrite concat_slices, ceil_div_20. apply take_ge.
  div20 (length posts). lia.
Qed.

Lemma batches_length {A} (posts : list A) :
  length (batches 20 posts) = ceil_div (length posts) 20.
Proof. unfold batches. by rewrite length_fmap, length_seq. Qed.

Lemma batches_sizes {A} (posts : list A) :
  Forall (λ c, 0 < length c ≤ 20) (batches 20 posts).
Proof.
  unfold batches. apply Forall_fmap, Forall_forall. intros k Hk.
  apply elem_of_seq in Hk. rewrite ceil_div_20 in Hk.
  unfold slice. cbn [compose]. rewrite length_take, length_drop.
  div20 (length posts). lia.
Qed.

(** The loop of the source runs over the chunks in order. *)
Lemma batchLoop_run_batches (env : Env) (posts : list (list N)) :
  ∀ fuel k totals w,
    let m := ceil_div (length posts) 20 in
    k ≤ m → m - k ≤ fuel →
    batchLoop env fuel (k * ANTISEMITIC_BATCH_SIZE) posts totals w
    = run_batches env posts (seq k (m - k)) totals w.
Proof.
  intros fuel. induction fuel as [|fuel IH]; intros k totals w m Hk Hfuel.
  - replace (m - k) with 0 by lia. done.
  - cbn [batchLoop]. subst m. rewrite ceil_div_20 in *.
    unfold ANTISEMITIC_BATCH_SIZE in *. div20 (length posts).
    destruct (k * 20 <? length posts) eqn:Hlt.
    + apply Nat.ltb_lt in Hlt.
      replace ((length posts + 19) `div` 20 - k)
        with (S ((length posts + 19) `div` 20 - S k)) by lia.
      cbn [seq run_batches]. unfold bind, ANTISEMITIC_BATCH_SIZE.
      destruct (analyzeBatch _ _ _ _ _) as [[totals'|e] w']; [|done].
      replace (k * 20 + 20) with (S k * 20) by lia.
      apply IH; rewrite ?ceil_div_20; lia.
    + apply Nat.ltb_ge in Hlt.
      replace ((length posts + 19) `div` 20 - k) with 0 by lia. done.
Qed.

Lemma analyzeAntisemiticContent_run_batches (env : Env) (posts : list (list N)) (w : World) :
  analyzeAntisemiticContent env posts w
  = run_batches env posts (seq 0 (ceil_div (length posts) 20)) (0%N, 0%N) w.
Proof.
  unfold analyzeAntisemiticContent.
  rewrite <- (Nat.sub_0_r (ceil_div _ _)).
  apply (batchLoop_run_batches env posts (length posts) 0); [lia|].
  rewrite ceil_div_20. div20 (length posts). lia.
Qed.

Lemma chat_only_refl w : chat_only w w.
Proof. by repeat split. Qed.

Lemma chat_only_trans w1 w2 w3 : chat_only w1 w2 → chat_only w2 w3 → chat_only w1 w3.
Proof. unfold chat_only. intros (?&?&?&?&?) (?&?&?&?&?). split_and!; congruence. Qed.

(** One chunk: the call is logged; its outcome decides what is added and
    what is printed. Nothing is thrown. *)
Lemma analyzeBatch_spec (env : Env) (i : nat) (chunk : list (list N))
    (totals : N * N) (w : World) :
  let co := (chunk, respond env (chat_log w) (antisemiticPrompt chunk)) in
  ∃ w',
    analyzeBatch env i chunk totals w
      = (Ok ((totals.1 + flagged_of co)%N, (totals.2 + analyzed_of co)%N), w')
    ∧ chat_log w' = chat_log w ++ [antisemiticPrompt chunk]
    ∧ level <$> console w' = (level <$> console w) ++ levels_of co
    ∧ chat_only w w'.
Proof.
  intros co. subst co. unfold analyzeBatch, flagged_of, analyzed_of, levels_of, chat_only.
  destruct totals as [flagged analyzed]. unfold_m. cbn [fst snd].
  destruct (respond env (chat_log w) (antisemiticPrompt chunk)) as [text|].
  - destruct (parseAntisemiticResponse text) as [bf ba]. cbn [fst snd].
    destruct (ba =? N.of_nat (length chunk))%N eqn:Heq; cbn [negb].
    + apply N.eqb_eq in Heq. subst ba.
      eexists. split_and!; [done|done| |done..]. by rewrite app_nil_r.
    + eexists. split_and!; [done|done| |done..]. cbn [console set_console].
      by rewrite fmap_app.
  - rewrite !N.add_0_r. eexists. split_and!; [done|done| |done..].
    cbn [console set_console]. by rewrite fmap_app.
Qed.

Lemma run_batches_spec (env : Env) (posts : list (list N)) :
  ∀ ks totals w,
    let cos := chunk_outcomes env (chat_log w) (chunk_of posts <$> ks) in
    ∃ w',
      run_batches env posts ks totals w
        = (Ok ((totals.1 + sumN (flagged_of <$> cos))%N,
               (totals.2 + sumN (analyzed_of <$> cos))%N), w')
      ∧ chat_log w' = chat_log w ++ (antisemiticPrompt <$> (chunk_of posts <$> ks))
      ∧ level <$> console w' = (level <$> console w) ++ concat (levels_of <$> cos)
      ∧ chat_only w w'.
Proof.
  intros ks. induction ks as [|k ks IH]; intros totals w cos.
  - subst cos. cbn. rewrite !N.add_0_r, !app_nil_r. destruct totals.
    eexists. split_and!; [done..|apply chat_only_refl].
  - cbn [run_batches]. unfold bind, ANTISEMITIC_BATCH_SIZE.
    destruct (analyzeBatch_spec env (k * 20) (chunk_of posts k) totals w)
      as (w1 & Hrun & Hchat & Hcons & Hfr).
    unfold chunk_of in Hrun at 1. rewrite Hrun.
    destruct (IH (totals.1 + flagged_of (chunk_of posts k, respond env (chat_log w) (antisemiticPrompt (chunk_of posts k))),
                  totals.2 + analyzed_of (chunk_of posts k, respond env (chat_log w) (antisemiticPrompt (chunk_of posts k))))%N w1)
      as (w2 & Hrun2 & Hchat2 & Hcons2 & Hfr2).
    exists w2. rewrite Hrun2, Hchat2, Hcons2, Hchat, Hcons. subst cos.
    unfold chunk_outcomes. rewrite !fmap_cons. cbn [outcomes zip_with].
    rewrite !fmap_cons. cbn [sumN foldr concat fst snd].
    split_and!.
    + change (foldr N.add 0%N) with sumN. by rewrite !N.add_assoc.
    + by rewrite <- app_assoc.
    + by rewrite <- app_assoc.
    + by eapply chat_only_trans.
Qed.

Lemma batches_chunk_of (posts : list (list N)) :
  chunk_of posts <$> seq 0 (ceil_div (length posts) 20) = batches 20 posts.
Proof. done. Qed.

Lemma analyzeAntisemiticContent_spec (env : Env) (posts : list (list N)) (w : World) :
  let cos := chunk_outcomes env (chat_log w) (batches 20 posts) in
  ∃ w',
    analyzeAntisemiticContent env posts w
      = (Ok (sumN (flagged_of <$> cos), sumN (analyzed_of <$> cos)), w')
    ∧ chat_log w' = chat_log w ++ (antisemiticPrompt <$> batches 20 posts)
    ∧ level <$> console w' = (level <$> console w) ++ concat (levels_of <$> cos)
    ∧ chat_only w w'.
Proof.
  intros cos. rewrite analyzeAntisemiticContent_run_batches.
  destruct (run_batches_spec env posts (seq 0 (ceil_div (length posts) 20)) (0%N, 0%N) w)
    as (w' & Hrun & Hchat & Hcons & Hfr).
  rewrite batches_chunk_of in *. cbn [fst snd] in Hrun.
  rewrite !N.add_0_l in Hrun. by exists w'.
Qed.

Lemma outcomes_length (env : Env) (reqs : list ChatRequest) :
  ∀ hist, length (outcomes env hist reqs) = length reqs.
Proof. induction reqs as [|r reqs IH]; intros hist; cbn; [done|]. by rewrite IH. Qed.

Lemma chunk_outcomes_fst (env : Env) (hist : list ChatRequest) (cs : list (list (list N))) :
  fst <$> chunk_outcomes env hist cs = cs.
Proof.
  unfold chunk_outcomes. apply fst_zip.
  by rewrite outcomes_length, length_fmap.
Qed.

Lemma analyzed_le_size (env : Env) (cs : list (list (list N))) :
  ∀ hist,
    (sumN (analyzed_of <$> chunk_outcomes env hist cs) ≤ N.of_nat (length (concat cs)))%N
    ∧ (Forall (λ co, is_Some co.2) (chunk_outcomes env hist cs) →
       sumN (analyzed_of <$> chunk_outcomes env hist cs) = N.of_nat (length (concat cs))).
Proof.
  unfold chunk_outcomes.
  induction cs as [|c cs IH]; intros hist; [done|].
  rewrite fmap_cons. cbn [outcomes zip_with concat]. rewrite fmap_cons, length_app.
  cbn [sumN foldr]. change (foldr N.add 0%N) with sumN.
  destruct (IH (hist ++ [antisemiticPrompt c])) as [Hle Heq].
  unfold analyzed_of at 1 3. cbn [fst snd]. split.
  - destruct (respond env hist (antisemiticPrompt c)); lia.
  - intros [Hc Hcs]%Forall_cons. cbn [snd] in Hc. destruct Hc as [text ->].
    rewrite (Heq Hcs). lia.
Qed.

(** C3. The sub-batcher cuts the [N] post texts, in order, into
    [ceil (N / 20)] chunks of at most 20 (and at least one) texts, sends
    exactly one completion request per chunk, in order, and returns an
    analyzed count of [N] whenever the call of every chunk succeeded. *)
Theorem sub_batcher_partition (env : Env) (posts : list (list N)) (w : World) :
  let cs := batches ANTISEMITIC_BATCH_SIZE posts in
  length cs = ceil_div (length posts) ANTISEMITIC_BATCH_SIZE
  ∧ concat cs = posts
  ∧ Forall (λ c, 0 < length c ≤ ANTISEMITIC_BATCH_SIZE) cs
  ∧ ∃ flagged analyzed w',
      analyzeAntisemiticContent env posts w = (Ok (flagged, analyzed), w')
      ∧ chat_log w' = chat_log w ++ (antisemiticPrompt <$> cs)
      ∧ (Forall (λ co, is_Some co.2) (chunk_outcomes env (chat_log w) cs) →
         analyzed = N.of_nat (length posts)).
Proof.
  intros cs. subst cs. unfold ANTISEMITIC_BATCH_SIZE.
  split_and!; [apply batches_length | apply batches_concat | apply batches_sizes |].
  destruct (analyzeAntisemiticContent_spec env posts w) as (w' & Hrun & Hchat & _).
  eexists _, _, w'. split_and!; [done..|].
  intros Hall. rewrite <- (batches_concat posts) at 2.
  by apply analyzed_le_size.
Qed.

Lemma outcomes_scripted (pre os : list (option (list N))) (reqs : list ChatRequest) :
  ∀ hist, length hist = length pre → length reqs = length os →
    outcomes (scripted (pre ++ os)) hist reqs = os.
Proof.
  revert pre reqs. induction os as [|o os IH]; intros pre reqs hist Hh Hr.
  - by destruct reqs.
  - destruct reqs as [|r reqs]; [done|]. cbn [outcomes scripted respond].
    rewrite Hh, list_lookup_middle by done. cbn [default from_option id]. f_equal.
    rewrite (cons_middle o pre os), app_assoc.
    apply (IH (pre ++ [o])); [rewrite !length_app; cbn; lia | by injection Hr].
Qed.

(** C10. Whatever the post texts and the outcomes of the calls, the
    analyzed count that the sub-batcher returns is the sum of the actual
    sizes of the chunks whose call succeeded, hence at most the number of
    texts, and the flagged count is the sum of the counts that the model
    reported for those chunks. Every sequence of outcomes can occur, and
    the reported counts are not checked against the sizes: the flagged
    count can exceed the analyzed count. *)
Theorem sub_batcher_counts :
  (∀ (env : Env) (posts : list (list N)) (w : World),
     let cos := chunk_outcomes env (chat_log w) (batches ANTISEMITIC_BATCH_SIZE posts) in
     ∃ flagged analyzed w',
       analyzeAntisemiticContent env posts w = (Ok (flagged, analyzed), w')
       ∧ fst <$> cos = batches ANTISEMITIC_BATCH_SIZE posts
       ∧ analyzed = sumN (analyzed_of <$> cos)
       ∧ (analyzed ≤ N.of_nat (length posts))%N
       ∧ flagged = sumN (flagged_of <$> cos))
  ∧ (∀ (posts : list (list N)) (os : list (option (list N))),
       length os = length (batches ANTISEMITIC_BATCH_SIZE posts) →
       chunk_outcomes (scripted os) [] (batches ANTISEMITIC_BATCH_SIZE posts)
       = zip (batches ANTISEMITIC_BATCH_SIZE posts) os)
  ∧ (∃ (env : Env) (posts : list (list N)) (w : World) flagged analyzed w',
       analyzeAntisemiticContent env posts w = (Ok (flagged, analyzed), w')
       ∧ (analyzed < flagged)%N).
Proof.
  unfold ANTISEMITIC_BATCH_SIZE. split_and!.
  - intros env posts w. cbv zeta.
    destruct (analyzeAntisemiticContent_spec env posts w) as (w' & Hrun & _).
    eexists _, _, w'. split_and!; [exact Hrun | apply chunk_outcomes_fst | done | | done].
    rewrite <- (batches_concat posts) at 2. apply analyzed_le_size.
  - intros posts os Hlen. unfold chunk_outcomes. f_equal.
    apply (outcomes_scripted [] os); [done|]. by rewrite length_fmap.
  - exists (scripted [Some (lit "5/1")]), [lit "a"], (world_with ∅).
    eexists _, _, _. split; [vm_compute; reflexivity|]. done.
Qed.

(** ** The thread analyzer *)

Lemma getPostsToAnalyze_spec (env : Env) (this : ArticleGenerator) (thread : Thread) (w : World) :
  ∃ w',
    getPostsToAnalyze env this thread w = (Ok (sample_of env this thread (samples w)), w')
    ∧ chat_log w' = chat_log w ∧ clock_reads w' = clock_reads w
    ∧ files w' = files w ∧ fs_log w' = fs_log w.
Proof.
  unfold getPostsToAnalyze, sample_of.
  destruct (posts thread) as [[|p ps]|]; unfold_m; by eexists.
Qed.

Lemma parseArticleResponse_console_spec (headline article : list N) (w : World) :
  ∃ w',
    parseArticleResponse_console headline article w = (Ok (), w')
    ∧ chat_log w' = chat_log w ∧ clock_reads w' = clock_reads w
    ∧ files w' = files w ∧ fs_log w' = fs_log w.
Proof.
  unfold parseArticleResponse_console. unfold_m.
  destruct (_ || _); by eexists.
Qed.

(** The analysis of a thread throws exactly when its summary call fails;
    otherwise it returns the record made of what the world answered. *)
Lemma analyzeThread_spec (env : Env) (this : ArticleGenerator) (thread : Thread) (w : World) :
  let sample := sample_of env this thread (samples w) in
  let req := summary_request this sample in
  ∃ w',
    analyzeThread env this thread w
    = (match respond env (chat_log w) req with
       | Some text =>
           Ok (thread_record thread sample text
                 (chunk_outcomes env (chat_log w ++ [req])
                    (batches 20 (validPostsOf sample)))
                 (now env (clock_reads w)))
       | None => Throw ChatError
       end, w')
    ∧ files w' = files w ∧ fs_log w' = fs_log w.
Proof.
  intros sample req. unfold analyzeThread. unfold bind at 1.
  destruct (getPostsToAnalyze_spec env this thread w) as (w1 & -> & Hc1 & Hk1 & Hf1 & Hl1).
  fold sample. unfold bind at 1. unfold chat at 1. rewrite Hc1. fold req.
  change (articlePrompt _ _) with req.
  destruct (respond env (chat_log w) req) as [text|]; [|by eexists].
  destruct (parseArticleResponse text) as [headline article] eqn:Hparse.
  unfold bind at 1.
  destruct (parseArticleResponse_console_spec headline article
              (set_chat_log (chat_log w ++ [req]) w1)) as (w2 & -> & Hc2 & Hk2 & Hf2 & Hl2).
  cbn in Hc2, Hk2, Hf2, Hl2.
  unfold bind at 1.
  destruct (analyzeAntisemiticContent_spec env (validPostsOf sample) w2)
    as (w3 & -> & Hc3 & _ & Hfr3).
  destruct Hfr3 as (Hf3 & Hl3 & _ & Hk3 & _).
  unfold_m. cbn. eexists. split.
  { apply (f_equal2 pair); [|reflexivity]. f_equal.
    unfold thread_record. rewrite Hparse, Hc2, Hk3, Hk2. cbn. by rewrite Hk1. }
  cbn. split; congruence.
Qed.

(** C4. A chunk whose call succeeded adds the count that the model
    reported to the flagged count and its actual size to the analyzed
    count, whatever total the model reported; a differing total is printed
    as a warning and nothing else happens. A chunk whose call threw adds
    nothing and prints an error. In both cases the chunk returns normally,
    so the loop goes on: the sub-batcher sends the request of every chunk,
    whatever the outcomes of the earlier ones, and returns; and the
    analysis of a thread returns a record whenever its summary call
    succeeded, whatever the outcomes of the chunks. *)
Theorem chunk_failure_isolated (env : Env) :
  (∀ (i : nat) (chunk : list (list N)) (totals : N * N) (w : World),
     ∃ w',
       analyzeBatch env i chunk totals w
       = (Ok match respond env (chat_log w) (antisemiticPrompt chunk) with
             | Some text =>
                 ((totals.1 + (parseAntisemiticResponse text).1)%N,
                  (totals.2 + N.of_nat (length chunk))%N)
             | None => totals
             end, w')
       ∧ level <$> console w'
         = (level <$> console w)
           ++ match respond env (chat_log w) (antisemiticPrompt chunk) with
              | Some text =>
                  if ((parseAntisemiticResponse text).2 =? N.of_nat (length chunk))%N
                  then [] else [Warning]
              | None => [Error]
              end)
  ∧ (∀ (posts : list (list N)) (w : World),
       ∃ totals w',
         analyzeAntisemiticContent env posts w = (Ok totals, w')
         ∧ chat_log w' = chat_log w ++ (antisemiticPrompt <$> batches ANTISEMITIC_BATCH_SIZE posts))
  ∧ (∀ (this : ArticleGenerator) (thread : Thread) (w : World),
       is_Some (respond env (chat_log w)
                  (summary_request this (sample_of env this thread (samples w)))) →
       ∃ record w', analyzeThread env this thread w = (Ok record, w')).
Proof.
  split_and!.
  - intros i chunk totals w.
    destruct (analyzeBatch_spec env i chunk totals w) as (w' & Hrun & _ & Hcons & _).
    exists w'. rewrite Hrun, Hcons. unfold flagged_of, analyzed_of, levels_of. cbn [fst snd].
    destruct (respond env (chat_log w) (antisemiticPrompt chunk)); [done|].
    rewrite !N.add_0_r. by destruct totals.
  - intros posts w.
    destruct (analyzeAntisemiticContent_spec env posts w) as (w' & Hrun & Hchat & _).
    by eexists _, w'.
  - intros this thread w [text Htext].
    destruct (analyzeThread_spec env this thread w) as (w' & Hrun & _).
    rewrite Htext in Hrun. by eexists _, w'.
Qed.


Lemma nothing_analyzed_nothing_flagged (cos : list (list (list N) * option (list N))) :
  Forall (λ c, 0 < length c) (fst <$> cos) →
  sumN (analyzed_of <$> cos) = 0%N → sumN (flagged_of <$> cos) = 0%N.
Proof.
  induction cos as [|[c o] cos IH]; [done|].
  rewrite !fmap_cons. cbn [sumN foldr fst]. change (foldr N.add 0%N) with sumN.
  intros [Hc Hcos]%Forall_cons. unfold analyzed_of at 1, flagged_of at 1. cbn [fst snd].
  destruct o; [lia|]. intros H. rewrite IH; [done|done|lia].
Qed.

Lemma percentage_of_counts (flagged analyzed : N) :
  (0 < analyzed)%N →
  JsNum.mul (JsNum.div (JsNum.of_N flagged) (JsNum.of_N analyzed)) (JsNum.of_Q 100)
  = JsNum.of_Q (100 * inject_Z (Z.of_N flagged) / inject_Z (Z.of_N analyzed)).
Proof.
  intros Hpos. unfold JsNum.of_N, JsNum.of_Q, JsNum.div, JsNum.mul. cbn [JsNum.num].
  assert (Hnz : ¬ (inject_Z (Z.of_N analyzed) == 0)%Q).
  { change 0%Q with (inject_Z 0). rewrite inject_Z_injective. lia. }
  destruct (Qeq_bool (Qred (inject_Z (Z.of_N analyzed))) 0) eqn:Hz.
  { apply Qeq_bool_iff in Hz. rewrite Qred_correct in Hz. done. }
  unfold JsNum.of_Q. cbn [JsNum.num]. f_equal. apply Qred_complete.
  rewrite !Qred_correct. field. done.
Qed.

(** C5. The percentage of a record that the thread analyzer returns is
    100 * flagged / analyzed when the analyzed count is positive. When the
    analyzed count is zero the percentage is NaN: the division 0/0 is made
    all the same. *)
Theorem record_percentage (env : Env) (this : ArticleGenerator) (thread : Thread)
    (w w' : World) (record : ArticleAnalysis) :
  analyzeThread env this thread w = (Ok record, w') →
  let stats := antisemiticStats record in
  ((0 < analyzedComments stats)%N →
     percentage stats
     = JsNum.of_Q (100 * inject_Z (Z.of_N (antisemiticComments stats))
                   / inject_Z (Z.of_N (analyzedComments stats))))
  ∧ (analyzedComments stats = 0%N → percentage stats = JNaN).
Proof.
  intros Hrun stats. subst stats.
  destruct (analyzeThread_spec env this thread w) as (w1 & Hspec & _).
  rewrite Hrun in Hspec.
  destruct (respond env _ _) as [text|]; [|done].
  injection Hspec as -> _. cbn [thread_record antisemiticStats analyzedComments
    antisemiticComments percentage]. split.
  - apply percentage_of_counts.
  - intros Hzero. rewrite Hzero, nothing_analyzed_nothing_flagged; [done| |done].
    rewrite chunk_outcomes_fst.
    eapply Forall_impl; [apply batches_sizes|]. cbn. lia.
Qed.

(** ** The job runner *)

Lemma saveProgress_ok (env : Env) (this : ArticleGenerator)
    (arts : list ArticleAnalysis) (w : World) :
  ∃ w', saveProgress env this arts w = (Ok (), w').
Proof.
  unfold saveProgress, fs_mkdir, fs_writeFile. unfold_m.
  destruct (fs_fault env (fs_log w) _); [|by eexists..].
  destruct (fs_fault env _ _); by eexists.
Qed.

Lemma threadLoop_step (env : Env) (this : ArticleGenerator)
    (cb : option (list N → bool)) (t : Thread) (ts : list Thread)
    (st : Totals) (w : World) :
  ∃ w1,
    threadLoop env this cb (t :: ts) st w
    = threadLoop env this cb ts
        (match (analyzeThread env this t w).1 with
         | Ok analysis => push st analysis
         | Throw _ => st
         end) w1.
Proof.
  cbn [threadLoop]. unfold bind at 1. unfold try_catch at 1. unfold bind at 1.
  destruct (analyzeThread env this t w) as [[analysis|e] w0]; cbn [fst].
  - unfold ret at 1. unfold bind at 1.
    destruct (saveProgress_ok env this (t_articles (push st analysis)) w0) as (w1 & ->).
    unfold bind at 1.
    destruct cb as [callback|]; unfold_m; [|by eexists].
    destruct (callback _); by eexists.
  - unfold failed_thread. unfold_m. by eexists.
Qed.

Lemma push_totals_ok (st : Totals) (a : ArticleAnalysis) :
  totals_ok st → totals_ok (push st a).
Proof.
  intros [Hp Hn]. split; cbn [push t_articles t_percentage t_analyzedPosts].
  - by rewrite foldl_app, Hp.
  - by rewrite foldl_app, Hn.
Qed.

(** The loop never throws, keeps the articles it started with and keeps
    the totals in step with the articles. *)
Lemma threadLoop_spec (env : Env) (this : ArticleGenerator) (cb : option (list N → bool)) :
  ∀ ts st w,
    ∃ st' w',
      threadLoop env this cb ts st w = (Ok st', w')
      ∧ (totals_ok st → totals_ok st')
      ∧ t_articles st `prefix_of` t_articles st'.
Proof.
  intros ts. induction ts as [|t ts IH]; intros st w.
  - by eexists st, w.
  - destruct (threadLoop_step env this cb t ts st w) as (w1 & ->).
    destruct (analyzeThread env this t w).1 as [analysis|e].
    + destruct (IH (push st analysis) w1) as (st' & w' & Hrun & Hok & Hpre).
      exists st', w'. split_and!; [done| |].
      * intros H. by apply Hok, push_totals_ok.
      * etrans; [|exact Hpre]. by apply prefix_app_r.
    + apply IH.
Qed.

Lemma foldl_add_percentage (l : list ArticleAnalysis) :
  ∀ acc,
    foldl add_percentage acc l
    = foldl JsNum.add acc
        ((λ a, percentage (antisemiticStats a))
           <$> filter (λ a, (0 < analyzedComments (antisemiticStats a))%N) l).
Proof.
  induction l as [|a l IH]; intros acc; [done|].
  cbn [foldl]. rewrite IH, filter_cons. unfold add_percentage at 1, has_analysis.
  destruct (decide _) as [H|H].
  - apply N.ltb_lt in H as ->. done.
  - apply N.ltb_nlt in H as ->. done.
Qed.

Lemma loadProgress_ok (env : Env) (this : ArticleGenerator) (w : World) :
  ∃ existing w', loadProgress env this w = (Ok existing, w').
Proof.
  unfold loadProgress, fs_readFile. unfold_m.
  destruct (fs_fault env _ _); [|by eexists _, _..].
  destruct (files w !! _) as [[| |]|]; by eexists _, _.
Qed.

(** ** The output commit *)

Lemma tempFile_ne (this : ArticleGenerator) : tempFile this ≠ outputFile this.
Proof.
  unfold tempFile. intros H. apply (f_equal length) in H.
  rewrite length_app in H. cbn in H. lia.
Qed.

Ltac world_simpl :=
  cbn [files fs_log chat_log samples clock_reads console progress_calls
       fs_step set_files set_fs_log set_chat_log set_samples set_clock_reads
       set_console set_progress_calls fst snd] in *.

Lemma saveOutput_spec (env : Env) (this : ArticleGenerator) (batch : ArticleBatch) (w : World) :
  let out := outputFile this in
  let tmp := tempFile this in
  ∃ r w',
    saveOutput env this batch w = (r, w')
    ∧ match r with
      | Ok _ =>
          let doc := OutputDoc (json_batch batch) (now env (clock_reads w)) in
          fs_log w'
          = fs_log w ++ [(Mkdir (dirname out), true); (WriteFile tmp doc, true);
                         (Rename tmp out, true)]
          ∧ files w' !! out = Some doc
          ∧ files w' !! tmp = None
      | Throw e =>
          files w' !! out = files w !! out
          ∧ (files w' !! tmp = None ∨ last (fs_log w') = Some (Unlink tmp, false))
      end.
Proof.
  intros out tmp. pose proof (tempFile_ne this) as Hne. fold tmp out in Hne.
  unfold saveOutput, fs_mkdir, fs_writeFile, fs_rename, fs_unlink. unfold_m.
  fold tmp out.
  repeat first
    [ progress world_simpl
    | match goal with
      | |- context [fs_fault ?e ?l ?o] => destruct (fs_fault e l o) eqn:?
      | |- context [bool_decide ?P] => destruct (bool_decide_reflect P)
      | |- context [match ?m !! ?k with _ => _ end] => destruct (m !! k) eqn:?
      end ].
  all: eexists _, _; (split; [reflexivity|]); world_simpl.
  all: repeat match goal with
         | H : ¬ is_Some _ |- _ => apply eq_None_not_Some in H
         | H : is_Some _ |- _ => destruct H as [? H]
         end.
  all: try (split; [| first [ left; by simplify_map_eq | right; by rewrite last_snoc ] ]).
  all: try by simplify_map_eq.
  rewrite <- !app_assoc. by simplify_map_eq.
Qed.

Lemma unlink_progress_ok (env : Env) (this : ArticleGenerator) (w : World) :
  ∃ w',
    try_catch (fs_unlink env (progressFile this)) (λ _, ret ()) w = (Ok (), w')
    ∧ clock_reads w' = clock_reads w
    ∧ (files w' !! progressFile this = None
       ∨ last (fs_log w') = Some (Unlink (progressFile this), false)).
Proof.
  unfold fs_unlink. unfold_m.
  destruct (fs_fault env _ _), (files w !! progressFile this) eqn:Hf;
    eexists; split_and!; try done; world_simpl;
    first [ left; by simplify_map_eq | right; by rewrite last_snoc ].
Qed.

(** The steps of a run: the checkpoint is loaded, the remaining threads
    are analyzed, the checkpoint is unlinked, and the result is decided by
    the output commit. *)
Lemma generateArticles_run (env : Env) (this : ArticleGenerator) (threads : list Thread)
    (cb : option (list N → bool)) (w : World) :
  ∃ existing w0 w1 final w2 w3,
    loadProgress env this w = (Ok existing, w0)
    ∧ threadLoop env this cb (remaining_threads existing threads) (start_totals existing) w1
      = (Ok final, w2)
    ∧ try_catch (fs_unlink env (progressFile this)) (λ _, ret ()) w2 = (Ok (), w3)
    ∧ let batch := batch_of final (now env (clock_reads w3)) in
      generateArticles env this threads cb w
      = after_commit batch
          (saveOutput env this batch (set_clock_reads (S (clock_reads w3)) w3)).
Proof.
  unfold generateArticles. unfold bind at 1.
  destruct (loadProgress_ok env this w) as (existing & w0 & ->).
  unfold bind at 1.
  fold (remaining_threads existing threads). fold (start_totals existing).
  set (m := if 0 <? length existing then _ else _).
  assert (Hm : ∃ w1, m w0 = (Ok (), w1)).
  { subst m. destruct (0 <? length existing); unfold_m; by eexists. }
  destruct Hm as (w1 & ->). unfold bind at 1.
  destruct (threadLoop_spec env this cb (remaining_threads existing threads)
              (start_totals existing) w1) as (final & w2 & Hloop & _).
  rewrite Hloop. unfold bind at 1.
  destruct (unlink_progress_ok env this w2) as (w3 & Hunlink & _).
  rewrite Hunlink.
  unfold bind at 1. unfold Date_now at 1. unfold bind at 1.
  exists existing, w0, w1, final, w2, w3. split_and!; [done..|].
  cbv zeta. unfold after_commit, batch_of, average_of.
  by destruct (saveOutput _ _ _ _) as [[[]|e] w4].
Qed.

(** What a run that returns went through. *)
Lemma generateArticles_inv (env : Env) (this : ArticleGenerator) (threads : list Thread)
    (cb : option (list N → bool)) (w w' : World) (batch : ArticleBatch) :
  generateArticles env this threads cb w = (Ok batch, w') →
  ∃ existing w0 w1 final w2,
    loadProgress env this w = (Ok existing, w0)
    ∧ threadLoop env this cb (remaining_threads existing threads) (start_totals existing) w1
      = (Ok final, w2)
    ∧ articles batch = t_articles final
    ∧ averageAntisemiticPercentage (batchStats batch) = average_of final.
Proof.
  destruct (generateArticles_run env this threads cb w)
    as (existing & w0 & w1 & final & w2 & w3 & Hload & Hloop & _ & ->).
  unfold after_commit. destruct (saveOutput _ _ _ _).1; [|done].
  intros [= <- _]. by exists existing, w0, w1, final, w2.
Qed.

(** C6. The average flagged percentage of the result of a job is the
    arithmetic mean of the percentages of the records whose analyzed count
    is positive; the other records are left out of the sum and of the
    count, and the average is 0 when no record is counted. *)
Theorem average_is_mean (env : Env) (this : ArticleGenerator) (threads : list Thread)
    (onProgress : option (list N → bool)) (w w' : World) (batch : ArticleBatch) :
  generateArticles env this threads onProgress w = (Ok batch, w') →
  averageAntisemiticPercentage (batchStats batch) = mean_percentage (articles batch).
Proof.
  intros (existing & w0 & w1 & final & w2 & _ & Hloop & Harts & Havg)%generateArticles_inv.
  rewrite Havg, Harts.
  destruct (threadLoop_spec env this onProgress (remaining_threads existing threads)
              (start_totals existing) w1) as (final' & w2' & Hloop' & Hok & _).
  rewrite Hloop in Hloop'. injection Hloop' as <- <-.
  destruct Hok as [Hpct _]; [done|].
  unfold average_of, mean_percentage.
  rewrite Hpct, foldl_add_percentage.
  rewrite (list_filter_iff (λ a, has_analysis a = true)
             (λ a, (0 < analyzedComments (antisemiticStats a))%N))
    by (intros a; unfold has_analysis; apply N.ltb_lt).
  by destruct (filter _ (t_articles final)).
Qed.


(** C1, as amended. The output commit makes the directory, writes the
    whole document to the temporary file and renames it over the output
    file, in this order. When a step fails, the output file is as it was,
    the failure is thrown again, and the temporary file is unlinked if it
    exists: it is gone afterwards unless that unlink failed too, which is
    ignored. The result of [generateArticles] is decided by its commit: a
    failure of the commit is the failure of the run. *)
Theorem output_commit (env : Env) (this : ArticleGenerator) :
  (∀ (batch : ArticleBatch) (w : World),
     let out := outputFile this in
     let tmp := tempFile this in
     ∃ r w',
       saveOutput env this batch w = (r, w')
       ∧ match r with
         | Ok _ =>
             let doc := OutputDoc (json_batch batch) (now env (clock_reads w)) in
             fs_log w'
             = fs_log w ++ [(Mkdir (dirname out), true); (WriteFile tmp doc, true);
                            (Rename tmp out, true)]
             ∧ files w' !! out = Some doc
             ∧ files w' !! tmp = None
         | Throw e =>
             files w' !! out = files w !! out
             ∧ (files w' !! tmp = None ∨ last (fs_log w') = Some (Unlink tmp, false))
         end)
  ∧ (∀ (threads : list Thread) (onProgress : option (list N → bool)) (w : World),
       ∃ batch w1,
         generateArticles env this threads onProgress w
         = after_commit batch (saveOutput env this batch w1)).
Proof.
  split.
  - intros batch w. apply saveOutput_spec.
  - intros threads cb w.
    destruct (generateArticles_run env this threads cb w)
      as (existing & w0 & w1 & final & w2 & w3 & _ & _ & _ & Hrun).
    by eexists _, _.
Qed.

(** C1, as stated, fails: when the rename fails and the unlink of the
    clean-up fails as well, the commit throws and the temporary file is
    still there. *)
Lemma output_commit_temp_left :
  ¬ (∀ (env : Env) (this : ArticleGenerator) (batch : ArticleBatch) (w : World) e w',
       saveOutput env this batch w = (Throw e, w') →
       files w' !! tempFile this = None).
Proof.
  intros H.
  assert (Hrun :
    saveOutput stuck_disk example_generator empty_batch (world_with ∅)
    = (Throw (FsError (Rename (tempFile example_generator) (outputFile example_generator))),
       (saveOutput stuck_disk example_generator empty_batch (world_with ∅)).2))
    by (vm_compute; reflexivity).
  apply H in Hrun. vm_compute in Hrun. discriminate.
Qed.

(** ** Runs with a deterministic stub *)

Lemma outcomes_stateless (env : Env) (reqs : list ChatRequest) :
  stateless env → ∀ hist hist', outcomes env hist reqs = outcomes env hist' reqs.
Proof.
  intros (Hr & _). induction reqs as [|r reqs IH]; intros hist hist'; [done|].
  cbn [outcomes]. by rewrite (Hr hist hist'), (IH (hist ++ [r]) (hist' ++ [r])).
Qed.

(** With a deterministic stub the analysis of a thread gives the same
    result in every world. *)
Lemma analyzeThread_stateless (env : Env) (this : ArticleGenerator) (thread : Thread) :
  stateless env →
  ∀ w w', (analyzeThread env this thread w).1 = (analyzeThread env this thread w').1.
Proof.
  intros Hst w w'. pose proof Hst as (Hr & He & Hn).
  destruct (analyzeThread_spec env this thread w) as (w1 & -> & _).
  destruct (analyzeThread_spec env this thread w') as (w1' & -> & _).
  cbn [fst]. unfold sample_of, chunk_outcomes.
  rewrite (He (samples w) (samples w')), (Hn (clock_reads w) (clock_reads w')).
  set (sample := match posts thread with Some (_ :: _ as ps) => _ | _ => [] end).
  set (req := summary_request this sample).
  rewrite (Hr (chat_log w) (chat_log w') req).
  by rewrite (outcomes_stateless env _ Hst (chat_log w ++ [req]) (chat_log w' ++ [req])).
Qed.

Lemma threadLoop_stateless (env : Env) (this : ArticleGenerator) (cb : option (list N → bool)) :
  stateless env →
  ∀ ts st w st' w',
    threadLoop env this cb ts st w = (Ok st', w') →
    t_articles st' = t_articles st ++ omap (record_of env this) ts.
Proof.
  intros Hst ts. induction ts as [|t ts IH]; intros st w st' w'.
  - intros [= <- _]. by rewrite app_nil_r.
  - destruct (threadLoop_step env this cb t ts st w) as (w1 & ->).
    intros Hrun%IH. rewrite Hrun. cbn [omap list_omap]. unfold record_of at 2.
    rewrite (analyzeThread_stateless env this t Hst (world_with ∅) w).
    destruct (analyzeThread env this t w).1; [|done].
    cbn [push t_articles]. by rewrite <- app_assoc.
Qed.


Lemma elem_of_remaining_threads (existing : list ArticleAnalysis) (threads : list Thread) t :
  t ∈ remaining_threads existing threads ↔ t ∈ threads ∧ no t ∉ threadId <$> existing.
Proof.
  unfold remaining_threads. rewrite list_elem_of_filter, elem_of_list_to_set. tauto.
Qed.




Lemma stub_env_stateless (text : list N) : stateless (stub_env text).
Proof. by repeat split. Qed.

(** ** The life of the checkpoint *)

Lemma saveOutput_other_files (env : Env) (this : ArticleGenerator) (batch : ArticleBatch)
    (w : World) (path : list N) :
  path ≠ tempFile this → path ≠ outputFile this →
  files (saveOutput env this batch w).2 !! path = files w !! path.
Proof.
  intros Htmp Hout.
  unfold saveOutput, fs_mkdir, fs_writeFile, fs_rename, fs_unlink. unfold_m.
  repeat first
    [ progress world_simpl
    | match goal with
      | |- context [fs_fault ?e ?l ?o] => destruct (fs_fault e l o) eqn:?
      | |- context [bool_decide ?P] => destruct (bool_decide_reflect P)
      | |- context [match ?m !! ?k with _ => _ end] => destruct (m !! k) eqn:?
      end ].
  all: by simplify_map_eq.
Qed.

Lemma unlink_progress_gone (env : Env) (this : ArticleGenerator) (w w' : World) :
  try_catch (fs_unlink env (progressFile this)) (λ _, ret ()) w = (Ok (), w') →
  fs_fault env (fs_log w) (Unlink (progressFile this)) = NoFault →
  files w' !! progressFile this = None.
Proof.
  unfold fs_unlink. unfold_m. intros Hrun Hok. rewrite Hok in Hrun.
  destruct (files w !! progressFile this) eqn:Hf; injection Hrun as <-; world_simpl;
    by simplify_map_eq.
Qed.

Lemma progressFile_ne_outputFile (dataDir : list N) config temp :
  let this := new_ArticleGenerator dataDir config temp in
  progressFile this ≠ outputFile this ∧ progressFile this ≠ tempFile this.
Proof.
  cbn. unfold tempFile, resolve_analysis. cbn [outputFile new_ArticleGenerator].
  unfold resolve_analysis. rewrite <- !app_assoc.
  split; intros H%app_inv_head; vm_compute in H; discriminate.
Qed.

(** C8. The checkpoint is unlinked before the output is committed: a run
    that fails, which it does only when the commit fails, has deleted the
    checkpoint already, whenever unlinking it was possible. *)
Theorem checkpoint_deleted_by_failed_job (env : Env) (dataDir : list N)
    (config : option ArticleGeneratorConfig) (temp : option Q)
    (threads : list Thread) (onProgress : option (list N → bool))
    (w w' : World) (e : Err) :
  let this := new_ArticleGenerator dataDir config temp in
  generateArticles env this threads onProgress w = (Throw e, w') →
  (∀ log, fs_fault env log (Unlink (progressFile this)) = NoFault) →
  files w' !! progressFile this = None.
Proof.
  intros this Hrun Hunlink.
  destruct (generateArticles_run env this threads onProgress w)
    as (existing & w0 & w1 & final & w2 & w3 & _ & _ & Hun & Heq).
  cbv zeta in Heq. rewrite Hrun in Heq. unfold after_commit in Heq.
  injection Heq as _ ->.
  destruct (progressFile_ne_outputFile dataDir config temp) as [Hout Htmp].
  rewrite saveOutput_other_files by done. world_simpl.
  by eapply unlink_progress_gone.
Qed.

(** ** The response parsers *)

Lemma ci_char_lower (pc c : N) : JsString.ci_char pc c = true → lower c = lower pc.
Proof.
  unfold JsString.ci_char, JsString.upper, lower.
  intros [Hc Hu%N.eqb_eq]%andb_true_iff. apply N.ltb_lt in Hc. revert Hu.
  repeat match goal with
         | |- context [(?a <=? ?b)%N] => destruct (N.leb_spec a b)
         end; cbn [andb]; lia.
Qed.

Lemma mre_lit_ci (l : list N) (k : cont) :
  ∀ x m, mre (lit_ci l) k x = Some m →
         ∃ mid r, rest x = mid ++ r ∧ lower <$> mid = lower <$> l.
Proof.
  induction l as [|c l IH]; intros x m.
  - by exists [], (rest x).
  - cbn [lit_ci mre]. destruct (rest x) as [|d s] eqn:Hrest; [done|].
    destruct (JsString.ci_char c d) eqn:Hci; [|done].
    intros (mid & r & Hmid & Hlow)%IH. cbn [rest] in Hmid.
    exists (d :: mid), r. rewrite Hmid, !fmap_cons, Hlow.
    by rewrite (ci_char_lower c d Hci).
Qed.

Lemma exec_suffix (r : regex) (s : list N) (m : mstate) :
  exec r s = Some m →
  ∃ pre suf, s = pre ++ suf ∧ mre r Some (MState suf []) = Some m.
Proof.
  induction s as [|c s IH]; cbn [exec].
  - destruct (mre r Some (MState [] [])) eqn:Hm; [|done].
    intros [= <-]. by exists [], [].
  - destruct (mre r Some (MState (c :: s) [])) eqn:Hm.
    + intros [= <-]. by exists [], (c :: s).
    + intros (pre & suf & -> & Hsuf)%IH. by exists (c :: pre), suf.
Qed.

Lemma exec_without_label (label : list N) (r : regex) (s : list N) :
  ¬ has_label label s → exec (Seq (lit_ci label) r) s = None.
Proof.
  intros Hno. destruct (exec _ s) as [m|] eqn:Hexec; [|done].
  apply exec_suffix in Hexec as (pre & suf & -> & Hm). cbn [mre] in Hm.
  apply mre_lit_ci in Hm as (mid & r' & Hrest & Hlow). cbn [rest] in Hrest.
  destruct Hno. exists pre, mid, r'. by rewrite Hrest.
Qed.

Lemma star_loop_greedy_run (p : N → bool) (k : cont) :
  ∀ fuel s cs, length s < fuel →
    star_loop (mre (Chr p)) true k fuel (MState s cs) = greedy_run p k s cs.
Proof.
  induction fuel as [|fuel IH]; intros s cs Hlen; [lia|].
  cbn [star_loop mre rest caps]. destruct s as [|c s]; [done|].
  cbn [greedy_run]. destruct (p c); [|done].
  cbn [rest length]. rewrite (proj2 (Nat.ltb_lt _ _)) by lia.
  rewrite IH by (cbn in Hlen; lia). done.
Qed.

Lemma greedy_run_inv (p : N → bool) (k : cont) (cs : list (nat * list N)) :
  ∀ s m, greedy_run p k s cs = Some m →
         ∃ ds t, s = ds ++ t ∧ Forall (λ c, p c = true) ds ∧ k (MState t cs) = Some m.
Proof.
  induction s as [|c s IH]; intros m; cbn [greedy_run].
  - intros Hk. by exists [], [].
  - destruct (p c) eqn:Hp; [|intros Hk; by exists [], (c :: s)].
    destruct (greedy_run p k s cs) as [m'|] eqn:Hrun.
    + intros [= <-]. destruct (IH m' eq_refl) as (ds & t & -> & Hds & Hk).
      exists (c :: ds), t. split_and!; [done| |done]. by constructor.
    + intros Hk. by exists [], (c :: s).
Qed.

Lemma greedy_run_longest (p : N → bool) (k : cont) (cs : list (nat * list N))
    (ds t : list N) :
  Forall (λ c, p c = true) ds →
  from_option (λ c, p c = false) True (head t) →
  (is_Some (k (MState t cs))
   ∨ ∀ c r, p c = true → k (MState (c :: r) cs) = None) →
  greedy_run p k (ds ++ t) cs = k (MState t cs).
Proof.
  intros Hds Ht Hk. induction Hds as [|d ds Hd Hds IH]; cbn [app greedy_run].
  - destruct t as [|c t]; [done|]. cbn in Ht. cbn [greedy_run]. by rewrite Ht.
  - rewrite Hd, IH. destruct (k (MState t cs)) eqn:Hkt; [done|].
    destruct Hk as [[? [=]]|Hk]. by apply Hk.
Qed.

Lemma digit_not_slash (c : N) : JsString.is_digit c = true → (47 =? c)%N = false.
Proof.
  unfold JsString.is_digit. intros [H1%N.leb_le _]%andb_true_iff.
  apply N.eqb_neq. lia.
Qed.

Lemma consumed_app (X t : list N) cs cs' :
  consumed (MState (X ++ t) cs) (MState t cs') = X.
Proof.
  unfold consumed. cbn [rest]. rewrite length_app.
  replace (length X + length t - length t) with (length X) by lia.
  by rewrite take_app_length.
Qed.

Lemma mre_ratio_tail (t : list N) (cs : list (nat * list N)) :
  mre ratio_tail Some (MState t cs)
  = match t with
    | c :: d :: t' =>
        if (47 =? c)%N && JsString.is_digit d then
          greedy_run JsString.is_digit
            (λ y, Some (MState (rest y) ((2, consumed (MState (d :: t') cs) y) :: caps y)))
            t' cs
        else None
    | _ => None
    end.
Proof.
  unfold ratio_tail, Plus. cbn [mre rest caps].
  destruct t as [|c [|d t']]; [done|by destruct (47 =? c)%N|].
  destruct (47 =? c)%N; [|done]. cbn [andb].
  destruct (JsString.is_digit d); [|done].
  apply star_loop_greedy_run. cbn; lia.
Qed.

Lemma mre_ratio_re (s : list N) :
  mre ratio_re Some (MState s [])
  = match s with
    | c :: s' =>
        if JsString.is_digit c then
          greedy_run JsString.is_digit
            (λ y, mre ratio_tail Some
                    (MState (rest y) ((1, consumed (MState s []) y) :: caps y)))
            s' []
        else None
    | [] => None
    end.
Proof.
  unfold ratio_re, Plus. cbn [mre rest caps].
  destruct s as [|c s']; [done|].
  destruct (JsString.is_digit c); [|done].
  apply star_loop_greedy_run. cbn; lia.
Qed.

(** Where the expression matches, the input starts with digits, a slash
    and a digit. *)
Lemma mre_ratio_re_inv (s : list N) (m : mstate) :
  mre ratio_re Some (MState s []) = Some m →
  ∃ X y r, s = X ++ 47%N :: y :: r ∧ X ≠ [] ∧ all_digits X ∧ JsString.is_digit y = true.
Proof.
  rewrite mre_ratio_re. destruct s as [|c s']; [done|].
  destruct (JsString.is_digit c) eqn:Hc; [|done].
  intros (ds & t & -> & Hds & Hk)%greedy_run_inv.
  rewrite mre_ratio_tail in Hk. cbn [rest] in Hk.
  destruct t as [|c' [|d t']]; [done..|].
  destruct (47 =? c')%N eqn:Hc'; [|done]. apply N.eqb_eq in Hc' as <-.
  destruct (JsString.is_digit d) eqn:Hd; [|done].
  exists (c :: ds), d, t'. split_and!; [done|done| |done]. by constructor.
Qed.

(** At the start of digits, a slash and digits, the expression matches the
    two whole runs. *)
Lemma mre_ratio_re_match (X Y post : list N) :
  X ≠ [] → Y ≠ [] → all_digits X → all_digits Y → not_head_digit post →
  mre ratio_re Some (MState (X ++ [47%N] ++ Y ++ post) [])
  = Some (MState post [(2, Y); (1, X)]).
Proof.
  unfold all_digits. intros HX HY HdX HdY Hpost. rewrite mre_ratio_re.
  destruct X as [|c X']; [done|]. destruct Y as [|d Y']; [done|].
  apply Forall_cons in HdX as [Hc HdX]. apply Forall_cons in HdY as [Hd HdY].
  cbn [app]. rewrite Hc.
  rewrite (greedy_run_longest JsString.is_digit _ [] X' (47%N :: d :: Y' ++ post)); [|done..| ].
  - rewrite mre_ratio_tail. cbn [rest caps]. rewrite Hd. cbn [N.eqb Pos.eqb andb].
    rewrite (greedy_run_longest JsString.is_digit _ _ Y' post); [|done|done|by left].
    cbn [rest caps].
    change (c :: X' ++ 47%N :: d :: Y' ++ post) with ((c :: X') ++ 47%N :: d :: Y' ++ post).
    change (d :: Y' ++ post) with ((d :: Y') ++ post) at 1.
    by rewrite !consumed_app.
  - right. intros c' r Hc'. rewrite mre_ratio_tail. cbn [rest].
    destruct r; [done|]. by rewrite (digit_not_slash c' Hc').
Qed.

Lemma exec_unfold (r : regex) (s : list N) :
  exec r s
  = match mre r Some (MState s []) with
    | Some m => Some m
    | None => match s with [] => None | _ :: s' => exec r s' end
    end.
Proof. by destruct s. Qed.

Lemma not_all_digits (pre k : list N) :
  pre ≠ [] → not_last_digit pre → ¬ all_digits (pre ++ k).
Proof.
  unfold all_digits. intros Hne Hlast Hall. apply last_is_Some in Hne as [c Hc].
  unfold not_last_digit in Hlast. rewrite Hc in Hlast. cbn [from_option] in Hlast.
  apply last_Some in Hc as [pre' ->].
  apply Forall_app in Hall as [Hall _]. apply Forall_app in Hall as [_ Hall].
  rewrite Forall_singleton in Hall. congruence.
Qed.

Lemma has_ratio_after_digits (D X tail : list N) (y : N) :
  D ≠ [] → all_digits D → JsString.is_digit y = true →
  has_ratio (D ++ 47%N :: y :: tail).
Proof.
  unfold all_digits. intros Hne HD Hy. apply last_is_Some in Hne as [x Hx].
  apply last_Some in Hx as [D' ->]. apply Forall_app in HD as [_ HD].
  rewrite Forall_singleton in HD.
  exists D', x, y, tail. by rewrite <- app_assoc.
Qed.

(** No earlier start matches: digits, a slash and a digit that start
    inside [pre] would lie within [pre ++ X], or [pre] would end with a
    digit. *)
Lemma no_earlier_ratio (pre X tail D r : list N) (y : N) :
  pre ≠ [] → not_last_digit pre → X ≠ [] → ¬ has_ratio (pre ++ X) →
  D ≠ [] → all_digits D → JsString.is_digit y = true →
  D ++ 47%N :: y :: r = pre ++ X ++ tail → False.
Proof.
  intros Hpre Hlast HX Hno HD Hall Hy Heq.
  apply app_eq_inv in Heq as [(k & -> & Hk)|(k & -> & Hk)].
  - by apply (not_all_digits pre k).
  - destruct k as [|k0 k'].
    { rewrite app_nil_r in *. apply (not_all_digits D []); [done..|]. by rewrite app_nil_r. }
    injection Hk as <- Hk. apply Hno.
    destruct k' as [|k1 k''].
    + destruct X as [|y' X']; [done|]. injection Hk as <- _.
      rewrite <- app_assoc. apply (has_ratio_after_digits D [] X' y); done.
    + injection Hk as <- _. rewrite <- !app_assoc.
      apply (has_ratio_after_digits D [] (k'' ++ X) y); done.
Qed.

Lemma has_ratio_cons (c : N) (s : list N) : has_ratio s → has_ratio (c :: s).
Proof. intros (pre & x & y & post & -> & Hx & Hy). by exists (c :: pre), x, y, post. Qed.

Lemma exec_first_ratio (s pre X Y post : list N) :
  first_ratio s pre X Y post →
  exec ratio_re s = Some (MState post [(2, Y); (1, X)]).
Proof.
  intros (-> & HX & HY & HdX & HdY & Hlast & Hpost & Hno).
  induction pre as [|p pre IH].
  - rewrite exec_unfold, app_nil_l. by rewrite mre_ratio_re_match.
  - rewrite exec_unfold.
    destruct (mre ratio_re Some (MState ((p :: pre) ++ X ++ [47%N] ++ Y ++ post) [])) as [m|] eqn:Hm.
    { exfalso. apply mre_ratio_re_inv in Hm as (D & y & r & Heq & HD & HdD & Hy).
      by eapply (no_earlier_ratio (p :: pre) X _ D r y). }
    cbn [app]. apply IH.
    + unfold not_last_digit in *. destruct pre as [|p' pre']; [done|].
      by rewrite last_cons_cons in Hlast.
    + intros H. by apply Hno, has_ratio_cons.
Qed.

Lemma exec_without_ratio (s : list N) : ¬ has_ratio s → exec ratio_re s = None.
Proof.
  intros Hno. destruct (exec ratio_re s) as [m|] eqn:Hexec; [|done].
  apply exec_suffix in Hexec as (pre & suf & -> & Hm).
  apply mre_ratio_re_inv in Hm as (D & y & r & -> & HD & HdD & Hy).
  destruct Hno.
  destruct (has_ratio_after_digits D [] r y HD HdD Hy) as (a & x & y' & b & Heq & Hx & Hy').
  exists (pre ++ a), x, y', b. by rewrite Heq, <- app_assoc.
Qed.

Lemma digits_span (l : list N) :
  ∃ ds t, l = ds ++ t ∧ all_digits ds ∧ not_head_digit t.
Proof.
  induction l as [|c l (ds & t & -> & Hds & Ht)].
  { exists [], []. split_and!; [done|constructor|exact I]. }
  destruct (JsString.is_digit c) eqn:Hc.
  - exists (c :: ds), t. split_and!; [done| |done]. by constructor.
  - exists [], (c :: ds ++ t). split_and!; [done|constructor|exact Hc].
Qed.

(** A digit, a slash and a digit at the start make the expression match. *)
Lemma mre_ratio_re_start (c y : N) (b : list N) :
  JsString.is_digit c = true → JsString.is_digit y = true →
  is_Some (mre ratio_re Some (MState (c :: 47%N :: y :: b) [])).
Proof.
  intros Hc Hy. destruct (digits_span b) as (ds & t & -> & Hds & Ht).
  change (c :: 47%N :: y :: ds ++ t) with ([c] ++ [47%N] ++ (y :: ds) ++ t).
  rewrite (mre_ratio_re_match [c] (y :: ds) t); [done|done|done| | |done].
  - by apply Forall_singleton.
  - by constructor.
Qed.

Lemma has_ratio_cons_inv (c : N) (l : list N) :
  has_ratio (c :: l) →
  (JsString.is_digit c = true
   ∧ ∃ y b, l = 47%N :: y :: b ∧ JsString.is_digit y = true)
  ∨ has_ratio l.
Proof.
  intros ([|a pre] & x & y & post & Heq & Hx & Hy).
  - injection Heq as -> ->. left. eauto.
  - injection Heq as -> ->. right. by exists pre, x, y, post.
Qed.

Lemma all_digits_no_ratio (X : list N) : all_digits X → ¬ has_ratio X.
Proof.
  unfold all_digits. intros HX (pre & x & y & post & -> & _ & _).
  apply Forall_app in HX as [_ HX]. cbn [app] in HX.
  apply Forall_cons in HX as [_ HX]. apply Forall_cons in HX as [H47 _]. done.
Qed.

(** A text that holds a digit, a slash and a digit in a row has a first
    X/Y pattern. *)
Lemma first_ratio_exists (s : list N) :
  has_ratio s → ∃ pre X Y post, first_ratio s pre X Y post.
Proof.
  induction s as [|c s IH]; intros Hhas.
  { destruct Hhas as ([|??] & ? & ? & ? & [=] & _). }
  destruct (mre ratio_re Some (MState (c :: s) [])) as [m|] eqn:Hm.
  - apply mre_ratio_re_inv in Hm as (X & y & r & Heq & HX & HdX & Hy).
    destruct (digits_span r) as (ds & post & -> & Hds & Hpost).
    exists [], X, (y :: ds), post. rewrite Heq.
    split_and!; try done.
    + by constructor.
    + cbn [app]. by apply all_digits_no_ratio.
  - assert (Hs : has_ratio s).
    { apply has_ratio_cons_inv in Hhas as [(Hc & y & b & -> & Hy)|Hs]; [|done].
      destruct (mre_ratio_re_start c y b Hc Hy) as [? Hsome]. congruence. }
    destruct (IH Hs) as (pre & X & Y & post & -> & HX & HY & HdX & HdY & Hlast & Hpost & Hno).
    exists (c :: pre), X, Y, post. split_and!; try done.
    + destruct pre as [|p pre'].
      * unfold not_last_digit. cbn.
        destruct (JsString.is_digit c) eqn:Hc; [|done]. exfalso.
        assert (Hsome := mre_ratio_re_match (c :: X) Y post).
        cbn [app] in Hsome, Hm. rewrite Hsome in Hm; [done|done|done| |done|done].
        by constructor.
      * unfold not_last_digit in *. by rewrite last_cons_cons.
    + intros [(Hc & y & b & Heq & Hy)|H]%has_ratio_cons_inv; [|done].
      assert (∃ b', pre ++ X ++ [47%N] ++ Y ++ post = 47%N :: y :: b') as [b' Hb'].
      { change (pre ++ X = 47%N :: y :: b) in Heq.
        rewrite (app_assoc pre X), Heq. by eexists. }
      destruct (mre_ratio_re_start c y b' Hc Hy) as [? Hsome].
      cbn [app] in Hm, Hb'. rewrite Hb' in Hm. congruence.
Qed.

(** C7. The two parsers are functions of the text of the response:
    they return for every text and throw for none. When the text does not
    hold the label HEADLINE: (in any letter case), the headline is
    "Untitled Thread"; when it does not hold ARTICLE:, the article is "No
    content available". When the text holds no digit, slash and digit in a
    row, the classification parser returns (0, 1); otherwise it returns
    the numbers of the first X/Y pattern, and such a first pattern
    exists. *)
Theorem parsers_total (response : list N) :
  (¬ has_label (lit "HEADLINE:") response →
     (parseArticleResponse response).1 = lit "Untitled Thread")
  ∧ (¬ has_label (lit "ARTICLE:") response →
       (parseArticleResponse response).2 = lit "No content available")
  ∧ (¬ has_ratio response → parseAntisemiticResponse response = (0%N, 1%N))
  ∧ (∀ pre X Y post,
       first_ratio response pre X Y post →
       parseAntisemiticResponse response
       = (JsString.parse_digits X, JsString.parse_digits Y))
  ∧ (has_ratio response → ∃ pre X Y post, first_ratio response pre X Y post).
Proof.
  split_and!; [| | | |apply first_ratio_exists].
  - intros Hno. unfold parseArticleResponse. cbn [fst].
    unfold headline_re. rewrite exec_without_label by done. by vm_compute.
  - intros Hno. unfold parseArticleResponse. cbn [snd].
    unfold article_re. rewrite exec_without_label by done. by vm_compute.
  - intros Hno. unfold parseAntisemiticResponse. by rewrite exec_without_ratio.
  - intros pre X Y post Hfirst. unfold parseAntisemiticResponse.
    by rewrite (exec_first_ratio _ _ _ _ _ Hfirst).
Qed.

(** * Instances *)

Lemma sampler_contract_witness :
  (0 < 30)%Q ∧ (30 <= 100)%Q
  ∧ ∃ sample w',
      getPostsToAnalyze (stub_env answer) example_generator (thread_of 1 10) (world_with ∅)
      = (Ok sample, w')
      ∧ length sample = 3.
Proof.
  split; [reflexivity|]. split; [discriminate|].
  destruct (sampler_contract (stub_env answer) example_generator (thread_of 1 10)
              (world_with ∅)) as (sample & w' & Hrun & Hlen & _);
    [reflexivity|discriminate|vm_compute; reflexivity|].
  exists sample, w'. split; [exact Hrun|]. rewrite Hlen. vm_compute. reflexivity.
Defined.

Lemma sub_batcher_partition_witness :
  ∃ flagged w',
    analyzeAntisemiticContent (stub_env answer) (replicate 45 (lit "hello")) (world_with ∅)
    = (Ok (flagged, 45%N), w')
    ∧ length (chat_log w') = 3.
Proof.
  destruct (sub_batcher_partition (stub_env answer) (replicate 45 (lit "hello"))
              (world_with ∅)) as (Hlen & _ & _ & flagged & analyzed & w' & Hrun & Hchat & Hall).
  exists flagged, w'. rewrite Hchat, Hrun, Hall.
  - split; reflexivity.
  - vm_compute. repeat constructor; eexists; reflexivity.
Defined.

Lemma chunk_failure_isolated_witness :
  ∃ record w',
    analyzeThread (scripted [Some answer; None; Some (lit "3/20"); None]) example_generator
      (thread_of 1 200) (world_with ∅)
    = (Ok record, w').
Proof.
  apply (chunk_failure_isolated (scripted [Some answer; None; Some (lit "3/20"); None])).
  vm_compute. eexists; reflexivity.
Defined.

Lemma record_percentage_witness :
  ∃ record w',
    analyzeThread (stub_env answer) example_generator (thread_of 2 0) (world_with ∅)
    = (Ok record, w')
    ∧ analyzedComments (antisemiticStats record) = 0%N
    ∧ percentage (antisemiticStats record) = JNaN.
Proof.
  destruct (analyzeThread (stub_env answer) example_generator (thread_of 2 0) (world_with ∅))
    as [[record|e] w'] eqn:Hrun; vm_compute in Hrun; [|discriminate].
  exists record, w'. split; [reflexivity|].
  assert (Hzero : analyzedComments (antisemiticStats record) = 0%N)
    by (injection Hrun as <- _; reflexivity).
  split; [exact Hzero|].
  apply (record_percentage (stub_env answer) example_generator (thread_of 2 0)
           (world_with ∅) w' record); [|exact Hzero].
  vm_compute. exact Hrun.
Defined.

Lemma average_is_mean_witness :
  first_run = (Ok (returned first_run), first_run.2)
  ∧ averageAntisemiticPercentage (batchStats (returned first_run))
    = mean_percentage (articles (returned first_run)).
Proof.
  assert (Hrun : first_run = (Ok (returned first_run), first_run.2))
    by (vm_compute; reflexivity).
  split; [exact Hrun|].
  exact (average_is_mean (stub_env answer) example_generator two_threads None
           (world_with ∅) first_run.2 (returned first_run) Hrun).
Defined.


Lemma checkpoint_deleted_by_failed_job_witness :
  is_Some (files stale_world !! progressFile example_generator)
  ∧ (∃ e, failed_run.1 = Throw e)
  ∧ files failed_run.2 !! progressFile example_generator = None.
Proof.
  split; [eexists; apply lookup_singleton_eq|].
  assert (Hrun : ∃ e, failed_run = (Throw e, failed_run.2))
    by (eexists; vm_compute; reflexivity).
  destruct Hrun as [e Hrun]. split.
  - exists e. by rewrite Hrun.
  - exact (checkpoint_deleted_by_failed_job rename_fails (lit "/data") None None
             two_threads None stale_world failed_run.2 e Hrun (λ _, eq_refl)).
Defined.

Lemma has_ratio_slash (s : list N) : has_ratio s → In 47%N s.
Proof.
  intros (pre & x & y & post & -> & _). apply in_or_app. right. right. by left.
Qed.

Lemma parsers_total_witness :
  parseAntisemiticResponse (lit "a 12/345 6/7") = (12%N, 345%N)
  ∧ parseAntisemiticResponse (lit "none of them") = (0%N, 1%N)
  ∧ (parseArticleResponse (lit "the model refused")).1 = lit "Untitled Thread".
Proof.
  split; [|split].
  - destruct (parsers_total (lit "a 12/345 6/7")) as (_ & _ & _ & Hfirst & _).
    apply (Hfirst (lit "a ") (lit "12") (lit "345") (lit " 6/7")).
    split_and!; try (by vm_compute).
    + repeat constructor.
    + repeat constructor.
    + intros H%has_ratio_slash. vm_compute in H. intuition discriminate.
  - destruct (parsers_total (lit "none of them")) as (_ & _ & Hnone & _).
    apply Hnone. intros H%has_ratio_slash. vm_compute in H. intuition discriminate.
  - destruct (parsers_total (lit "the model refused")) as (Hhead & _).
    apply Hhead. intros (pre & mid & post & Heq & Hlow).
    assert (Hlen : length mid = 9) by (apply (f_equal length) in Hlow; by rewrite !length_fmap in Hlow).
    assert (Hcolon : In 58%N (lower <$> lit "the model refused")).
    { rewrite Heq, !fmap_app, Hlow. apply in_or_app. right. apply in_or_app. left.
      vm_compute. tauto. }
    vm_compute in Hcolon. intuition discriminate.
Defined.

(** * Further properties *)

(** ** The checkpoint store *)

Lemma saveProgress_run (env : Env) (this : ArticleGenerator)
    (arts : list ArticleAnalysis) (w : World) :
  ∃ w',
    saveProgress env this arts w = (Ok (), w')
    ∧ (∀ path, path ≠ progressFile this → files w' !! path = files w !! path)
    ∧ chat_log w' = chat_log w ∧ samples w' = samples w
    ∧ progress_calls w' = progress_calls w
    ∧ (files w' !! progressFile this = files w !! progressFile this
       ∨ files w' !! progressFile this = Some Corrupt
       ∨ files w' !! progressFile this
         = Some (ProgressDoc (json_analysis <$> arts) (now env (clock_reads w)))).
Proof.
  unfold saveProgress, fs_mkdir, fs_writeFile. unfold_m.
  destruct (fs_fault env (fs_log w) _); world_simpl.
  2,3: eexists; split_and!; try done; by left.
  destruct (fs_fault env _ _); world_simpl; eexists; split_and!; try done;
    try (intros path Hpath; world_simpl; by simplify_map_eq).
  - right. right. world_simpl. by simplify_map_eq.
  - by left.
  - right. left. world_simpl. by simplify_map_eq.
Qed.

Lemma json_analysis_fixed (a : ArticleAnalysis) :
  json_analysis a = a ↔ survives_json (percentage (antisemiticStats a)).
Proof.
  destruct a as [id h t [n m p] md]. unfold json_analysis.
  cbn [threadId headline article antisemiticStats analyzedComments antisemiticComments
       percentage metadata].
  destruct p; cbn [json_number survives_json]; split; (done || congruence).
Qed.

Lemma json_analysis_idemp (a : ArticleAnalysis) :
  json_analysis (json_analysis a) = json_analysis a.
Proof.
  apply json_analysis_fixed. unfold json_analysis. cbn [antisemiticStats percentage].
  by destruct (percentage (antisemiticStats a)).
Qed.


(** X1. On a disk without faults, [loadProgress] reads back the
    checkpoint that [saveProgress] wrote as JSON keeps it: the saved
    records, with [null] for every percentage that was not a finite
    number. They are the saved records themselves exactly when no
    percentage is NaN or infinite, and saving and loading them once more
    changes nothing. *)
Theorem checkpoint_round_trip (env : Env) (this : ArticleGenerator)
    (arts : list ArticleAnalysis) (w : World) :
  fault_free env →
  ∃ w1 w2,
    saveProgress env this arts w = (Ok (), w1)
    ∧ loadProgress env this w1 = (Ok (json_analysis <$> arts), w2)
    ∧ (json_analysis <$> arts = arts
       ↔ Forall (λ a, survives_json (percentage (antisemiticStats a))) arts)
    ∧ json_analysis <$> (json_analysis <$> arts) = json_analysis <$> arts.
Proof.
  intros Hfree.
  unfold saveProgress, loadProgress, fs_mkdir, fs_writeFile, fs_readFile. unfold_m.
  rewrite !Hfree. world_simpl. eexists _, _. split; [reflexivity|].
  world_simpl. rewrite Hfree, lookup_insert_eq. split; [reflexivity|]. split.
  - induction arts as [|a arts IH]; [split; [constructor|done]|].
    rewrite fmap_cons, Forall_cons, <- IH, <- json_analysis_fixed.
    split; [intros [= Ha Harts]; by rewrite Ha, Harts|intros [-> ->]; done].
  - rewrite <- list_fmap_compose. apply list_fmap_ext. intros i a _. apply json_analysis_idemp.
Qed.

(** X2. [loadProgress] never throws and changes no file. It returns the
    empty list when the checkpoint is missing, when reading it fails and
    when it does not parse; otherwise it returns the articles of the
    document, be it a checkpoint or an output. *)
Theorem loadProgress_tolerant (env : Env) (this : ArticleGenerator) (w : World) :
  ∃ w' ok,
    loadProgress env this w
    = (Ok match fs_fault env (fs_log w) (ReadFile (progressFile this)),
                files w !! progressFile this with
          | NoFault, Some (ProgressDoc arts _) => arts
          | NoFault, Some (OutputDoc batch _) => articles batch
          | _, _ => []
          end, w')
    ∧ files w' = files w
    ∧ fs_log w' = fs_log w ++ [(ReadFile (progressFile this), ok)].
Proof.
  unfold loadProgress, fs_readFile. unfold_m.
  destruct (fs_fault env _ _) eqn:Hfault, (files w !! progressFile this) as [[| |]|] eqn:Hfile;
    eexists _, _; split_and!; reflexivity.
Qed.

(** X3. [saveProgress] never throws and changes no file but the
    checkpoint, which afterwards is as before, truncated, or the new
    checkpoint; a truncated checkpoint is read back as empty. *)
Theorem saveProgress_best_effort (env : Env) (this : ArticleGenerator)
    (arts : list ArticleAnalysis) (w : World) :
  ∃ w',
    saveProgress env this arts w = (Ok (), w')
    ∧ (∀ path, path ≠ progressFile this → files w' !! path = files w !! path)
    ∧ (files w' !! progressFile this = files w !! progressFile this
       ∨ (files w' !! progressFile this = Some Corrupt
          ∧ ∃ w'', loadProgress env this w' = (Ok [], w''))
       ∨ files w' !! progressFile this
         = Some (ProgressDoc (json_analysis <$> arts) (now env (clock_reads w)))).
Proof.
  destruct (saveProgress_run env this arts w) as (w' & Hrun & Hother & _ & _ & _ & Hfile).
  exists w'. split_and!; [done..|].
  destruct Hfile as [H|[H|H]]; [by left| |by right; right].
  right. left. split; [done|].
  unfold loadProgress, fs_readFile. unfold_m. rewrite H.
  destruct (fs_fault env _ _); by eexists.
Qed.

(** ** The thread analyzer, its requests and its record *)

Lemma getPostsToAnalyze_frame (env : Env) (this : ArticleGenerator) (thread : Thread) (w : World) :
  ∃ w',
    getPostsToAnalyze env this thread w = (Ok (sample_of env this thread (samples w)), w')
    ∧ chat_log w' = chat_log w ∧ files w' = files w ∧ fs_log w' = fs_log w
    ∧ progress_calls w' = progress_calls w.
Proof.
  unfold getPostsToAnalyze, sample_of.
  destruct (posts thread) as [[|p ps]|]; unfold_m; by eexists.
Qed.

Lemma parseArticleResponse_console_frame (headline article : list N) (w : World) :
  ∃ w',
    parseArticleResponse_console headline article w = (Ok (), w')
    ∧ chat_log w' = chat_log w ∧ files w' = files w ∧ fs_log w' = fs_log w
    ∧ progress_calls w' = progress_calls w.
Proof.
  unfold parseArticleResponse_console. unfold_m.
  destruct (_ || _); by eexists.
Qed.

(** The requests of the analysis of a thread, and what it leaves alone. *)
Lemma analyzeThread_trace (env : Env) (this : ArticleGenerator) (thread : Thread) (w : World) :
  let sample := sample_of env this thread (samples w) in
  let req := summary_request this sample in
  ∃ r w',
    analyzeThread env this thread w = (r, w')
    ∧ chat_log w'
      = chat_log w
        ++ req :: match respond env (chat_log w) req with
                  | Some _ => antisemiticPrompt <$> batches 20 (validPostsOf sample)
                  | None => []
                  end
    ∧ (is_Some (respond env (chat_log w) req) ↔ ∃ record, r = Ok record)
    ∧ files w' = files w ∧ fs_log w' = fs_log w
    ∧ progress_calls w' = progress_calls w.
Proof.
  intros sample req. unfold analyzeThread. unfold bind at 1.
  destruct (getPostsToAnalyze_frame env this thread w) as (w1 & -> & Hc1 & Hf1 & Hl1 & Hp1).
  fold sample. unfold bind at 1. unfold chat at 1. rewrite Hc1. fold req.
  change (articlePrompt _ _) with req.
  destruct (respond env (chat_log w) req) as [text|].
  2: { eexists _, _. split; [reflexivity|]. world_simpl. split_and!; try done.
       split; [by intros [? ?]|by intros [? ?]]. }
  destruct (parseArticleResponse text) as [headline article] eqn:Hparse.
  unfold bind at 1.
  destruct (parseArticleResponse_console_frame headline article
              (set_chat_log (chat_log w ++ [req]) w1)) as (w2 & -> & Hc2 & Hf2 & Hl2 & Hp2).
  world_simpl. unfold bind at 1.
  destruct (analyzeAntisemiticContent_spec env (validPostsOf sample) w2)
    as (w3 & -> & Hc3 & _ & Hfr3).
  destruct Hfr3 as (Hf3 & Hl3 & _ & _ & Hp3).
  unfold_m. eexists _, _. split; [reflexivity|]. world_simpl.
  split_and!; try congruence.
  - rewrite Hc3, Hc2, <- app_assoc. done.
  - split; [intros _; by eexists|by eexists].
Qed.

Lemma validPostsOf_length (sample : list Post) :
  length (validPostsOf sample) ≤ length sample.
Proof.
  unfold validPostsOf. induction sample as [|p sample IH]; [done|].
  cbn [omap list_omap]. destruct (com p) as [[|c s]|]; cbn [length]; lia.
Qed.

Lemma sample_of_length (env : Env) (this : ArticleGenerator) (thread : Thread) (n : nat) :
  length (sample_of env this thread n) ≤ length (default [] (posts thread)).
Proof.
  unfold sample_of. destruct (posts thread) as [[|p ps]|]; cbn [default from_option id length];
    [lia| |lia].
  rewrite randomSample_length. cbn [length]. lia.
Qed.

(** X7. A record that the thread analyzer returns carries the identifier
    of its thread and the number of its posts; its analyzed comments are
    at most its sampled posts, which are at most the posts of the thread. *)
Theorem record_counts (env : Env) (this : ArticleGenerator) (thread : Thread)
    (w w' : World) (record : ArticleAnalysis) :
  analyzeThread env this thread w = (Ok record, w') →
  threadId record = no thread
  ∧ totalPosts (metadata record) = N.of_nat (length (default [] (posts thread)))
  ∧ (analyzedComments (antisemiticStats record) ≤ analyzedPosts (metadata record))%N
  ∧ (analyzedPosts (metadata record) ≤ totalPosts (metadata record))%N.
Proof.
  intros Hrun.
  destruct (analyzeThread_spec env this thread w) as (w1 & Hspec & _).
  rewrite Hrun in Hspec. destruct (respond env _ _) as [text|]; [|done].
  injection Hspec as -> _.
  cbn [thread_record threadId metadata antisemiticStats totalPosts analyzedPosts
       analyzedComments].
  assert (Htotal : from_option length 0 (posts thread) = length (default [] (posts thread)))
    by (by destruct (posts thread)).
  rewrite Htotal. split_and!; [done|done| |].
  - pose proof (validPostsOf_length (sample_of env this thread (samples w))) as Hvalid.
    destruct (analyzed_le_size env
                (batches 20 (validPostsOf (sample_of env this thread (samples w))))
                (chat_log w ++ [summary_request this (sample_of env this thread (samples w))]))
      as [Hle _].
    rewrite batches_concat in Hle. lia.
  - pose proof (sample_of_length env this thread (samples w)). lia.
Qed.

(** X8. The analysis of a thread first sends its summary request. When
    that call fails, nothing else is sent and the analysis throws; when it
    succeeds, the classification requests of the chunks of the non-empty
    sampled posts follow, one per chunk, and the analysis returns. *)
Theorem thread_requests (env : Env) (this : ArticleGenerator) (thread : Thread) (w : World) :
  let sample := sample_of env this thread (samples w) in
  let request := summary_request this sample in
  ∃ r w',
    analyzeThread env this thread w = (r, w')
    ∧ match respond env (chat_log w) request with
      | None => r = Throw ChatError ∧ chat_log w' = chat_log w ++ [request]
      | Some _ =>
          (∃ record, r = Ok record)
          ∧ chat_log w'
            = chat_log w ++ request :: (antisemiticPrompt <$> batches 20 (validPostsOf sample))
          ∧ length (chat_log w')
            = length (chat_log w) + 1 + ceil_div (length (validPostsOf sample)) 20
      end.
Proof.
  intros sample request.
  destruct (analyzeThread_trace env this thread w) as (r & w' & Hrun & Hchat & Hok & _).
  destruct (analyzeThread_spec env this thread w) as (w1 & Hspec & _).
  fold sample request in Hchat, Hok, Hspec. rewrite Hrun in Hspec.
  exists r, w'. split; [done|].
  destruct (respond env (chat_log w) request) as [text|].
  - split_and!; [by apply Hok| done |].
    rewrite Hchat, length_app. cbn [length]. rewrite length_fmap, batches_length. lia.
  - injection Hspec as -> _. done.
Qed.

(** ** The job runner: order, identifiers, totals, callback, disk *)

Lemma analyzeThread_threadId (env : Env) (this : ArticleGenerator) (thread : Thread)
    (w : World) (a : ArticleAnalysis) :
  (analyzeThread env this thread w).1 = Ok a → threadId a = no thread.
Proof.
  destruct (analyzeThread_spec env this thread w) as (w1 & -> & _). cbn [fst].
  destruct (respond env _ _); [|done]. by intros [= <-].
Qed.

(** One round of the loop over the threads, with the calls of the
    callback. *)
Lemma threadLoop_step_calls (env : Env) (this : ArticleGenerator)
    (cb : option (list N → bool)) (t : Thread) (ts : list Thread)
    (st : Totals) (w : World) :
  ∃ w1,
    threadLoop env this cb (t :: ts) st w
    = threadLoop env this cb ts
        (match (analyzeThread env this t w).1 with
         | Ok analysis => push st analysis
         | Throw _ => st
         end) w1
    ∧ progress_calls w1
      = progress_calls w
        ++ match (analyzeThread env this t w).1, cb with
           | Ok _, Some _ => [JsString.of_N (no t)]
           | _, _ => []
           end.
Proof.
  cbn [threadLoop]. unfold bind at 1. unfold try_catch at 1. unfold bind at 1.
  destruct (analyzeThread_trace env this t w) as (r & w0 & Hrun & _ & _ & _ & _ & Hp0).
  rewrite Hrun. cbn [fst]. destruct r as [analysis|e].
  - unfold ret at 1. unfold bind at 1.
    destruct (saveProgress_run env this (t_articles (push st analysis)) w0)
      as (w1 & -> & _ & _ & _ & Hp1 & _).
    unfold bind at 1.
    destruct cb as [callback|]; unfold_m.
    + destruct (callback _); eexists; (split; [reflexivity|]); world_simpl; congruence.
    + eexists; split; [reflexivity|]. rewrite app_nil_r. congruence.
  - unfold failed_thread. unfold_m. eexists; split; [reflexivity|].
    world_simpl. by rewrite app_nil_r.
Qed.

(** What the loop adds: records of threads of the list, in the order of
    the list, and one call of the callback for each. *)
Lemma threadLoop_new (env : Env) (this : ArticleGenerator) (cb : option (list N → bool)) :
  ∀ ts st w st' w',
    threadLoop env this cb ts st w = (Ok st', w') →
    ∃ new,
      t_articles st' = t_articles st ++ new
      ∧ threadId <$> new `sublist_of` no <$> ts
      ∧ progress_calls w'
        = progress_calls w
          ++ match cb with
             | Some _ => (λ a, JsString.of_N (threadId a)) <$> new
             | None => []
             end.
Proof.
  intros ts. induction ts as [|t ts IH]; intros st w st' w'.
  - intros [= <- <-]. exists []. split_and!.
    + by rewrite app_nil_r.
    + constructor.
    + destruct cb; cbn [fmap list_fmap]; by rewrite app_nil_r.
  - destruct (threadLoop_step_calls env this cb t ts st w) as (w1 & -> & Hcalls).
    pose proof (analyzeThread_threadId env this t w) as Hid.
    destruct (analyzeThread env this t w).1 as [analysis|e].
    + intros (new & Harts & Hsub & Hp)%IH. exists (analysis :: new).
      cbn [push t_articles] in Harts. rewrite Harts, <- app_assoc.
      split_and!; [done| |].
      * rewrite !fmap_cons, (Hid analysis eq_refl). by apply sublist_skip.
      * rewrite Hp, Hcalls. destruct cb; rewrite <- app_assoc; [|done].
        by rewrite fmap_cons, (Hid analysis eq_refl).
    + intros (new & Harts & Hsub & Hp)%IH. exists new.
      split_and!; [done| |].
      * rewrite fmap_cons. by apply sublist_cons.
      * rewrite Hp, Hcalls. by rewrite app_nil_r.
Qed.

Lemma foldl_sumN {A} (f : A → N) (l : list A) :
  ∀ acc, foldl (λ sum a, sum + f a)%N acc l = (acc + sumN (f <$> l))%N.
Proof.
  induction l as [|a l IH]; intros acc.
  - cbn. lia.
  - rewrite fmap_cons. cbn [foldl sumN foldr]. rewrite IH.
    change (foldr N.add 0%N (f <$> l)) with (sumN (f <$> l)). lia.
Qed.

Lemma saveOutput_calls (env : Env) (this : ArticleGenerator) (batch : ArticleBatch) (w : World) :
  progress_calls (saveOutput env this batch w).2 = progress_calls w.
Proof.
  unfold saveOutput, fs_mkdir, fs_writeFile, fs_rename, fs_unlink. unfold_m.
  repeat first
    [ progress world_simpl
    | match goal with
      | |- context [fs_fault ?e ?l ?o] => destruct (fs_fault e l o) eqn:?
      | |- context [bool_decide ?P] => destruct (bool_decide_reflect P)
      | |- context [match ?m !! ?k with _ => _ end] => destruct (m !! k) eqn:?
      end ]; reflexivity.
Qed.

(** The steps of a run, with the calls of the callback. *)
Lemma generateArticles_calls (env : Env) (this : ArticleGenerator) (threads : list Thread)
    (cb : option (list N → bool)) (w : World) :
  ∃ existing w0 w1 final w2 w3,
    loadProgress env this w = (Ok existing, w0)
    ∧ threadLoop env this cb (remaining_threads existing threads) (start_totals existing) w1
      = (Ok final, w2)
    ∧ progress_calls w1 = progress_calls w
    ∧ progress_calls w3 = progress_calls w2
    ∧ let batch := batch_of final (now env (clock_reads w3)) in
      generateArticles env this threads cb w
      = after_commit batch
          (saveOutput env this batch (set_clock_reads (S (clock_reads w3)) w3)).
Proof.
  unfold generateArticles. unfold bind at 1.
  assert (Hload : ∃ existing w0,
            loadProgress env this w = (Ok existing, w0)
            ∧ progress_calls w0 = progress_calls w).
  { unfold loadProgress, fs_readFile. unfold_m.
    destruct (fs_fault env _ _); [|by eexists _, _..].
    destruct (files w !! _) as [[| |]|]; by eexists _, _. }
  destruct Hload as (existing & w0 & Hload & Hp0). rewrite Hload.
  unfold bind at 1.
  fold (remaining_threads existing threads). fold (start_totals existing).
  set (m := if 0 <? length existing then _ else _).
  assert (Hm : ∃ w1, m w0 = (Ok (), w1) ∧ progress_calls w1 = progress_calls w0).
  { subst m. destruct (0 <? length existing); unfold_m; by eexists. }
  destruct Hm as (w1 & -> & Hp1). unfold bind at 1.
  destruct (threadLoop_spec env this cb (remaining_threads existing threads)
              (start_totals existing) w1) as (final & w2 & Hloop & _).
  rewrite Hloop. unfold bind at 1.
  assert (Hun : ∃ w3,
            try_catch (fs_unlink env (progressFile this)) (λ _, ret ()) w2 = (Ok (), w3)
            ∧ progress_calls w3 = progress_calls w2).
  { unfold fs_unlink. unfold_m.
    destruct (fs_fault env _ _), (files w2 !! progressFile this); by eexists. }
  destruct Hun as (w3 & -> & Hp3).
  unfold bind at 1. unfold Date_now at 1. unfold bind at 1.
  exists existing, w0, w1, final, w2, w3. split_and!; [done|done|congruence|done|].
  cbv zeta. unfold after_commit, batch_of, average_of.
  by destruct (saveOutput _ _ _ _) as [[[]|e] w4].
Qed.

(** ** Resumed runs: what is sent and what is returned *)









(** *** Where the claim fails *)











(** X9. With a deterministic stub, the records of the result are the
    records of the checkpoint followed by the records of the remaining
    threads whose analysis returns, in the order of the input: a thread
    whose analysis throws loses its own record only, and the callback,
    even one that throws, changes no record. *)
Theorem records_in_input_order (env : Env) (this : ArticleGenerator) (threads : list Thread)
    (onProgress : option (list N → bool)) (w w' : World) (batch : ArticleBatch) :
  stateless env →
  generateArticles env this threads onProgress w = (Ok batch, w') →
  ∃ existing w0,
    loadProgress env this w = (Ok existing, w0)
    ∧ articles batch
      = existing ++ omap (record_of env this) (remaining_threads existing threads).
Proof.
  intros Hst (existing & w0 & w1 & final & w2 & Hload & Hloop & Harts & _)%generateArticles_inv.
  exists existing, w0. split; [done|].
  apply (threadLoop_stateless env this _ Hst) in Hloop. by rewrite Harts, Hloop.
Qed.

(** X10. The callback is called once for each thread that is analyzed
    with success in this run, with the identifier of the thread in decimal
    and in the order of the records; it is called for no thread of the
    checkpoint and for no thread whose analysis threw. *)
Theorem onProgress_calls (env : Env) (this : ArticleGenerator) (threads : list Thread)
    (callback : list N → bool) (w w' : World) (batch : ArticleBatch) :
  generateArticles env this threads (Some callback) w = (Ok batch, w') →
  ∃ existing w0 new,
    loadProgress env this w = (Ok existing, w0)
    ∧ articles batch = existing ++ new
    ∧ progress_calls w'
      = progress_calls w ++ ((λ a, JsString.of_N (threadId a)) <$> new).
Proof.
  intros Hrun.
  destruct (generateArticles_calls env this threads (Some callback) w)
    as (existing & w0 & w1 & final & w2 & w3 & Hload & Hloop & Hp1 & Hp3 & Heq).
  cbv zeta in Heq. rewrite Hrun in Heq. unfold after_commit in Heq.
  pose proof (saveOutput_calls env this (batch_of final (now env (clock_reads w3)))
                (set_clock_reads (S (clock_reads w3)) w3)) as Hs.
  destruct (saveOutput _ _ _ _) as [[[]|e] w4]; [|done].
  cbn [fst snd] in Heq, Hs. injection Heq as -> ->. world_simpl.
  apply threadLoop_new in Hloop as (new & Hnew & _ & Hcalls).
  exists existing, w0, new. split_and!; [done|done|].
  by rewrite Hs, Hp3, Hcalls, Hp1.
Qed.

(** X6. When the identifiers of the checkpoint are pairwise distinct and
    those of the threads are too, the identifiers of the records of the
    result are pairwise distinct. *)
Theorem result_identifiers_distinct (env : Env) (this : ArticleGenerator)
    (threads : list Thread) (onProgress : option (list N → bool)) (w w0 w' : World)
    (existing : list ArticleAnalysis) (batch : ArticleBatch) :
  loadProgress env this w = (Ok existing, w0) →
  NoDup (threadId <$> existing) →
  NoDup (no <$> threads) →
  generateArticles env this threads onProgress w = (Ok batch, w') →
  NoDup (threadId <$> articles batch).
Proof.
  intros Hload Hex Hth
    (existing' & a & w1 & final & w2 & Hload' & Hloop & Harts & _)%generateArticles_inv.
  rewrite Hload in Hload'. injection Hload' as <- _.
  apply threadLoop_new in Hloop as (new & Hnew & Hsub & _).
  cbn [start_totals t_articles] in Hnew. rewrite Harts, Hnew, fmap_app.
  assert (Hrem : no <$> remaining_threads existing threads `sublist_of` no <$> threads).
  { unfold remaining_threads. apply fmap_sublist, sublist_filter. }
  apply NoDup_app. split_and!; [done| |].
  - intros x Hx Hx'.
    apply (elem_of_sublist _ _ _ Hx') in Hsub.
    apply list_elem_of_fmap in Hsub as (t & -> & Ht).
    apply elem_of_remaining_threads in Ht as [_ Ht]. done.
  - eapply sublist_NoDup; [|exact Hsub]. eapply sublist_NoDup; [|exact Hrem]. done.
Qed.

(** X5. In the result of a run, the number of threads is the number of
    records, and the number of analyzed posts is the sum of the sampled
    posts of all the records, those of the checkpoint included. *)
Theorem batch_totals (env : Env) (this : ArticleGenerator) (threads : list Thread)
    (onProgress : option (list N → bool)) (w w' : World) (batch : ArticleBatch) :
  generateArticles env this threads onProgress w = (Ok batch, w') →
  totalThreads (batchStats batch) = N.of_nat (length (articles batch))
  ∧ totalAnalyzedPosts (batchStats batch)
    = sumN ((λ a, analyzedPosts (metadata a)) <$> articles batch).
Proof.
  intros Hrun.
  destruct (generateArticles_run env this threads onProgress w)
    as (existing & w0 & w1 & final & w2 & w3 & _ & Hloop & _ & Heq).
  cbv zeta in Heq. rewrite Hrun in Heq. unfold after_commit in Heq.
  destruct (saveOutput _ _ _ _).1; [|done]. injection Heq as -> _.
  cbn [batch_of articles batchStats totalThreads totalAnalyzedPosts]. split; [done|].
  destruct (threadLoop_spec env this onProgress (remaining_threads existing threads)
              (start_totals existing) w1) as (final' & w2' & Hloop' & Hok & _).
  rewrite Hloop in Hloop'. injection Hloop' as <- <-.
  destruct Hok as [_ Htotal]; [done|].
  by rewrite Htotal, foldl_sumN, N.add_0_l.
Qed.

(** X4. After a run that returns, the output file holds the batch that
    was returned and there is no temporary file; with a generator made by
    the constructor, the checkpoint is gone as well whenever unlinking it
    was possible. *)
Theorem disk_after_success (env : Env) (dataDir : list N)
    (config : option ArticleGeneratorConfig) (temp : option Q)
    (threads : list Thread) (onProgress : option (list N → bool))
    (w w' : World) (batch : ArticleBatch) :
  let this := new_ArticleGenerator dataDir config temp in
  generateArticles env this threads onProgress w = (Ok batch, w') →
  (∃ timestamp, files w' !! outputFile this = Some (OutputDoc (json_batch batch) timestamp))
  ∧ files w' !! tempFile this = None
  ∧ ((∀ log, fs_fault env log (Unlink (progressFile this)) = NoFault) →
     files w' !! progressFile this = None).
Proof.
  intros this Hrun.
  destruct (generateArticles_run env this threads onProgress w)
    as (existing & w0 & w1 & final & w2 & w3 & _ & _ & Hun & Heq).
  cbv zeta in Heq. rewrite Hrun in Heq. unfold after_commit in Heq.
  set (b := batch_of final (now env (clock_reads w3))) in *.
  set (w4 := set_clock_reads (S (clock_reads w3)) w3) in *.
  destruct (saveOutput_spec env this b w4) as (r & w5 & Hsave & Hcases).
  pose proof (saveOutput_other_files env this b w4 (progressFile this)) as Hother.
  rewrite Hsave in Heq, Hother. cbn [fst snd] in Heq, Hother.
  destruct r as [[]|e]; [|done]. injection Heq as -> ->.
  destruct Hcases as (_ & Hout & Htmp). split_and!; [by eexists|done|].
  intros Hok. destruct (progressFile_ne_outputFile dataDir config temp) as [Hne1 Hne2].
  rewrite Hother by done. subst w4. world_simpl.
  by eapply unlink_progress_gone.
Qed.

(** ** What the summary parser returns *)

Lemma trim_start_suffix (s : list N) : ∃ ws, s = ws ++ JsString.trim_start s.
Proof.
  induction s as [|c s [ws IH]]; [by exists []|].
  cbn [JsString.trim_start]. destruct (JsString.is_space c).
  - exists (c :: ws). cbn [app]. by rewrite <- IH.
  - by exists [].
Qed.

Lemma trim_start_head (s : list N) :
  from_option (λ c, JsString.is_space c = false) True (head (JsString.trim_start s)).
Proof.
  induction s as [|c s IH]; [done|].
  cbn [JsString.trim_start]. by destruct (JsString.is_space c) eqn:Hc.
Qed.

(** [trim s] is what is left of [s] between two runs of white space. *)
Lemma trim_infix (s : list N) : ∃ l r, s = l ++ JsString.trim s ++ r.
Proof.
  unfold JsString.trim.
  destruct (trim_start_suffix s) as [l Hl].
  destruct (trim_start_suffix (reverse (JsString.trim_start s))) as [r Hr].
  exists l, (reverse r). rewrite <- reverse_app, <- Hr, reverse_involutive. done.
Qed.

Lemma trim_trimmed (s : list N) : trimmed (JsString.trim s).
Proof.
  unfold trimmed, JsString.trim.
  set (t1 := JsString.trim_start s).
  set (t2 := JsString.trim_start (reverse t1)).
  split.
  - rewrite head_reverse.
    destruct (trim_start_suffix (reverse t1)) as [r Hr]. fold t2 in Hr.
    destruct (last t2) as [c|] eqn:Hlast; [|done]. cbn [from_option].
    assert (Hc : last (reverse t1) = Some c) by (rewrite Hr, last_app, Hlast; done).
    rewrite last_reverse in Hc.
    pose proof (trim_start_head s) as Hh. fold t1 in Hh. by rewrite Hc in Hh.
  - rewrite last_reverse. apply trim_start_head.
Qed.

Lemma remove_double_star_head (c : N) (s : list N) :
  c ≠ 42%N → head (JsString.remove_double_star (c :: s)) = Some c.
Proof.
  intros Hc. cbn [JsString.remove_double_star]. destruct s as [|c' s]; [done|].
  destruct (c =? 42)%N eqn:Heq; [by apply N.eqb_eq in Heq|]. done.
Qed.

Lemma remove_double_star_cons (c c' : N) (s : list N) :
  JsString.remove_double_star (c :: c' :: s)
  = if ((c =? 42) && (c' =? 42))%N then JsString.remove_double_star s
    else c :: JsString.remove_double_star (c' :: s).
Proof. reflexivity. Qed.

Lemma has_double_star_cons (c : N) (s : list N) :
  has_double_star (c :: s) →
  (c = 42%N ∧ head s = Some 42%N) ∨ has_double_star s.
Proof.
  intros ([|a pre] & post & Heq).
  - injection Heq as -> ->. by left.
  - injection Heq as -> ->. right. by exists pre, post.
Qed.

Lemma remove_double_star_clean :
  ∀ n s, length s ≤ n → ¬ has_double_star (JsString.remove_double_star s).
Proof.
  induction n as [|n IH]; intros s Hlen.
  { destruct s; [|cbn in Hlen; lia]. intros ([|??] & ? & [=]). }
  destruct s as [|c [|c' s]].
  - intros ([|??] & ? & [=]).
  - intros ([|? [|??]] & ? & [=]).
  - rewrite remove_double_star_cons.
    destruct ((c =? 42) && (c' =? 42))%N eqn:Hcc.
    + apply IH. cbn in Hlen. lia.
    + intros [[-> Hhead]|Hrest]%has_double_star_cons.
      * cbn [N.eqb Pos.eqb andb] in Hcc. apply N.eqb_neq in Hcc.
        rewrite remove_double_star_head in Hhead by done. congruence.
      * revert Hrest. apply IH. cbn in Hlen |- *. lia.
Qed.

Lemma has_double_star_infix (l s r : list N) :
  has_double_star s → has_double_star (l ++ s ++ r).
Proof.
  intros (pre & post & ->). exists (l ++ pre), (post ++ r).
  by rewrite <- !app_assoc.
Qed.

(** X12. The headline and the article that the summary parser returns
    hold no two asterisks in a row, and neither starts nor ends with white
    space, whatever the response. *)
Theorem parsed_text_clean (response : list N) :
  let '(headline, article) := parseArticleResponse response in
  ¬ has_double_star headline ∧ trimmed headline
  ∧ ¬ has_double_star article ∧ trimmed article.
Proof.
  unfold parseArticleResponse.
  assert (Hclean : ∀ s, ¬ has_double_star (JsString.trim (JsString.remove_double_star s))).
  { intros s Hstar.
    destruct (trim_infix (JsString.remove_double_star s)) as (l & r & Heq).
    apply (remove_double_star_clean (length s) s); [done|].
    rewrite Heq. by apply has_double_star_infix. }
  split_and!; first [apply Hclean | apply trim_trimmed].
Qed.
















(** * GeoAnalyzer *)

(** ** Maps in insertion order *)

Section GeoMap.

Context {V : Type}.
Implicit Types (m : list (list N * V)) (k : list N) (v : V).

Lemma map_get_Some m k v : NoDup m.*1 → (Geo.map_get k m = Some v ↔ (k, v) ∈ m).
Proof.
  induction m as [|[k' v'] m IH]; intros Hnd.
  - split; [done|by intros ?%elem_of_nil].
  - rewrite fmap_cons in Hnd. apply NoDup_cons in Hnd as [Hk' Hnd]. cbn [fst] in Hk'.
    cbn [Geo.map_get]. rewrite elem_of_cons. case_bool_decide as Hkk.
    + subst k'. split; [intros [= ->]; by left|].
      intros [[= ->]|Hin]; [done|]. destruct Hk'.
      apply list_elem_of_fmap. by exists (k, v).
    + rewrite (IH Hnd). split; [by right|]. intros [[= -> ->]|Hin]; done.
Qed.

Lemma map_get_None m k : Geo.map_get k m = None ↔ k ∉ m.*1.
Proof.
  induction m as [|[k' v'] m IH]; [split; [intros _ ?%elem_of_nil; done|done]|].
  cbn [Geo.map_get]. rewrite fmap_cons, not_elem_of_cons. cbn [fst].
  case_bool_decide as Hkk; [split; [done|intros [? _]; congruence]|].
  rewrite IH. split; [by split; [congruence|]|by intros [_ ?]].
Qed.

Lemma map_set_keys_new m k v : k ∉ m.*1 → Geo.map_set k v m = m ++ [(k, v)].
Proof.
  induction m as [|[k' v'] m IH]; [done|].
  rewrite fmap_cons, not_elem_of_cons. cbn [fst]. intros [Hne Hk].
  cbn [Geo.map_set]. rewrite bool_decide_eq_false_2 by congruence.
  by rewrite IH.
Qed.

Lemma map_set_keys_old m k v : k ∈ m.*1 → (Geo.map_set k v m).*1 = m.*1.
Proof.
  induction m as [|[k' v'] m IH]; [by intros ?%elem_of_nil|].
  rewrite fmap_cons, elem_of_cons. cbn [fst Geo.map_set]. intros Hk.
  case_bool_decide as Hkk; [done|]. rewrite fmap_cons. cbn [fst]. f_equal.
  apply IH. destruct Hk; [congruence|done].
Qed.

Lemma map_set_elem m k v k' v' :
  NoDup m.*1 → k ∈ m.*1 →
  ((k', v') ∈ Geo.map_set k v m ↔ (k' = k ∧ v' = v) ∨ (k' ≠ k ∧ (k', v') ∈ m)).
Proof.
  induction m as [|[k0 v0] m IH]; [by intros _ ?%elem_of_nil|].
  rewrite fmap_cons, NoDup_cons, elem_of_cons. cbn [fst Geo.map_set].
  intros [Hk0 Hnd] Hk. case_bool_decide as Hkk.
  - subst k0. rewrite !elem_of_cons. split.
    + intros [[= -> ->]|Hin]; [by left|]. right. split; [|by right].
      intros ->. apply Hk0, list_elem_of_fmap. by exists (k, v').
    + intros [[-> ->]|[Hne [[= -> ->]|Hin]]]; [by left|done|by right].
  - destruct Hk as [->|Hk]; [done|]. rewrite !elem_of_cons, (IH Hnd Hk). split.
    + intros [[= -> ->]|[[-> ->]|[Hne Hin]]]; [right; split; [done|by left]|by left|].
      right. split; [done|by right].
    + intros [[-> ->]|[Hne [[= -> ->]|Hin]]]; [right; by left|by left|].
      right. right. done.
Qed.

End GeoMap.

Lemma counted_set_new (m : list (list N * Geo.CountryStats)) k st :
  k ∉ m.*1 → counted (Geo.map_set k st m) = (counted m + Geo.postCount st)%N.
Proof.
  intros Hk. rewrite map_set_keys_new by done. unfold counted.
  rewrite fmap_app. induction m as [|e m IH].
  - cbn. lia.
  - rewrite fmap_cons in Hk. apply not_elem_of_cons in Hk as [_ Hk].
    rewrite fmap_cons. cbn [app sumN foldr]. change (foldr N.add 0%N) with sumN.
    rewrite (IH Hk). lia.
Qed.

Lemma counted_set_old (m : list (list N * Geo.CountryStats)) k st st' :
  NoDup m.*1 → (k, st) ∈ m →
  (counted (Geo.map_set k st' m) + Geo.postCount st = counted m + Geo.postCount st')%N.
Proof.
  unfold counted. induction m as [|[k0 v0] m IH]; [by intros _ ?%elem_of_nil|].
  rewrite fmap_cons, NoDup_cons, elem_of_cons. cbn [fst Geo.map_set].
  intros [Hk0 Hnd] Hk. case_bool_decide as Hkk.
  - subst k0. destruct Hk as [[= ->]|Hin].
    + rewrite !fmap_cons. cbn [sumN foldr snd]. lia.
    + destruct Hk0. apply list_elem_of_fmap. by exists (k, st).
  - destruct Hk as [[= -> ->]|Hin]; [done|].
    rewrite !fmap_cons. cbn [sumN foldr snd]. change (foldr N.add 0%N) with sumN.
    specialize (IH Hnd Hin). lia.
Qed.

(** ** Gathering the statistics *)

Lemma size_add_poster (S : gset (list N)) (poster : list N) :
  size S ≤ size (S ∪ {[poster]}) ≤ size S + 1.
Proof.
  split.
  - apply subseteq_size. set_solver.
  - rewrite size_union_alt.
    assert (Hle : size (({[poster]} : gset (list N)) ∖ S) ≤ size ({[poster]} : gset (list N))).
    { apply subseteq_size, subseteq_difference_l. done. }
    rewrite size_singleton in Hle. lia.
Qed.

(** One update keeps the statistics and the sets in agreement, never
    throws and counts one more post. *)
Lemma updateCountryStats_spec (env : Env) (m : list (list N * Geo.CountryStats))
    (sets : gmap (list N) (gset (list N))) (code name poster : list N) (n : nat) :
  geo_inv m sets →
  ∃ m' sets' n',
    Geo.updateCountryStats env m sets code name poster n = Some ((m', sets'), n')
    ∧ geo_inv m' sets'
    ∧ counted m' = (counted m + 1)%N.
Proof.
  intros (Hnd & Hentries & Hdom). unfold Geo.updateCountryStats, Geo.map_has.
  destruct (Geo.map_get code m) as [st|] eqn:Hget.
  - (* a country seen before *)
    assert (Hin : (code, st) ∈ m) by (by apply map_get_Some).
    assert (Hkey : code ∈ m.*1) by (apply list_elem_of_fmap; by exists (code, st)).
    destruct (Hentries code st Hin) as (Hcode & S & HS & Hsize & Hone & Hle).
    rewrite bool_decide_eq_true_2 by eauto. cbn [negb].
    unfold Geo.gbind at 1. unfold Geo.gret at 1. rewrite Hget.
    rewrite HS. rewrite bool_decide_eq_true_2 by eauto. cbn [negb]. rewrite HS.
    unfold Geo.gbind, Geo.Date_now, Geo.gret. eexists _, _, _. split; [reflexivity|].
    pose proof (size_add_poster S poster) as Hadd.
    split; [split_and!|].
    + by rewrite map_set_keys_old.
    + intros k st' [[-> ->]|[Hne Hold]]%map_set_elem; [| |done|done].
      * split; [done|]. exists (S ∪ {[poster]}). rewrite lookup_insert_eq.
        cbn [Geo.uniquePosters Geo.postCount]. split_and!; [done|done|lia|lia].
      * destruct (Hentries k st' Hold) as (Hk & S' & HS' & Hrest).
        split; [done|]. exists S'. by rewrite lookup_insert_ne.
    + intros k Hk. rewrite map_set_keys_old by done.
      destruct (decide (k = code)) as [->|Hne]; [done|].
      rewrite lookup_insert_ne in Hk by done. by apply Hdom.
    + pose proof (counted_set_old m code st
                    {| Geo.code := Geo.code st; Geo.name := Geo.name st;
                       Geo.postCount := Geo.postCount st + 1;
                       Geo.uniquePosters := N.of_nat (size (S ∪ {[poster]}));
                       Geo.lastSeen := now env n |} Hnd Hin) as Hcount.
      cbn [Geo.postCount] in Hcount. lia.
  - (* a new country *)
    assert (Hkey : code ∉ m.*1) by (by apply map_get_None).
    assert (Hset : sets !! code = None).
    { destruct (sets !! code) eqn:Hs; [|done]. destruct Hkey. apply Hdom. eauto. }
    rewrite bool_decide_eq_false_2 by (by intros [? ?]). cbn [negb].
    unfold Geo.gbind at 1. unfold Geo.gbind at 1. unfold Geo.Date_now at 1.
    unfold Geo.gret at 1.
    set (st0 := {| Geo.code := code; Geo.name := name; Geo.postCount := 0;
                   Geo.uniquePosters := 0; Geo.lastSeen := now env n |}).
    rewrite Hset. rewrite bool_decide_eq_false_2 by (by intros [? ?]). cbn [negb].
    rewrite lookup_insert_eq.
    assert (Hm1 : Geo.map_set code st0 m = m ++ [(code, st0)])
      by (by apply map_set_keys_new).
    rewrite Hm1.
    assert (Hnd1 : NoDup (m ++ [(code, st0)]).*1).
    { rewrite fmap_app. apply NoDup_app. split_and!; [done| |apply NoDup_singleton].
      intros k Hk ->%list_elem_of_singleton. done. }
    assert (Hin1 : (code, st0) ∈ m ++ [(code, st0)]) by (apply elem_of_app; right; by left).
    assert (Hkey1 : code ∈ (m ++ [(code, st0)]).*1)
      by (apply list_elem_of_fmap; by exists (code, st0)).
    rewrite (proj2 (map_get_Some _ code st0 Hnd1) Hin1).
    unfold Geo.gbind, Geo.Date_now, Geo.gret. eexists _, _, _. split; [reflexivity|].
    subst st0. cbn [Geo.code Geo.name Geo.postCount] in *.
    set (st0 := {| Geo.code := code; Geo.name := name; Geo.postCount := 0;
                   Geo.uniquePosters := 0; Geo.lastSeen := now env n |}) in *.
    split; [split_and!|].
    + by rewrite map_set_keys_old.
    + intros k st' [[-> ->]|[Hne Hold]]%map_set_elem; [| |done|done].
      * split; [done|]. exists (∅ ∪ {[poster]}). rewrite lookup_insert_eq.
        cbn [Geo.uniquePosters Geo.postCount].
        assert (Hsz : size ((∅ : gset (list N)) ∪ {[poster]}) = 1)
          by (by rewrite (left_id_L ∅ (∪)), size_singleton).
        rewrite Hsz. split_and!; [done|done|lia|lia].
      * apply elem_of_app in Hold as [Hold|[= -> ->]%list_elem_of_singleton]; [|done].
        destruct (Hentries k st' Hold) as (Hk & S' & HS' & Hrest).
        split; [done|]. exists S'. by rewrite !lookup_insert_ne.
    + intros k Hk. rewrite map_set_keys_old by done.
      destruct (decide (k = code)) as [->|Hne]; [done|].
      rewrite !lookup_insert_ne in Hk by done.
      rewrite fmap_app. apply elem_of_app. left. by apply Hdom.
    + pose proof (counted_set_old (m ++ [(code, st0)]) code st0
                    {| Geo.code := code; Geo.name := name; Geo.postCount := 0 + 1;
                       Geo.uniquePosters := N.of_nat (size ((∅ : gset (list N)) ∪ {[poster]}));
                       Geo.lastSeen := now env (S n) |} Hnd1 Hin1) as Hcount.
      cbn [Geo.postCount] in Hcount.
      pose proof (counted_set_new m code st0 Hkey) as Hnew. rewrite Hm1 in Hnew.
      cbn [Geo.postCount] in Hnew. lia.
Qed.

Lemma count_located_spec (env : Env) (tno : N) (post : Geo.Post.t) (acc : Geo.Acc) (n : nat) :
  geo_inv (Geo.countryStats acc) (Geo.posters acc) →
  ∃ acc' n',
    Geo.count_located env tno post acc n = Some (acc', n')
    ∧ geo_inv (Geo.countryStats acc') (Geo.posters acc')
    ∧ counted (Geo.countryStats acc')
      = (counted (Geo.countryStats acc) + (if has_location post then 1 else 0))%N
    ∧ Geo.located acc' = (Geo.located acc + (if has_location post then 1 else 0))%N
    ∧ Geo.totalPosts acc' = Geo.totalPosts acc
    ∧ Geo.firstPostWithLocation acc'
      = or_first (Geo.firstPostWithLocation acc)
          (if has_location post then Some (tno, Geo.Post.no post) else None).
Proof.
  intros Hinv. unfold Geo.count_located, has_location, Geo.truthy.
  destruct (Geo.Post.country post) as [[|c cs]|];
    [| |];
    try (exists acc, n; cbn [andb]; rewrite !N.add_0_r;
         split_and!; [reflexivity|done|done|done|done|by destruct (Geo.firstPostWithLocation acc)]).
  destruct (Geo.Post.country_name post) as [[|d ds]|];
    [| |];
    try (exists acc, n; cbn [andb]; rewrite !N.add_0_r;
         split_and!; [reflexivity|done|done|done|done|by destruct (Geo.firstPostWithLocation acc)]).
  destruct (updateCountryStats_spec env _ _ (c :: cs) (d :: ds)
              (Geo.or_else (Geo.Post.id post) Geo.anon) n Hinv)
    as (m' & sets' & n' & Hrun & Hinv' & Hcount).
  unfold Geo.gbind. rewrite Hrun. unfold Geo.gret. eexists _, _. split; [reflexivity|].
  cbn [Geo.countryStats Geo.posters Geo.located Geo.totalPosts Geo.firstPostWithLocation andb].
  split_and!; [done|done|done|done|by destruct (Geo.firstPostWithLocation acc)].
Qed.

Lemma or_first_assoc {A} (a b c : option A) :
  or_first (or_first a b) c = or_first a (or_first b c).
Proof. by destruct a. Qed.

Lemma process_posts_spec (env : Env) (tno : N) (posts : list Geo.Post.t) :
  ∀ (acc : Geo.Acc) (n : nat),
  geo_inv (Geo.countryStats acc) (Geo.posters acc) →
  ∃ acc' n',
    Geo.process_posts env tno posts acc n = Some (acc', n')
    ∧ geo_inv (Geo.countryStats acc') (Geo.posters acc')
    ∧ counted (Geo.countryStats acc')
      = (counted (Geo.countryStats acc)
         + N.of_nat (length (filter (λ p, has_location p = true) posts)))%N
    ∧ Geo.located acc'
      = (Geo.located acc
         + N.of_nat (length (filter (λ p, has_location p = true) posts)))%N
    ∧ Geo.totalPosts acc' = (Geo.totalPosts acc + N.of_nat (length posts))%N
    ∧ Geo.firstPostWithLocation acc'
      = or_first (Geo.firstPostWithLocation acc) (first_in_posts tno posts).
Proof.
  induction posts as [|post posts IH]; intros acc n Hinv.
  - exists acc, n. cbn [Geo.process_posts length]. unfold first_in_posts.
    rewrite filter_nil. cbn [length head fmap option_fmap option_map N.of_nat].
    rewrite !N.add_0_r. split_and!; [reflexivity|done|done|done|done|].
    by destruct (Geo.firstPostWithLocation acc).
  - cbn [Geo.process_posts]. unfold Geo.gbind at 1.
    destruct (count_located_spec env tno post (Geo.more_posts 1 acc) n Hinv)
      as (acc1 & n1 & Hrun1 & Hinv1 & Hc1 & Hl1 & Ht1 & Hf1).
    rewrite Hrun1.
    destruct (IH acc1 n1 Hinv1) as (acc2 & n2 & Hrun2 & Hinv2 & Hc2 & Hl2 & Ht2 & Hf2).
    exists acc2, n2. split; [done|]. split; [done|].
    cbn [Geo.more_posts Geo.countryStats Geo.located Geo.totalPosts
         Geo.firstPostWithLocation] in Hc1, Hl1, Ht1, Hf1.
    rewrite Hc2, Hl2, Ht2, Hf2, Hc1, Hl1, Ht1, Hf1, or_first_assoc.
    unfold first_in_posts. cbn [length].
    destruct (has_location post) eqn:Hloc.
    + rewrite filter_cons_True by done. cbn [length head fmap option_fmap option_map or_first].
      split_and!; [lia|lia|lia|done].
    + rewrite filter_cons_False by (by rewrite Hloc).
      cbn [or_first]. split_and!; [lia|lia|lia|done].
Qed.

Lemma has_location_opPost (thread : Geo.Thread.t) (posts : list Geo.Post.t) :
  has_location (Geo.opPost thread posts)
  = from_option has_location false (head posts).
Proof. by destruct posts. Qed.

Lemma process_thread_spec (env : Env) (thread : Geo.Thread.t) (acc : Geo.Acc) (n : nat) :
  geo_inv (Geo.countryStats acc) (Geo.posters acc) →
  ∃ acc' n',
    Geo.process_thread env thread acc n = Some (acc', n')
    ∧ geo_inv (Geo.countryStats acc') (Geo.posters acc')
    ∧ counted (Geo.countryStats acc')
      = (counted (Geo.countryStats acc) + N.of_nat (located_counted thread))%N
    ∧ Geo.located acc' = (Geo.located acc + N.of_nat (located_counted thread))%N
    ∧ Geo.totalPosts acc' = (Geo.totalPosts acc + N.of_nat (posts_counted thread))%N
    ∧ Geo.firstPostWithLocation acc'
      = or_first (Geo.firstPostWithLocation acc) (first_in_thread thread).
Proof.
  intros Hinv. unfold Geo.process_thread, located_counted, posts_counted, first_in_thread.
  destruct (Geo.Thread.posts thread) as [posts|].
  2:{ exists acc, n. cbn [N.of_nat]. rewrite !N.add_0_r.
      split_and!; [reflexivity|done|done|done|done|].
      by destruct (Geo.firstPostWithLocation acc). }
  unfold Geo.gbind at 1.
  change (Geo.truthy (Geo.Post.country (Geo.opPost thread posts))
          && Geo.truthy (Geo.Post.country_name (Geo.opPost thread posts)))
    with (has_location (Geo.opPost thread posts)).
  pose proof (has_location_opPost thread posts) as Hop.
  destruct (has_location (Geo.opPost thread posts)) eqn:Hloc.
  - destruct (count_located_spec env (Geo.Thread.no thread) (Geo.opPost thread posts)
                (Geo.more_posts 1 acc) n Hinv)
      as (acc1 & n1 & Hrun1 & Hinv1 & Hc1 & Hl1 & Ht1 & Hf1).
    rewrite Hrun1.
    destruct (process_posts_spec env (Geo.Thread.no thread) posts acc1 n1 Hinv1)
      as (acc2 & n2 & Hrun2 & Hinv2 & Hc2 & Hl2 & Ht2 & Hf2).
    exists acc2, n2. split; [done|]. split; [done|].
    rewrite Hloc in Hc1, Hl1, Hf1.
    cbn [Geo.more_posts Geo.countryStats Geo.located Geo.totalPosts
         Geo.firstPostWithLocation Geo.opPost Geo.Post.no] in Hc1, Hl1, Ht1, Hf1.
    rewrite Hc2, Hl2, Ht2, Hf2, Hc1, Hl1, Ht1, Hf1, or_first_assoc.
    destruct (head posts) as [first|]; [|done]. cbn [from_option] in Hop.
    rewrite <- Hop. cbn [or_first]. split_and!; [lia|lia|lia|done].
  - unfold Geo.gret at 1.
    destruct (process_posts_spec env (Geo.Thread.no thread) posts acc n Hinv)
      as (acc2 & n2 & Hrun2 & Hinv2 & Hc2 & Hl2 & Ht2 & Hf2).
    exists acc2, n2. split; [done|]. split; [done|].
    rewrite Hc2, Hl2, Ht2, Hf2.
    destruct (head posts) as [first|] eqn:Hhead.
    + cbn [from_option] in Hop. rewrite <- Hop. split_and!; [lia|lia|lia|done].
    + destruct posts; [|done]. split_and!; [lia|lia|lia|done].
Qed.

Lemma process_threads_spec (env : Env) (threads : list Geo.Thread.t) :
  ∀ (acc : Geo.Acc) (n : nat),
  geo_inv (Geo.countryStats acc) (Geo.posters acc) →
  ∃ acc' n',
    Geo.process_threads env threads acc n = Some (acc', n')
    ∧ geo_inv (Geo.countryStats acc') (Geo.posters acc')
    ∧ counted (Geo.countryStats acc')
      = (counted (Geo.countryStats acc)
         + N.of_nat (sum_list (located_counted <$> threads)))%N
    ∧ Geo.located acc'
      = (Geo.located acc + N.of_nat (sum_list (located_counted <$> threads)))%N
    ∧ Geo.totalPosts acc'
      = (Geo.totalPosts acc + N.of_nat (sum_list (posts_counted <$> threads)))%N
    ∧ Geo.firstPostWithLocation acc'
      = or_first (Geo.firstPostWithLocation acc) (first_located threads).
Proof.
  induction threads as [|thread threads IH]; intros acc n Hinv.
  - exists acc, n. cbn [Geo.process_threads fmap list_fmap sum_list_with N.of_nat].
    rewrite !N.add_0_r. split_and!; [reflexivity|done|done|done|done|].
    by destruct (Geo.firstPostWithLocation acc).
  - cbn [Geo.process_threads]. unfold Geo.gbind at 1.
    destruct (process_thread_spec env thread acc n Hinv)
      as (acc1 & n1 & Hrun1 & Hinv1 & Hc1 & Hl1 & Ht1 & Hf1).
    rewrite Hrun1.
    destruct (IH acc1 n1 Hinv1) as (acc2 & n2 & Hrun2 & Hinv2 & Hc2 & Hl2 & Ht2 & Hf2).
    exists acc2, n2. split; [done|]. split; [done|].
    rewrite Hc2, Hl2, Ht2, Hf2, Hc1, Hl1, Ht1, Hf1, or_first_assoc.
    rewrite !fmap_cons. cbn [sum_list_with id].
    split_and!; [lia|lia|lia|].
    f_equal. unfold first_located. cbn [omap list_omap].
    by destruct (first_in_thread thread).
Qed.

Lemma geo_inv_empty : geo_inv [] ∅.
Proof.
  split_and!.
  - apply NoDup_nil_2.
  - by intros k st ?%elem_of_nil.
  - intros k [S HS]. by rewrite lookup_empty in HS.
Qed.

Lemma processCountryStats_spec (env : Env) (threads : list Geo.Thread.t) (n : nat) :
  ∃ acc n',
    Geo.processCountryStats env threads n = Some (acc, n')
    ∧ geo_inv (Geo.countryStats acc) (Geo.posters acc)
    ∧ counted (Geo.countryStats acc) = Geo.located acc
    ∧ Geo.located acc = N.of_nat (sum_list (located_counted <$> threads))
    ∧ Geo.totalPosts acc = N.of_nat (sum_list (posts_counted <$> threads))
    ∧ Geo.firstPostWithLocation acc = first_located threads.
Proof.
  destruct (process_threads_spec env threads Geo.empty_acc n geo_inv_empty)
    as (acc & n' & Hrun & Hinv & Hc & Hl & Ht & Hf).
  exists acc, n'. split; [done|]. split; [done|].
  cbn in Hc, Hl, Ht, Hf. rewrite Hc, Hl, Ht, Hf. split_and!; [lia|lia|lia|done].
Qed.

(** Every country of the statistics has at least one post. *)
Lemma counted_ge_length (m : list (list N * Geo.CountryStats))
    (sets : gmap (list N) (gset (list N))) :
  geo_inv m sets → (N.of_nat (length m) ≤ counted m)%N.
Proof.
  intros (_ & Hentries & _). unfold counted.
  induction m as [|[k st] m IH]; [cbn; lia|].
  rewrite fmap_cons. cbn [length sumN foldr snd]. change (foldr N.add 0%N) with sumN.
  destruct (Hentries k st) as (_ & S & _ & _ & Hone & Hle); [by left|].
  assert (N.of_nat (length m) ≤ sumN ((λ e, Geo.postCount e.2) <$> m))%N.
  { apply IH. intros k' st' Hin. apply Hentries. by right. }
  lia.
Qed.

(** ** Sorting *)

Lemma insert_desc_perm (key : Geo.CountryStats → N) (x : Geo.CountryStats)
    (l : list Geo.CountryStats) :
  Geo.insert_desc key x l ≡ₚ x :: l.
Proof.
  induction l as [|y l IH]; [done|]. cbn [Geo.insert_desc].
  destruct (key x <? key y)%N; [|done].
  rewrite IH. apply Permutation_swap.
Qed.

Lemma sort_desc_perm (key : Geo.CountryStats → N) (l : list Geo.CountryStats) :
  Geo.sort_desc key l ≡ₚ l.
Proof.
  induction l as [|x l IH]; [done|]. unfold Geo.sort_desc. cbn [foldr].
  rewrite insert_desc_perm. by f_equiv.
Qed.

Lemma descending_cons (key : Geo.CountryStats → N) (x : Geo.CountryStats)
    (l : list Geo.CountryStats) :
  descending key (x :: l) ↔ Forall (λ y, (key y ≤ key x)%N) l ∧ descending key l.
Proof.
  split.
  - intros H. split.
    + apply Forall_lookup. intros i y Hy. apply (H 0 (S i)); [lia|done|done].
    + intros i j a b Hij Ha Hb. apply (H (S i) (S j)); [lia|done|done].
  - intros [Hall H] i j a b Hij Ha Hb. destruct j as [|j]; [lia|].
    cbn in Hb. destruct i as [|i].
    + injection Ha as <-. by apply (proj1 (Forall_lookup _ _) Hall j).
    + cbn in Ha. apply (H i j); [lia|done|done].
Qed.

Lemma descending_nil (key : Geo.CountryStats → N) : descending key [].
Proof. intros i j x y _ Hx. by rewrite lookup_nil in Hx. Qed.

Lemma insert_desc_descending (key : Geo.CountryStats → N) (x : Geo.CountryStats)
    (l : list Geo.CountryStats) :
  descending key l → descending key (Geo.insert_desc key x l).
Proof.
  induction l as [|y l IH]; intros Hl.
  - apply descending_cons. split; [constructor|apply descending_nil].
  - cbn [Geo.insert_desc]. apply descending_cons in Hl as Hyl. destruct Hyl as [Hall Hl'].
    destruct (key x <? key y)%N eqn:Hlt.
    + apply N.ltb_lt in Hlt. apply descending_cons. split; [|by apply IH].
      rewrite insert_desc_perm. constructor; [lia|done].
    + apply N.ltb_ge in Hlt. apply descending_cons. split; [|done].
      constructor; [done|]. eapply Forall_impl; [exact Hall|]. intros z Hz. cbn in Hz. lia.
Qed.

Lemma sort_desc_descending (key : Geo.CountryStats → N) (l : list Geo.CountryStats) :
  descending key (Geo.sort_desc key l).
Proof.
  induction l as [|x l IH]; [apply descending_nil|].
  unfold Geo.sort_desc. cbn [foldr]. by apply insert_desc_descending.
Qed.

Lemma descending_take (key : Geo.CountryStats → N) (k : nat) (l : list Geo.CountryStats) :
  descending key l → descending key (take k l).
Proof.
  intros H i j x y Hij [Hx _]%lookup_take_Some [Hy _]%lookup_take_Some.
  by apply (H i j).
Qed.

(** ** The result of the analysis *)

Lemma analyze_run (env : Env) (threads : list Geo.Thread.t) (n : nat) :
  ∃ acc n1 r,
    Geo.processCountryStats env threads n = Some (acc, n1)
    ∧ Geo.analyze env threads n = Some ([r], S n1)
    ∧ Geo.timestamp r = now env n1
    ∧ Geo.threadId r
      = Geo.num_or (fst <$> Geo.firstPostWithLocation acc)
          (Geo.num_or (Geo.Thread.no <$> head threads) 0)
    ∧ Geo.postId r
      = Geo.num_or (snd <$> Geo.firstPostWithLocation acc)
          (Geo.num_or
             (head threads ≫= (λ t, Geo.Thread.posts t ≫= (λ ps, Geo.Post.no <$> head ps))) 0)
    ∧ Geo.totalUniqueCountries r = N.of_nat (length (Geo.countryStats acc))
    ∧ Geo.mostCommonCountries r
      = take Geo.MAX_COUNTRIES (Geo.sort_desc Geo.postCount (Geo.countryStats acc).*2)
    ∧ Geo.mostUniqueCountries r
      = take Geo.MAX_COUNTRIES (Geo.sort_desc Geo.uniquePosters (Geo.countryStats acc).*2)
    ∧ Geo.totalPostsAnalyzed (Geo.metadata r) = Geo.totalPosts acc
    ∧ Geo.postsWithLocation (Geo.metadata r) = Geo.located acc.
Proof.
  destruct (processCountryStats_spec env threads n) as (acc & n1 & Hrun & _).
  exists acc, n1. unfold Geo.analyze, Geo.gbind. rewrite Hrun.
  unfold Geo.Date_now, Geo.gret. eexists. split; [done|]. split; [reflexivity|].
  cbn [Geo.timestamp Geo.threadId Geo.postId Geo.totalUniqueCountries
       Geo.mostCommonCountries Geo.mostUniqueCountries Geo.metadata
       Geo.totalPostsAnalyzed Geo.postsWithLocation].
  split_and!; reflexivity.
Qed.

Lemma located_le_posts (thread : Geo.Thread.t) : located_counted thread ≤ posts_counted thread.
Proof.
  unfold located_counted, posts_counted. destruct (Geo.Thread.posts thread) as [posts|]; [|done].
  pose proof (length_filter (λ p, has_location p = true) posts). lia.
Qed.

Lemma sum_located_le_posts (threads : list Geo.Thread.t) :
  sum_list (located_counted <$> threads) ≤ sum_list (posts_counted <$> threads).
Proof.
  induction threads as [|t threads IH]; [done|].
  rewrite !fmap_cons. cbn [sum_list_with id]. pose proof (located_le_posts t). lia.
Qed.

Lemma sumN_app (l k : list N) : sumN (l ++ k) = (sumN l + sumN k)%N.
Proof.
  induction l as [|x l IH]; [done|]. cbn [app sumN foldr].
  change (foldr N.add 0%N) with sumN. rewrite IH. lia.
Qed.

Lemma sumN_perm (l k : list N) : l ≡ₚ k → sumN l = sumN k.
Proof.
  induction 1 as [|x l k _ IH|x y l|l k j _ IH1 _ IH2]; [done| | |congruence].
  - cbn [sumN foldr]. change (foldr N.add 0%N) with sumN. by rewrite IH.
  - cbn [sumN foldr]. lia.
Qed.

Lemma sumN_take_le (k : nat) (l : list N) : (sumN (take k l) ≤ sumN l)%N.
Proof.
  rewrite <- (take_drop k l) at 2. rewrite sumN_app. lia.
Qed.

Lemma counted_values (m : list (list N * Geo.CountryStats)) :
  counted m = sumN (Geo.postCount <$> m.*2).
Proof. unfold counted. by rewrite <- list_fmap_compose. Qed.

(** The countries of the statistics, as the values of the map. *)
Lemma geo_inv_values (m : list (list N * Geo.CountryStats))
    (sets : gmap (list N) (gset (list N))) :
  geo_inv m sets →
  NoDup (Geo.code <$> m.*2)
  ∧ Forall (λ st, (1 ≤ Geo.uniquePosters st ≤ Geo.postCount st)%N) m.*2.
Proof.
  intros (Hnd & Hentries & _). split.
  - assert (Heq : Geo.code <$> m.*2 = m.*1); [|by rewrite Heq].
    clear Hnd. induction m as [|[k st] m IH]; [done|].
    rewrite !fmap_cons. cbn [fst snd]. f_equal.
    + destruct (Hentries k st) as [Hcode _]; [by left|done].
    + apply IH. intros k' st' Hin. apply Hentries. by right.
  - apply Forall_fmap, Forall_forall. intros [k st] Hin.
    destruct (Hentries k st Hin) as (_ & S & _ & Hsize & Hone & Hle). cbn. lia.
Qed.

Lemma ranking_entries (key : Geo.CountryStats → N) (l : list Geo.CountryStats) :
  NoDup (Geo.code <$> l) →
  Forall (λ st, (1 ≤ Geo.uniquePosters st ≤ Geo.postCount st)%N) l →
  NoDup (Geo.code <$> take Geo.MAX_COUNTRIES (Geo.sort_desc key l))
  ∧ Forall (λ st, (1 ≤ Geo.uniquePosters st ≤ Geo.postCount st)%N)
      (take Geo.MAX_COUNTRIES (Geo.sort_desc key l))
  ∧ length (take Geo.MAX_COUNTRIES (Geo.sort_desc key l)) = Geo.MAX_COUNTRIES `min` length l.
Proof.
  intros Hnd Hall. pose proof (sort_desc_perm key l) as Hperm. split_and!.
  - apply (sublist_NoDup _ (Geo.code <$> Geo.sort_desc key l)); [by rewrite Hperm|].
    apply fmap_sublist, sublist_take.
  - apply Forall_take. by rewrite Hperm.
  - by rewrite length_take, Hperm.
Qed.

(** X13. [analyze] never throws and returns exactly one result.  Its
    count of analysed posts is the number of posts of the threads that
    have a list of posts, plus one for every such thread whose first post
    has country data (the opening post is counted a second time); its
    count of posts with a location is counted the same way over the posts
    with country data; the second count never exceeds the first. *)
Theorem geo_post_totals (env : Env) (threads : list Geo.Thread.t) (n : nat) :
  ∃ r n',
    Geo.analyze env threads n = Some ([r], n')
    ∧ Geo.totalPostsAnalyzed (Geo.metadata r)
      = N.of_nat (sum_list (posts_counted <$> threads))
    ∧ Geo.postsWithLocation (Geo.metadata r)
      = N.of_nat (sum_list (located_counted <$> threads))
    ∧ (Geo.postsWithLocation (Geo.metadata r)
       ≤ Geo.totalPostsAnalyzed (Geo.metadata r))%N.
Proof.
  destruct (analyze_run env threads n)
    as (acc & n1 & r & Hrun & Hres & _ & _ & _ & _ & _ & _ & Htot & Hloc).
  destruct (processCountryStats_spec env threads n)
    as (acc' & n1' & Hrun' & _ & _ & Hl & Ht & _).
  rewrite Hrun in Hrun'. injection Hrun' as <- <-.
  exists r, (S n1). rewrite Htot, Hloc, Hl, Ht.
  pose proof (sum_located_le_posts threads). split_and!; [done|done|done|lia].
Qed.

(** X14. The post counts of the countries listed as most common add up
    to at most the number of posts with a location, and to exactly that
    number when no more than six countries were seen; the number of
    countries seen never exceeds the number of posts with a location. *)
Theorem geo_post_counts_add_up (env : Env) (threads : list Geo.Thread.t) (n : nat) :
  ∃ r n',
    Geo.analyze env threads n = Some ([r], n')
    ∧ (sumN (Geo.postCount <$> Geo.mostCommonCountries r)
       ≤ Geo.postsWithLocation (Geo.metadata r))%N
    ∧ ((Geo.totalUniqueCountries r ≤ 6)%N →
       sumN (Geo.postCount <$> Geo.mostCommonCountries r)
       = Geo.postsWithLocation (Geo.metadata r))
    ∧ (Geo.totalUniqueCountries r ≤ Geo.postsWithLocation (Geo.metadata r))%N.
Proof.
  destruct (analyze_run env threads n)
    as (acc & n1 & r & Hrun & Hres & _ & _ & _ & Huniq & Hcommon & _ & _ & Hloc).
  destruct (processCountryStats_spec env threads n)
    as (acc' & n1' & Hrun' & Hinv & Hc & _).
  rewrite Hrun in Hrun'. injection Hrun' as <- <-.
  exists r, (S n1). rewrite Hcommon, Huniq, Hloc, <- Hc, counted_values.
  pose proof (sort_desc_perm Geo.postCount (Geo.countryStats acc).*2) as Hperm.
  rewrite <- (sumN_perm _ _ (fmap_Permutation Geo.postCount _ _ Hperm)).
  split_and!; [done| | |].
  - rewrite fmap_take. apply sumN_take_le.
  - intros Hsix. rewrite take_ge; [done|].
    rewrite Hperm, length_fmap. unfold Geo.MAX_COUNTRIES. lia.
  - rewrite (sumN_perm _ _ (fmap_Permutation Geo.postCount _ _ Hperm)), <- counted_values.
    by apply (counted_ge_length _ (Geo.posters acc)).
Qed.

(** X15. In both rankings of the result the country codes are pairwise
    distinct, every country has at least one unique poster and no more
    unique posters than posts, and the ranking holds six countries, or
    all the countries seen when they are fewer. *)
Theorem geo_ranking_entries (env : Env) (threads : list Geo.Thread.t) (n : nat) :
  ∃ r n',
    Geo.analyze env threads n = Some ([r], n')
    ∧ ∀ ranking,
        ranking = Geo.mostCommonCountries r ∨ ranking = Geo.mostUniqueCountries r →
        NoDup (Geo.code <$> ranking)
        ∧ Forall (λ st, (1 ≤ Geo.uniquePosters st ≤ Geo.postCount st)%N) ranking
        ∧ N.of_nat (length ranking) = N.min 6 (Geo.totalUniqueCountries r).
Proof.
  destruct (analyze_run env threads n)
    as (acc & n1 & r & Hrun & Hres & _ & _ & _ & Huniq & Hcommon & Hunique & _ & _).
  destruct (processCountryStats_spec env threads n)
    as (acc' & n1' & Hrun' & Hinv & _).
  rewrite Hrun in Hrun'. injection Hrun' as <- <-.
  exists r, (S n1). split; [done|].
  destruct (geo_inv_values _ _ Hinv) as [Hnd Hall].
  intros ranking [->| ->]; [rewrite Hcommon|rewrite Hunique];
    (edestruct ranking_entries as (H1 & H2 & H3); [exact Hnd|exact Hall|]);
    (split_and!; [exact H1|exact H2|]);
    rewrite H3, Huniq, length_fmap; unfold Geo.MAX_COUNTRIES; lia.
Qed.

(** X17. The result names the first post with country data, in the order
    of the threads and of their posts: the thread number and the post
    number, where the first post of a thread is reported under the number
    of the thread.  A number that is 0, or no post with country data,
    gives the number of the first thread, respectively of its first
    post, and 0 when there is none. *)
Theorem geo_first_location (env : Env) (threads : list Geo.Thread.t) (n : nat) :
  ∃ r n',
    Geo.analyze env threads n = Some ([r], n')
    ∧ Geo.threadId r
      = Geo.num_or (fst <$> first_located threads)
          (Geo.num_or (Geo.Thread.no <$> head threads) 0)
    ∧ Geo.postId r
      = Geo.num_or (snd <$> first_located threads)
          (Geo.num_or
             (head threads ≫= (λ t, Geo.Thread.posts t ≫= (λ ps, Geo.Post.no <$> head ps))) 0).
Proof.
  destruct (analyze_run env threads n)
    as (acc & n1 & r & Hrun & Hres & _ & Htid & Hpid & _).
  destruct (processCountryStats_spec env threads n)
    as (acc' & n1' & Hrun' & _ & _ & _ & _ & Hf).
  rewrite Hrun in Hrun'. injection Hrun' as <- <-.
  exists r, (S n1). rewrite Htid, Hpid, Hf. done.
Qed.

(** ** The posts behind the statistics *)

Lemma map_get_set {V} (m : list (list N * V)) (k k' : list N) (v : V) :
  Geo.map_get k (Geo.map_set k' v m) = if decide (k = k') then Some v else Geo.map_get k m.
Proof.
  induction m as [|[k0 v0] m IH]; cbn [Geo.map_set Geo.map_get].
  - case_bool_decide; destruct (decide (k = k')); congruence.
  - case_bool_decide as H0; cbn [Geo.map_get].
    + subst k0. case_bool_decide; destruct (decide (k = k')); congruence.
    + rewrite IH. case_bool_decide; destruct (decide (k = k')); congruence.
Qed.

Lemma map_set_keys_elem {V} (m : list (list N * V)) (k k' : list N) (v : V) :
  k ∈ (Geo.map_set k' v m).*1 ↔ k ∈ m.*1 ∨ k = k'.
Proof.
  induction m as [|[k0 v0] m IH]; cbn [Geo.map_set].
  - rewrite fmap_cons, elem_of_cons. cbn [fst]. rewrite fmap_nil.
    split; [intros [->|?%elem_of_nil]; [by right|done]|].
    intros [?%elem_of_nil| ->]; [done|by left].
  - case_bool_decide as H0; rewrite !fmap_cons, !elem_of_cons; cbn [fst].
    + subst k0. split; [intros [->|?]; left; [by left|by right]|].
      intros [[->|?]| ->]; [by left|by right|by left].
    + rewrite IH. split; [intros [->|[?| ->]]|intros [[->|?]| ->]].
      * left. by left.
      * left. by right.
      * by right.
      * by left.
      * right. by left.
      * right. by right.
Qed.

Lemma updateCountryStats_lookup (env : Env) (m m' : list (list N * Geo.CountryStats))
    (sets sets' : gmap (list N) (gset (list N))) (code name poster : list N) (n n' : nat) :
  geo_inv m sets →
  Geo.updateCountryStats env m sets code name poster n = Some ((m', sets'), n') →
  (∀ k, k ≠ code → Geo.map_get k m' = Geo.map_get k m ∧ sets' !! k = sets !! k)
  ∧ (∃ st', Geo.map_get code m' = Some st'
       ∧ Geo.postCount st' = (from_option Geo.postCount 0 (Geo.map_get code m) + 1)%N
       ∧ Geo.name st' = from_option Geo.name name (Geo.map_get code m))
  ∧ sets' !! code = Some (default ∅ (sets !! code) ∪ {[poster]})
  ∧ (∀ k, k ∈ m'.*1 ↔ k ∈ m.*1 ∨ k = code).
Proof.
  intros (Hnd & Hentries & Hdom) Hrun. unfold Geo.updateCountryStats, Geo.map_has in Hrun.
  destruct (Geo.map_get code m) as [st|] eqn:Hget.
  - assert (Hin : (code, st) ∈ m) by (by apply map_get_Some).
    destruct (Hentries code st Hin) as (_ & S & HS & _).
    rewrite bool_decide_eq_true_2 in Hrun by eauto. cbn [negb] in Hrun.
    unfold Geo.gbind at 1 in Hrun. unfold Geo.gret at 1 in Hrun. rewrite Hget in Hrun.
    rewrite HS in Hrun. rewrite bool_decide_eq_true_2 in Hrun by eauto.
    cbn [negb] in Hrun. rewrite HS in Hrun.
    unfold Geo.gbind, Geo.Date_now, Geo.gret in Hrun. injection Hrun as <- <- <-.
    split_and!.
    + intros k Hne. rewrite map_get_set, lookup_insert_ne by done.
      by destruct (decide (k = code)).
    + eexists. rewrite map_get_set. destruct (decide (code = code)); [|done].
      split; [reflexivity|]. done.
    + by rewrite lookup_insert_eq, HS.
    + intros k. apply map_set_keys_elem.
  - assert (Hkey : code ∉ m.*1) by (by apply map_get_None).
    assert (Hset : sets !! code = None).
    { destruct (sets !! code) eqn:Hs; [|done]. destruct Hkey. apply Hdom. eauto. }
    rewrite bool_decide_eq_false_2 in Hrun by (by intros [? ?]). cbn [negb] in Hrun.
    unfold Geo.gbind at 1 in Hrun. unfold Geo.gbind at 1 in Hrun.
    unfold Geo.Date_now at 1 in Hrun. unfold Geo.gret at 1 in Hrun.
    rewrite Hset in Hrun. rewrite bool_decide_eq_false_2 in Hrun by (by intros [? ?]).
    cbn [negb] in Hrun. rewrite lookup_insert_eq in Hrun.
    rewrite map_get_set in Hrun. destruct (decide (code = code)); [|done].
    unfold Geo.gbind, Geo.Date_now, Geo.gret in Hrun. injection Hrun as <- <- <-.
    cbn [Geo.code Geo.name Geo.postCount].
    split_and!.
    + intros k Hne. rewrite !map_get_set, !lookup_insert_ne by done.
      by destruct (decide (k = code)).
    + eexists. rewrite map_get_set. destruct (decide (code = code)); [|done].
      split; [reflexivity|]. done.
    + by rewrite lookup_insert_eq, Hset.
    + intros k. rewrite !map_set_keys_elem. tauto.
Qed.

Lemma from_country_snoc (k : list N) (L : list Geo.Post.t) (p : Geo.Post.t) :
  from_country k (L ++ [p])
  = from_country k L ++ (if decide (country_of p = k) then [p] else []).
Proof.
  unfold from_country. rewrite filter_app. reflexivity.
Qed.

Lemma from_country_nil (k : list N) (L : list Geo.Post.t) :
  (∀ p, p ∈ L → country_of p ≠ k) → from_country k L = [].
Proof.
  intros H. unfold from_country. induction L as [|p L IH]; [done|].
  rewrite filter_cons_False by (apply H; by left).
  apply IH. intros q Hq. apply H. by right.
Qed.

Lemma tally_step (env : Env) (m m' : list (list N * Geo.CountryStats))
    (sets sets' : gmap (list N) (gset (list N))) (L : list Geo.Post.t) (p : Geo.Post.t)
    (n n' : nat) :
  geo_inv m sets → tally m sets L →
  Geo.updateCountryStats env m sets (country_of p) (name_of p) (poster_of p) n
  = Some ((m', sets'), n') →
  tally m' sets' (L ++ [p]).
Proof.
  intros Hinv [Hall Hentries] Hrun.
  destruct (updateCountryStats_lookup _ _ _ _ _ _ _ _ _ _ Hinv Hrun)
    as (Hother & (st' & Hget' & Hcount' & Hname') & Hset' & Hkeys).
  destruct Hinv as (Hnd & Hgeo & Hdom). split.
  - intros q [Hq| ->%list_elem_of_singleton]%elem_of_app; apply Hkeys; [|by right].
    left. by apply Hall.
  - intros k st Hget. rewrite from_country_snoc.
    destruct (decide (country_of p = k)) as [Hk|Hk].
    + subst k. rewrite Hget' in Hget. injection Hget as <-.
      rewrite Hcount', Hname', Hset', length_app, fmap_app, list_to_set_app_L.
      cbn [length fmap list_fmap]. rewrite list_to_set_singleton_L.
      destruct (Geo.map_get (country_of p) m) as [st0|] eqn:Hget0.
      * destruct (Hentries _ _ Hget0) as (Hc0 & Hn0 & Hs0).
        assert (Hin0 : (country_of p, st0) ∈ m) by (by apply map_get_Some).
        destruct (Hgeo _ _ Hin0) as (_ & S & HS & _ & Hone & Hle).
        rewrite Hs0. cbn [from_option default]. rewrite Hc0, Hn0.
        split_and!; [lia| |done].
        destruct (from_country (country_of p) L); [|done].
        cbn [length] in Hc0. lia.
      * assert (Hnone : from_country (country_of p) L = []).
        { apply from_country_nil. intros q Hq Heq.
          apply (proj1 (map_get_None m (country_of p)) Hget0).
          rewrite <- Heq. by apply Hall. }
        assert (Hs0 : sets !! country_of p = None).
        { destruct (sets !! country_of p) eqn:Hs; [|done].
          destruct (proj1 (map_get_None m (country_of p)) Hget0). apply Hdom. eauto. }
        rewrite Hnone, Hs0. cbn [from_option default length app head fmap list_fmap].
        rewrite list_to_set_nil. split_and!; [lia|done|done].
    + destruct (Hother k (not_eq_sym Hk)) as [Hm Hs]. rewrite Hm in Hget.
      rewrite app_nil_r, Hs. by apply Hentries.
Qed.

Lemma count_located_tally (env : Env) (tno : N) (post : Geo.Post.t) (acc acc' : Geo.Acc)
    (L : list Geo.Post.t) (n n' : nat) :
  geo_inv (Geo.countryStats acc) (Geo.posters acc) →
  tally (Geo.countryStats acc) (Geo.posters acc) L →
  Geo.count_located env tno post acc n = Some (acc', n') →
  tally (Geo.countryStats acc') (Geo.posters acc')
    (L ++ if has_location post then [post] else []).
Proof.
  intros Hinv Htally Hrun.
  assert (Hno : has_location post = false → tally (Geo.countryStats acc') (Geo.posters acc')
                  (L ++ if has_location post then [post] else [])).
  { intros Hloc. rewrite Hloc, app_nil_r.
    destruct (count_located_spec env tno post acc n Hinv)
      as (acc1 & n1 & Hrun1 & _). revert Hrun Hloc.
    unfold Geo.count_located, has_location, Geo.truthy.
    destruct (Geo.Post.country post) as [[|c cs]|];
      [intros [= <- <-]; done| |intros [= <- <-]; done].
    destruct (Geo.Post.country_name post) as [[|d ds]|];
      [intros [= <- <-]; done|done|intros [= <- <-]; done]. }
  destruct (has_location post) eqn:Hloc; [clear Hno|by apply Hno].
  revert Hrun Hloc. unfold Geo.count_located.
  pose proof (tally_step env (Geo.countryStats acc)) as Hstep.
  specialize (Hstep) with (sets := Geo.posters acc) (L := L) (p := post) (n := n).
  revert Hstep. unfold has_location, Geo.truthy, country_of, name_of, poster_of.
  destruct (Geo.Post.country post) as [[|c cs]|]; [done| |done].
  destruct (Geo.Post.country_name post) as [[|d ds]|]; [done| |done].
  cbn [default]. intros Hstep Hrun _. unfold Geo.gbind in Hrun.
  destruct (Geo.updateCountryStats env (Geo.countryStats acc) (Geo.posters acc)
              (c :: cs) (d :: ds) (Geo.or_else (Geo.Post.id post) Geo.anon) n)
    as [[[m' sets'] n1]|] eqn:Hupd; [|done].
  unfold Geo.gret in Hrun. injection Hrun as <- <-.
  cbn [Geo.countryStats Geo.posters]. by eapply Hstep.
Qed.

Lemma process_posts_tally (env : Env) (tno : N) (posts : list Geo.Post.t) :
  ∀ (acc acc' : Geo.Acc) (L : list Geo.Post.t) (n n' : nat),
  geo_inv (Geo.countryStats acc) (Geo.posters acc) →
  tally (Geo.countryStats acc) (Geo.posters acc) L →
  Geo.process_posts env tno posts acc n = Some (acc', n') →
  tally (Geo.countryStats acc') (Geo.posters acc')
    (L ++ filter (λ p, has_location p = true) posts).
Proof.
  induction posts as [|post posts IH]; intros acc acc' L n n' Hinv Htally Hrun.
  - cbn [Geo.process_posts] in Hrun. unfold Geo.gret in Hrun. injection Hrun as <- <-.
    by rewrite filter_nil, app_nil_r.
  - cbn [Geo.process_posts] in Hrun. unfold Geo.gbind at 1 in Hrun.
    destruct (count_located_spec env tno post (Geo.more_posts 1 acc) n Hinv)
      as (acc1 & n1 & Hrun1 & Hinv1 & _).
    rewrite Hrun1 in Hrun.
    pose proof (count_located_tally env tno post (Geo.more_posts 1 acc) acc1 L n n1
                  Hinv Htally Hrun1) as Htally1.
    pose proof (IH _ _ _ _ _ Hinv1 Htally1 Hrun) as Htally2.
    destruct (has_location post) eqn:Hloc.
    + rewrite filter_cons_True by done. by rewrite <- app_assoc in Htally2.
    + rewrite filter_cons_False by (by rewrite Hloc). by rewrite app_nil_r in Htally2.
Qed.

Lemma process_thread_tally (env : Env) (thread : Geo.Thread.t) (acc acc' : Geo.Acc)
    (L : list Geo.Post.t) (n n' : nat) :
  geo_inv (Geo.countryStats acc) (Geo.posters acc) →
  tally (Geo.countryStats acc) (Geo.posters acc) L →
  Geo.process_thread env thread acc n = Some (acc', n') →
  tally (Geo.countryStats acc') (Geo.posters acc') (L ++ located_posts thread).
Proof.
  intros Hinv Htally Hrun. unfold Geo.process_thread in Hrun. unfold located_posts.
  destruct (Geo.Thread.posts thread) as [posts|].
  2:{ unfold Geo.gret in Hrun. injection Hrun as <- <-. by rewrite app_nil_r. }
  unfold Geo.gbind at 1 in Hrun.
  change (Geo.truthy (Geo.Post.country (Geo.opPost thread posts))
          && Geo.truthy (Geo.Post.country_name (Geo.opPost thread posts)))
    with (has_location (Geo.opPost thread posts)) in Hrun.
  destruct (has_location (Geo.opPost thread posts)) eqn:Hloc.
  - destruct (count_located_spec env (Geo.Thread.no thread) (Geo.opPost thread posts)
                (Geo.more_posts 1 acc) n Hinv)
      as (acc1 & n1 & Hrun1 & Hinv1 & _).
    rewrite Hrun1 in Hrun.
    pose proof (count_located_tally env _ _ (Geo.more_posts 1 acc) acc1 L n n1
                  Hinv Htally Hrun1) as Htally1.
    rewrite Hloc in Htally1.
    pose proof (process_posts_tally env _ _ _ _ _ _ _ Hinv1 Htally1 Hrun) as Htally2.
    by rewrite <- app_assoc in Htally2.
  - unfold Geo.gret at 1 in Hrun. rewrite app_nil_l.
    by apply (process_posts_tally env _ _ _ _ _ _ _ Hinv Htally Hrun).
Qed.

Lemma process_threads_tally (env : Env) (threads : list Geo.Thread.t) :
  ∀ (acc acc' : Geo.Acc) (L : list Geo.Post.t) (n n' : nat),
  geo_inv (Geo.countryStats acc) (Geo.posters acc) →
  tally (Geo.countryStats acc) (Geo.posters acc) L →
  Geo.process_threads env threads acc n = Some (acc', n') →
  tally (Geo.countryStats acc') (Geo.posters acc') (L ++ (threads ≫= located_posts)).
Proof.
  induction threads as [|thread threads IH]; intros acc acc' L n n' Hinv Htally Hrun.
  - cbn [Geo.process_threads] in Hrun. unfold Geo.gret in Hrun. injection Hrun as <- <-.
    by rewrite app_nil_r.
  - cbn [Geo.process_threads] in Hrun. unfold Geo.gbind at 1 in Hrun.
    destruct (process_thread_spec env thread acc n Hinv)
      as (acc1 & n1 & Hrun1 & Hinv1 & _).
    rewrite Hrun1 in Hrun.
    pose proof (process_thread_tally env thread acc acc1 L n n1 Hinv Htally Hrun1) as Htally1.
    pose proof (IH _ _ _ _ _ Hinv1 Htally1 Hrun) as Htally2.
    rewrite bind_cons. by rewrite <- app_assoc in Htally2.
Qed.

Lemma tally_empty : tally [] ∅ [].
Proof. split; [by intros p ?%elem_of_nil|]. by intros k st Hget. Qed.

Lemma processCountryStats_tally (env : Env) (threads : list Geo.Thread.t) (acc : Geo.Acc)
    (n n' : nat) :
  Geo.processCountryStats env threads n = Some (acc, n') →
  tally (Geo.countryStats acc) (Geo.posters acc) (threads ≫= located_posts).
Proof.
  intros Hrun.
  apply (process_threads_tally env threads Geo.empty_acc acc [] n n' geo_inv_empty tally_empty Hrun).
Qed.

Lemma ranking_elem (key : Geo.CountryStats → N) (m : list (list N * Geo.CountryStats))
    (st : Geo.CountryStats) :
  st ∈ take Geo.MAX_COUNTRIES (Geo.sort_desc key m.*2) → ∃ k, (k, st) ∈ m.
Proof.
  intros Hin. assert (Hst : st ∈ m.*2).
  { rewrite <- (sort_desc_perm key). eapply elem_of_sublist; [exact Hin|apply sublist_take]. }
  apply list_elem_of_fmap in Hst as ([k st'] & -> & Hin'). by exists k.
Qed.

(** X18. Every country listed in the result is a country of some counted
    post; its post count is the number of counted posts of its country
    code, its name the country name of the first of them, and its number
    of unique posters the number of distinct poster ids among them, a post
    without an id counting as the poster anon.  The counted posts are the
    posts with country data and, once more, the first post of a thread
    when it has country data. *)
Theorem geo_country_counts (env : Env) (threads : list Geo.Thread.t) (n : nat) :
  ∃ r n',
    Geo.analyze env threads n = Some ([r], n')
    ∧ ∀ st, st ∈ Geo.mostCommonCountries r ∨ st ∈ Geo.mostUniqueCountries r →
        ∃ first others,
          from_country (Geo.code st) (threads ≫= located_posts) = first :: others
          ∧ Geo.postCount st = N.of_nat (length (first :: others))
          ∧ Geo.name st = name_of first
          ∧ Geo.uniquePosters st
            = N.of_nat (size (list_to_set (poster_of <$> first :: others) : gset (list N))).
Proof.
  destruct (analyze_run env threads n)
    as (acc & n1 & r & Hrun & Hres & _ & _ & _ & _ & Hcommon & Hunique & _ & _).
  destruct (processCountryStats_spec env threads n)
    as (acc' & n1' & Hrun' & Hinv & _).
  rewrite Hrun in Hrun'. injection Hrun' as <- <-.
  pose proof (processCountryStats_tally env threads acc n n1 Hrun) as [_ Htally].
  exists r, (S n1). split; [done|]. intros st Hst.
  assert (Hk : ∃ k, (k, st) ∈ Geo.countryStats acc).
  { destruct Hst as [Hst|Hst]; [rewrite Hcommon in Hst|rewrite Hunique in Hst];
      by eapply ranking_elem. }
  destruct Hk as [k Hin]. destruct Hinv as (Hnd & Hgeo & _).
  destruct (Hgeo k st Hin) as (Hcode & S & HS & Hsize & Hone & Hle).
  destruct (Htally k st) as (Hc & Hn & Hs); [by apply map_get_Some|].
  rewrite HS in Hs. injection Hs as ->. rewrite Hcode.
  destruct (from_country k (threads ≫= located_posts)) as [|first others] eqn:HP.
  - cbn [fmap list_fmap] in Hone. rewrite list_to_set_nil, size_empty in Hone. lia.
  - exists first, others. done.
Qed.

(** X19. The number of countries of the result is the number of distinct
    country codes among the counted posts. *)
Theorem geo_countries_seen (env : Env) (threads : list Geo.Thread.t) (n : nat) :
  ∃ r n',
    Geo.analyze env threads n = Some ([r], n')
    ∧ Geo.totalUniqueCountries r
      = N.of_nat (size (list_to_set (country_of <$> (threads ≫= located_posts))
                        : gset (list N))).
Proof.
  destruct (analyze_run env threads n)
    as (acc & n1 & r & Hrun & Hres & _ & _ & _ & Huniq & _).
  destruct (processCountryStats_spec env threads n)
    as (acc' & n1' & Hrun' & Hinv & _).
  rewrite Hrun in Hrun'. injection Hrun' as <- <-.
  pose proof (processCountryStats_tally env threads acc n n1 Hrun) as [Hall Htally].
  exists r, (S n1). split; [done|]. rewrite Huniq. f_equal.
  destruct Hinv as (Hnd & Hgeo & _).
  rewrite <- (length_fmap fst), <- (size_list_to_set (C := gset (list N))) by done.
  f_equal. apply set_eq. intros k. rewrite !elem_of_list_to_set. split.
  - intros ([k' st] & -> & Hin)%list_elem_of_fmap. cbn [fst].
    destruct (Hgeo k' st Hin) as (_ & S & HS & _ & Hone & Hle).
    destruct (Htally k' st) as (Hc & _); [by apply map_get_Some|].
    destruct (from_country k' (threads ≫= located_posts)) as [|p P] eqn:HP.
    + cbn [length] in Hc. lia.
    + assert (Hp : p ∈ from_country k' (threads ≫= located_posts))
        by (rewrite HP; by left).
      apply list_elem_of_filter in Hp as [Hk Hp].
      apply list_elem_of_fmap. by exists p.
  - intros (p & -> & Hp)%list_elem_of_fmap. by apply Hall.
Qed.

Lemma geo_codes (m : list (list N * Geo.CountryStats)) (sets : gmap (list N) (gset (list N))) :
  geo_inv m sets → Geo.code <$> m.*2 = m.*1.
Proof.
  intros (_ & Hentries & _). induction m as [|[k st] m IH]; [done|].
  rewrite !fmap_cons. cbn [fst snd]. f_equal.
  - destruct (Hentries k st) as [Hcode _]; [by left|done].
  - apply IH. intros k' st' Hin. apply Hentries. by right.
Qed.

(** The statistics hold one entry for each country code of the counted
    posts, with the number of its posts and of its different posters. *)
Lemma statistics_entries (m : list (list N * Geo.CountryStats))
    (sets : gmap (list N) (gset (list N))) (L : list Geo.Post.t) :
  geo_inv m sets → tally m sets L →
  NoDup (Geo.code <$> m.*2)
  ∧ (∀ k, k ∈ Geo.code <$> m.*2 ↔ k ∈ country_of <$> L)
  ∧ (∀ st, st ∈ m.*2 →
       Geo.postCount st = N.of_nat (length (from_country (Geo.code st) L))
       ∧ Geo.uniquePosters st
         = N.of_nat (size (list_to_set (poster_of <$> from_country (Geo.code st) L)
                           : gset (list N)))).
Proof.
  intros Hinv [Hall Htally]. pose proof (geo_codes m sets Hinv) as Hcodes.
  destruct Hinv as (Hnd & Hgeo & _). rewrite Hcodes. split_and!; [done| |].
  - intros k. split.
    + intros ([k' st] & -> & Hin)%list_elem_of_fmap. cbn [fst].
      destruct (Hgeo k' st Hin) as (_ & S & HS & _ & Hone & Hle).
      destruct (Htally k' st) as (Hc & _); [by apply map_get_Some|].
      destruct (from_country k' L) as [|p P] eqn:HP; [cbn [length] in Hc; lia|].
      assert (Hp : p ∈ from_country k' L) by (rewrite HP; by left).
      apply list_elem_of_filter in Hp as [Hk Hp].
      apply list_elem_of_fmap. by exists p.
    + intros (p & -> & Hp)%list_elem_of_fmap. by apply Hall.
  - intros st ([k st'] & -> & Hin)%list_elem_of_fmap. cbn [snd].
    destruct (Hgeo k st' Hin) as (Hcode & S & HS & Hsize & _).
    destruct (Htally k st') as (Hc & _ & Hs); [by apply map_get_Some|].
    rewrite HS in Hs. injection Hs as ->. by rewrite Hcode.
Qed.

(** X16. The countries listed as most common are the first six of a
    ranking, in descending order of their post count, of all the
    countries of the statistics that [processCountryStats] returns, and
    those listed as having most unique posters the first six of a ranking
    of the same countries in descending order of their number of unique
    posters. The countries of the statistics are the countries of the
    counted posts, each once, with the number of its counted posts and
    the number of their different posters. *)
Theorem geo_rankings_sorted (env : Env) (threads : list Geo.Thread.t) (n : nat) :
  let counted_posts := threads ≫= located_posts in
  ∃ r n' acc n1 byPosts byPosters,
    Geo.analyze env threads n = Some ([r], n')
    ∧ Geo.processCountryStats env threads n = Some (acc, n1)
    ∧ byPosts ≡ₚ (Geo.countryStats acc).*2
    ∧ byPosters ≡ₚ (Geo.countryStats acc).*2
    ∧ descending Geo.postCount byPosts
    ∧ descending Geo.uniquePosters byPosters
    ∧ Geo.mostCommonCountries r = take 6 byPosts
    ∧ Geo.mostUniqueCountries r = take 6 byPosters
    ∧ NoDup (Geo.code <$> byPosts)
    ∧ (∀ k, k ∈ Geo.code <$> byPosts ↔ k ∈ country_of <$> counted_posts)
    ∧ (∀ st, st ∈ byPosts →
         Geo.postCount st
         = N.of_nat (length (from_country (Geo.code st) counted_posts))
         ∧ Geo.uniquePosters st
           = N.of_nat (size (list_to_set
                               (poster_of <$> from_country (Geo.code st) counted_posts)
                             : gset (list N)))).
Proof.
  intros counted_posts.
  destruct (analyze_run env threads n)
    as (acc & n1 & r & Hrun & Hres & _ & _ & _ & _ & Hcommon & Hunique & _ & _).
  destruct (processCountryStats_spec env threads n)
    as (acc' & n1' & Hrun' & Hinv & _).
  rewrite Hrun in Hrun'. injection Hrun' as <- <-.
  pose proof (processCountryStats_tally env threads acc n n1 Hrun) as Htally.
  destruct (statistics_entries _ _ _ Hinv Htally) as (Hnd & Hcodes & Hentries).
  pose proof (sort_desc_perm Geo.postCount (Geo.countryStats acc).*2) as Hperm.
  exists r, (S n1), acc, n1, (Geo.sort_desc Geo.postCount (Geo.countryStats acc).*2),
    (Geo.sort_desc Geo.uniquePosters (Geo.countryStats acc).*2).
  split_and!; [done|done|done|apply sort_desc_perm|apply sort_desc_descending
               |apply sort_desc_descending|done|done| | |].
  - by rewrite Hperm.
  - intros k. by rewrite Hperm.
  - intros st Hst. apply Hentries. by rewrite <- Hperm.
Qed.

(** * Further instances *)

Lemma checkpoint_round_trip_witness :
  fault_free (stub_env answer)
  ∧ ∃ w1 w2,
      saveProgress (stub_env answer) example_generator
        (articles (returned empty_first_run)) (world_with ∅)
      = (Ok (), w1)
      ∧ loadProgress (stub_env answer) example_generator w1
        = (Ok (json_analysis <$> articles (returned empty_first_run)), w2)
      ∧ json_analysis <$> articles (returned empty_first_run)
        ≠ articles (returned empty_first_run).
Proof.
  assert (Hfree : fault_free (stub_env answer)) by (intros log op; reflexivity).
  split; [exact Hfree|].
  destruct (checkpoint_round_trip (stub_env answer) example_generator
              (articles (returned empty_first_run)) (world_with ∅) Hfree)
    as (w1 & w2 & Hsave & Hload & Hiff & _).
  exists w1, w2. split; [exact Hsave|]. split; [exact Hload|].
  intros Heq. apply Hiff in Heq. vm_compute in Heq. apply Forall_inv in Heq. exact Heq.
Defined.

Lemma record_counts_witness :
  ∃ record w',
    analyzeThread (stub_env answer) example_generator (thread_of 1 10) (world_with ∅)
    = (Ok record, w')
    ∧ threadId record = 1%N
    ∧ totalPosts (metadata record) = 10%N
    ∧ (analyzedPosts (metadata record) ≤ 10)%N.
Proof.
  destruct (analyzeThread (stub_env answer) example_generator (thread_of 1 10) (world_with ∅))
    as [[record|e] w'] eqn:Hrun; vm_compute in Hrun; [|discriminate].
  exists record, w'. split; [reflexivity|].
  destruct (record_counts (stub_env answer) example_generator (thread_of 1 10)
              (world_with ∅) w' record) as (Hid & Htotal & _ & Hle).
  - vm_compute. exact Hrun.
  - rewrite Htotal in Hle. split; [exact Hid|]. split; [exact Htotal|exact Hle].
Defined.

Lemma records_in_input_order_witness :
  stateless (stub_env answer)
  ∧ ∃ existing w0,
      loadProgress (stub_env answer) example_generator stale_world = (Ok existing, w0)
      ∧ articles (returned second_run)
        = existing
          ++ omap (record_of (stub_env answer) example_generator)
               (remaining_threads existing two_threads).
Proof.
  assert (Hsecond : second_run = (Ok (returned second_run), second_run.2))
    by (vm_compute; reflexivity).
  split; [apply stub_env_stateless|].
  exact (records_in_input_order (stub_env answer) example_generator two_threads None
           stale_world second_run.2 (returned second_run)
           (stub_env_stateless answer) Hsecond).
Defined.

Lemma onProgress_calls_witness :
  ∃ existing w0 new,
    loadProgress (stub_env answer) example_generator stale_world = (Ok existing, w0)
    ∧ articles (returned notified_run) = existing ++ new
    ∧ progress_calls notified_run.2
      = progress_calls stale_world ++ ((λ a, JsString.of_N (threadId a)) <$> new).
Proof.
  assert (Hrun : notified_run = (Ok (returned notified_run), notified_run.2))
    by (vm_compute; reflexivity).
  exact (onProgress_calls (stub_env answer) example_generator two_threads (λ _, true)
           stale_world notified_run.2 (returned notified_run) Hrun).
Defined.

Lemma result_identifiers_distinct_witness :
  NoDup (threadId <$> stale_checkpoint)
  ∧ NoDup (no <$> two_threads)
  ∧ NoDup (threadId <$> articles (returned second_run)).
Proof.
  assert (Hsecond : second_run = (Ok (returned second_run), second_run.2))
    by (vm_compute; reflexivity).
  assert (Hex : NoDup (threadId <$> stale_checkpoint))
    by (vm_compute; apply NoDup_singleton).
  assert (Hth : NoDup (no <$> two_threads)).
  { apply NoDup_cons. split; [|apply NoDup_singleton].
    intros Hin%list_elem_of_singleton. discriminate Hin. }
  split; [exact Hex|]. split; [exact Hth|].
  refine (result_identifiers_distinct (stub_env answer) example_generator two_threads None
            stale_world (loadProgress (stub_env answer) example_generator stale_world).2
            second_run.2 stale_checkpoint (returned second_run) _ Hex Hth Hsecond).
  unfold loadProgress, fs_readFile. unfold_m. cbn [fs_fault stub_env].
  unfold stale_world. cbn [files world_with]. rewrite lookup_singleton_eq. reflexivity.
Defined.

Lemma batch_totals_witness :
  first_run = (Ok (returned first_run), first_run.2)
  ∧ totalThreads (batchStats (returned first_run))
    = N.of_nat (length (articles (returned first_run)))
  ∧ totalAnalyzedPosts (batchStats (returned first_run))
    = sumN ((λ a, analyzedPosts (metadata a)) <$> articles (returned first_run)).
Proof.
  assert (Hrun : first_run = (Ok (returned first_run), first_run.2))
    by (vm_compute; reflexivity).
  split; [exact Hrun|].
  exact (batch_totals (stub_env answer) example_generator two_threads None
           (world_with ∅) first_run.2 (returned first_run) Hrun).
Defined.

Lemma disk_after_success_witness :
  first_run = (Ok (returned first_run), first_run.2)
  ∧ (∃ timestamp,
       files first_run.2 !! outputFile example_generator
       = Some (OutputDoc (json_batch (returned first_run)) timestamp))
  ∧ files first_run.2 !! tempFile example_generator = None
  ∧ files first_run.2 !! progressFile example_generator = None.
Proof.
  assert (Hrun : first_run = (Ok (returned first_run), first_run.2))
    by (vm_compute; reflexivity).
  split; [exact Hrun|].
  destruct (disk_after_success (stub_env answer) (lit "/data") None None two_threads None
              (world_with ∅) first_run.2 (returned first_run) Hrun)
    as (Hout & Htmp & Hprog).
  split; [exact Hout|]. split; [exact Htmp|].
  apply Hprog. intros log. reflexivity.
Defined.


